(** * SuperhyperfineHamiltonians: a shallow embedding of [Archive/SpinBathEuTest.py]

    The program builds spin operators, embeds them in a composite space with
    Kronecker products, assembles a ground and an excited Hamiltonian, and
    answers queries on their eigenstructure.  Floating-point numbers are
    idealised as exact reals, complex numbers are pairs of reals, and numpy
    arrays are nested lists together with numpy's shape rules (broadcasting,
    rank promotion in [kron], the rank cases of [@]). *)

From Stdlib Require Import String.
From Stdlib Require Import Reals Lra Lia List Arith PeanoNat Bool.
From Stdlib Require Import RNsatz.
Import ListNotations.

Set Implicit Arguments.

(** ** Complex scalars *)

Definition C : Type := (R * R)%type.

Declare Scope C_scope.
Delimit Scope C_scope with C.
Bind Scope C_scope with C.

Definition RtoC (x : R) : C := (x, 0%R).
Definition C0 : C := RtoC 0.
Definition C1 : C := RtoC 1.
Definition Ci : C := (0%R, 1%R).
Definition Cadd (a b : C) : C := (fst a + fst b, snd a + snd b)%R.
Definition Copp (a : C) : C := (- fst a, - snd a)%R.
Definition Csub (a b : C) : C := (fst a - fst b, snd a - snd b)%R.
Definition Cmul (a b : C) : C :=
  (fst a * fst b - snd a * snd b, fst a * snd b + snd a * fst b)%R.
Definition Cconj (a : C) : C := (fst a, - snd a)%R.
(** division of a complex number by a real one, as in [z / 2] *)
Definition Cdivr (a : C) (r : R) : C := (fst a / r, snd a / r)%R.
(** [abs(z)] *)
Definition Cabs (a : C) : R := sqrt (fst a * fst a + snd a * snd a).
(** [a / b] *)
Definition Cdiv (a b : C) : C :=
  Cdivr (Cmul a (Cconj b)) (fst b * fst b + snd b * snd b).

Infix "+" := Cadd : C_scope.
Infix "-" := Csub : C_scope.
Infix "*" := Cmul : C_scope.
Notation "- x" := (Copp x) : C_scope.

(** finite sums, as accumulated by a dot product *)
Fixpoint Csum (n : nat) (f : nat -> C) : C :=
  match n with
  | O => C0
  | S n' => (Csum n' f + f n')%C
  end.

(** ** Exceptions and fallible results *)

Inductive exn : Type :=
| Exception        (* a bare [raise Exception] *)
| ValueError       (* numpy: shapes that cannot be broadcast, reshaped or multiplied *)
| IndexError       (* an index outside a list or an array *)
| AttributeError   (* an attribute that the object never got *)
| LinAlgError.     (* numpy.linalg on an array that is not a square matrix *)

Inductive result (A : Type) : Type :=
| Ok (a : A)
| Raise (e : exn).
Arguments Ok {A} a.
Arguments Raise {A} e.

Definition rbind {A B} (r : result A) (k : A -> result B) : result B :=
  match r with
  | Ok a => k a
  | Raise e => Raise e
  end.

Notation "x <- r ;; k" := (rbind r (fun x => k))
  (at level 61, r at next level, right associativity).
Notation "' pat <- r ;; k" := (rbind r (fun x => match x with pat => k end))
  (at level 61, pat pattern, r at next level, right associativity).

(** a [for] loop over a list whose body can raise *)
Fixpoint for_each {A S} (l : list A) (body : A -> S -> result S) (s : S)
  : result S :=
  match l with
  | [] => Ok s
  | a :: l' => s' <- body a s ;; for_each l' body s'
  end.

(** ** Lists as array storage *)

Definition tab1 (n : nat) (f : nat -> C) : list C := map f (seq 0 n).
Definition tab2 (r c : nat) (f : nat -> nat -> C) : list (list C) :=
  map (fun i => tab1 c (f i)) (seq 0 r).
Definition get1 (v : list C) (i : nat) : C := nth i v C0.
Definition get2 (m : list (list C)) (i j : nat) : C := get1 (nth i m []) j.
Definition ncols (m : list (list C)) : nat := length (hd [] m).

(** [rect r c m]: [m] stores an [r] by [c] array *)
Definition rect (r c : nat) (m : list (list C)) : Prop :=
  length m = r /\ Forall (fun row => length row = c) m.


(** list update at an index, nothing changed out of range; [setitem2]
    below checks the range first, as numpy does *)
Fixpoint upd {A} (i : nat) (x : A) (l : list A) : list A :=
  match l, i with
  | [], _ => []
  | _ :: t, O => x :: t
  | a :: t, S i' => a :: upd i' x t
  end.

(** ** numpy arrays

    The program only meets arrays of rank 0 (Python numbers), 1 and 2, and
    stacks of three arrays of equal shape built by [np.array([x, y, z])]. *)

Inductive ndarray : Type :=
| Num (z : C)
| Arr1 (v : list C)
| Arr2 (m : list (list C)).

Definition stack : Type := (ndarray * ndarray * ndarray)%type.

Definition shape (a : ndarray) : list nat :=
  match a with
  | Num _ => []
  | Arr1 v => [length v]
  | Arr2 m => [length m; ncols m]
  end.

(** [s[i]] for [i] in [range(3)] *)
Definition item (s : stack) (i : nat) : ndarray :=
  match i with
  | 0 => fst (fst s)
  | 1 => snd (fst s)
  | _ => snd s
  end.

(** an elementwise operation; the result of rank 2 is laid out again from
    the shape of the argument *)
Definition amap (f : C -> C) (a : ndarray) : ndarray :=
  match a with
  | Num z => Num (f z)
  | Arr1 v => Arr1 (map f v)
  | Arr2 m => Arr2 (tab2 (length m) (ncols m) (fun i j => f (get2 m i j)))
  end.

Definition smap (f : ndarray -> ndarray) (s : stack) : stack :=
  (f (item s 0), f (item s 1), f (item s 2)).

(** [z * a] for a Python number [z] *)
Definition scale (z : C) (a : ndarray) : ndarray := amap (Cmul z) a.
(** [a / r] for a real number [r] *)
Definition divr (a : ndarray) (r : R) : ndarray := amap (fun z => Cdivr z r) a.
(** [-a] *)
Definition neg (a : ndarray) : ndarray := amap Copp a.
(** [a.conjugate()] *)
Definition conjugate (a : ndarray) : ndarray := amap Cconj a.
(** [abs(a)**2] *)
Definition abs2 (a : ndarray) : ndarray :=
  amap (fun z => RtoC (Cabs z ^ 2)) a.

(** [np.zeros((r, c), dtype=complex)] and [np.identity(n)] *)
Definition zeros (r c : nat) : list (list C) := tab2 r c (fun _ _ => C0).
Definition identity (n : nat) : ndarray :=
  Arr2 (tab2 n n (fun i j => if i =? j then C1 else C0)).

(** [m[i, j] = v] *)
Definition setitem2 (m : list (list C)) (i j : nat) (v : C)
  : result (list (list C)) :=
  if (i <? length m) && (j <? length (nth i m [])) then
    Ok (upd i (upd j v (nth i m [])) m)
  else Raise IndexError.

(** [l[i]] on a list of reals *)
Definition getR (l : list R) (i : nat) : result R :=
  match nth_error l i with
  | Some x => Ok x
  | None => Raise IndexError
  end.

(** *** Broadcasting *)

(** the common length of two axes, when numpy has one *)
Definition bdim (a b : nat) : option nat :=
  if a =? b then Some a
  else if a =? 1 then Some b
  else if b =? 1 then Some a
  else None.

(** the index read on an axis of length [n] for the output index [i] *)
Definition bidx (n i : nat) : nat := if n =? 1 then 0 else i.

Definition binop1 (f : C -> C -> C) (u v : list C) : result ndarray :=
  match bdim (length u) (length v) with
  | Some n =>
      Ok (Arr1 (tab1 n (fun i => f (get1 u (bidx (length u) i))
                                   (get1 v (bidx (length v) i)))))
  | None => Raise ValueError
  end.

Definition binop2 (f : C -> C -> C) (a b : list (list C)) : result ndarray :=
  match bdim (length a) (length b), bdim (ncols a) (ncols b) with
  | Some r, Some c =>
      Ok (Arr2 (tab2 r c (fun i j =>
            f (get2 a (bidx (length a) i) (bidx (ncols a) j))
              (get2 b (bidx (length b) i) (bidx (ncols b) j)))))
  | _, _ => Raise ValueError
  end.

(** an elementwise binary operator; a rank-1 operand meets a rank-2 one as
    a single row *)
Definition binop (f : C -> C -> C) (a b : ndarray) : result ndarray :=
  match a, b with
  | Num x, Num y => Ok (Num (f x y))
  | Num x, _ => Ok (amap (f x) b)
  | _, Num y => Ok (amap (fun x => f x y) a)
  | Arr1 u, Arr1 v => binop1 f u v
  | Arr1 u, Arr2 m => binop2 f [u] m
  | Arr2 m, Arr1 v => binop2 f m [v]
  | Arr2 m, Arr2 n => binop2 f m n
  end.

Definition np_add : ndarray -> ndarray -> result ndarray := binop Cadd.
Definition np_sub : ndarray -> ndarray -> result ndarray := binop Csub.
Definition np_mul : ndarray -> ndarray -> result ndarray := binop Cmul.
Definition np_div : ndarray -> ndarray -> result ndarray := binop Cdiv.

(** [a += b]: a Python number is rebound to [a + b]; an array is updated
    in place, which numpy refuses when the broadcast result has another
    shape than [a] *)
Definition np_iadd (a b : ndarray) : result ndarray :=
  match a with
  | Num _ => np_add a b
  | _ =>
      r <- np_add a b ;;
      if list_eq_dec Nat.eq_dec (shape r) (shape a) then Ok r
      else Raise ValueError
  end.

(** Python's [sum(...)] over a generator: starts from the integer 0 *)
Fixpoint py_sum_from (acc : ndarray) (l : list (result ndarray))
  : result ndarray :=
  match l with
  | [] => Ok acc
  | r :: l' => x <- r ;; acc' <- np_add acc x ;; py_sum_from acc' l'
  end.
Definition py_sum (l : list (result ndarray)) : result ndarray :=
  py_sum_from (Num C0) l.

(** *** Matrix product [a @ b] (and [a.dot(b)] on the ranks met here) *)

Definition matmul (a b : ndarray) : result ndarray :=
  match a, b with
  | Arr2 m, Arr2 n =>
      if ncols m =? length n then
        Ok (Arr2 (tab2 (length m) (ncols n) (fun i j =>
              Csum (length n) (fun k => get2 m i k * get2 n k j)%C)))
      else Raise ValueError
  | Arr1 u, Arr2 n =>
      if length u =? length n then
        Ok (Arr1 (tab1 (ncols n) (fun j =>
              Csum (length n) (fun k => get1 u k * get2 n k j)%C)))
      else Raise ValueError
  | Arr2 m, Arr1 v =>
      if ncols m =? length v then
        Ok (Arr1 (tab1 (length m) (fun i =>
              Csum (length v) (fun k => get2 m i k * get1 v k)%C)))
      else Raise ValueError
  | Arr1 u, Arr1 v =>
      if length u =? length v then
        Ok (Num (Csum (length v) (fun k => get1 u k * get1 v k)%C))
      else Raise ValueError
  | _, _ => Raise ValueError
  end.

(** *** Kronecker product [np.kron(a, b)]: the operand of lower rank gets
    leading axes of length 1 *)

Definition kron2 (a b : list (list C)) : list (list C) :=
  tab2 (length a * length b) (ncols a * ncols b) (fun i j =>
    get2 a (i / length b) (j / ncols b) * get2 b (i mod length b) (j mod ncols b))%C.

Definition kron (a b : ndarray) : ndarray :=
  match a, b with
  | Num x, _ => scale x b
  | _, Num y => amap (fun x => Cmul x y) a
  | Arr1 u, Arr1 v =>
      Arr1 (tab1 (length u * length v) (fun k =>
              get1 u (k / length v) * get1 v (k mod length v))%C)
  | Arr1 u, Arr2 n => Arr2 (kron2 [u] n)
  | Arr2 m, Arr1 v => Arr2 (kron2 m [v])
  | Arr2 m, Arr2 n => Arr2 (kron2 m n)
  end.

(** *** Reshaping (row-major) *)

Definition flatten (a : ndarray) : list C :=
  match a with
  | Num z => [z]
  | Arr1 v => v
  | Arr2 m => concat m
  end.

Definition flatten3 (s : stack) : list C :=
  flatten (item s 0) ++ flatten (item s 1) ++ flatten (item s 2).

(** [x.reshape((r, c))] *)
Definition reshape2 (flat : list C) (r c : nat) : result ndarray :=
  if length flat =? r * c then
    Ok (Arr2 (tab2 r c (fun i j => get1 flat (i * c + j))))
  else Raise ValueError.

(** [x.reshape((3, r, c))] *)
Definition reshape3 (flat : list C) (r c : nat) : result stack :=
  if length flat =? 3 * (r * c) then
    let part k := Arr2 (tab2 r c (fun i j => get1 flat (k * (r * c) + i * c + j))) in
    Ok (part 0, part 1, part 2)
  else Raise ValueError.

(** [m[:, j]] *)
Definition column (a : ndarray) (j : nat) : result ndarray :=
  match a with
  | Arr2 m =>
      if j <? ncols m then Ok (Arr1 (map (fun row => get1 row j) m))
      else Raise IndexError
  | _ => Raise IndexError
  end.

(** [m[:, idx]] for a list of column indices *)
Definition take_columns (a : ndarray) (idx : list nat) : result ndarray :=
  match a with
  | Arr2 m =>
      if forallb (fun j => j <? ncols m) idx then
        Ok (Arr2 (map (fun row => map (get1 row) idx) m))
      else Raise IndexError
  | _ => Raise IndexError
  end.

(** [np.linalg.norm(v)] *)
Definition norm (a : ndarray) : R :=
  sqrt (fold_right (fun z acc => Cabs z ^ 2 + acc)%R 0%R (flatten a)).

(** [a.conj().T]: on rank 1 and rank 0 the transpose does nothing *)
Definition conj_transpose (a : ndarray) : ndarray :=
  match a with
  | Arr2 m => Arr2 (tab2 (ncols m) (length m) (fun i j => Cconj (get2 m j i)))
  | _ => conjugate a
  end.

(** ** [generate_spin_matrices]

    A spin quantum number is a half-integer [two_s / 2]; the program gets it
    as a float that holds such a value exactly. *)

Definition spin_of (two_s : nat) : R := INR two_s / 2.

(** [np.arange(spin, -spin-1, -1)], which has [2*spin + 1] entries *)
Definition arange_desc (spin : R) (n : nat) : list R :=
  map (fun k => spin - INR k)%R (seq 0 n).

(** the two off-diagonal values written by the loop body *)
Definition sx_val (spin m m' : R) : C :=
  RtoC (1 / 2 * sqrt (spin * (spin + 1) - m * m')).
Definition sy_up_val (spin m m' : R) : C :=
  (- (Cdivr Ci 2) * RtoC (sqrt (spin * (spin + 1) - m * m')))%C.
Definition sy_down_val (spin m m' : R) : C :=
  (Cdivr Ci 2 * RtoC (sqrt (spin * (spin + 1) - m * m')))%C.

Definition mats : Type := (list (list C) * list (list C) * list (list C))%type.

(** the body of [for row in range(dim)] *)
Definition spin_row (spin : R) (dim : nat) (desc : list R) (row : nat)
  (st : mats) : result mats :=
  let '(sx, sy, sz) := st in
  d <- getR desc row ;;
  sz <- setitem2 sz row row (RtoC d) ;;
  if row =? 0 then
    d1 <- getR desc (row + 1) ;;
    sx <- setitem2 sx row (row + 1) (sx_val spin d d1) ;;
    sy <- setitem2 sy row (row + 1) (sy_up_val spin d d1) ;;
    Ok (sx, sy, sz)
  else if row =? dim - 1 then
    d1 <- getR desc (row - 1) ;;
    sx <- setitem2 sx row (row - 1) (sx_val spin d d1) ;;
    sy <- setitem2 sy row (row - 1) (sy_down_val spin d d1) ;;
    Ok (sx, sy, sz)
  else
    d1 <- getR desc (row + 1) ;;
    sx <- setitem2 sx row (row + 1) (sx_val spin d d1) ;;
    d2 <- getR desc (row - 1) ;;
    sx <- setitem2 sx row (row - 1) (sx_val spin d d2) ;;
    sy <- setitem2 sy row (row + 1) (sy_up_val spin d d1) ;;
    sy <- setitem2 sy row (row - 1) (sy_down_val spin d d2) ;;
    Ok (sx, sy, sz).

Definition generate_spin_matrices (two_s : nat) : result stack :=
  if two_s =? 0 then
    (* np.array((0,)): a rank-1 array with the single entry 0 *)
    Ok (Arr1 [C0], Arr1 [C0], Arr1 [C0])
  else
    let spin := spin_of two_s in
    let dim := two_s + 1 in
    let desc := arange_desc spin dim in
    '(sx, sy, sz) <- for_each (seq 0 dim) (spin_row spin dim desc)
                       (zeros dim dim, zeros dim dim, zeros dim dim) ;;
    Ok (Arr2 sx, Arr2 sy, Arr2 sz).

(** ** Inputs: real 3-vectors and real 3x3 tensors *)

Definition vec3 : Type := (R * R * R)%type.
Definition mat33 : Type := (vec3 * vec3 * vec3)%type.

Definition of_vec3 (v : vec3) : list C :=
  [RtoC (fst (fst v)); RtoC (snd (fst v)); RtoC (snd v)].
Definition of_mat33 (g : mat33) : ndarray :=
  Arr2 [of_vec3 (fst (fst g)); of_vec3 (snd (fst g)); of_vec3 (snd g)].

(** ** Physical constants of [SpinSystem] *)

Definition mu_b : R := 9.2740100 * / 10 ^ 24.
Definition h : R := 6.62607004 * / 10 ^ 34.
Definition beta_el : R := mu_b / (h * 10 ^ 9).
Definition mu_n : R := 5.0507837 * / 10 ^ 27.
Definition beta_n : R := mu_n / (h * 10 ^ 9).

(** ** [Neighbour] *)

Record Neighbour : Type := {
  n_disp_vector : ndarray;
  n_R : R;
  n_spinH : nat;            (* twice the spin *)
  n_multH : nat;
  n_g_n_host : R;
  n_element : string;
  n_H : stack;
  n_Hv3 : ndarray
}.

(** one entry of [neighbours_list]:
    (displacement in Angstrom, spin, nuclear g, element) *)
Definition neighbour_input : Type := (vec3 * nat * R * string)%type.

(** [Neighbour.__init__] *)
Definition new_Neighbour (inp : neighbour_input) : result Neighbour :=
  let '(disp, spinH, g_n_host, element) := inp in
  let disp_vector := scale (RtoC (/ 10 ^ 10)) (Arr1 (of_vec3 disp)) in
  let multH := spinH + 1 in
  H <- generate_spin_matrices spinH ;;
  Hv3 <- reshape2 (flatten3 H) 3 (multH * multH) ;;
  Ok {| n_disp_vector := disp_vector;
        n_R := norm disp_vector;
        n_spinH := spinH;
        n_multH := multH;
        n_g_n_host := g_n_host;
        n_element := element;
        n_H := H;
        n_Hv3 := Hv3 |}.

(** ** [SpinSystem] *)

(** what [__init__] stores before it builds any Hamiltonian *)
Record Params : Type := {
  spinS : nat;              (* twice the electron spin *)
  spinI : nat;              (* twice the nuclear spin *)
  g_gs : mat33;
  g_es : mat33;
  g_n_rei : R;
  A_gs : mat33;
  A_es : mat33;
  multS : nat;
  multI : nat;
  S_ : stack;               (* self.S, with self.sx, self.sy, self.sz its items *)
  Sv3 : ndarray;
  I_ : stack;               (* self.I *)
  Iv3 : ndarray;
  neighbours_input : list neighbour_input;
  neighbours : list Neighbour;
  neighbours_string : string
}.

Record SpinSystem : Type := {
  params : Params;
  HHF_gs : ndarray;
  HHF_es : ndarray;
  H_SHF_gs : ndarray;
  H_SHF_es : ndarray;
  H_gs : ndarray;
  H_es : ndarray;
  E_gs : list C;
  eigvec_gs : ndarray;
  E_es : list C;
  eigvec_es : ndarray
}.

(** attribute assignments *)
Definition set_HHF_gs (a : ndarray) (s : SpinSystem) : SpinSystem :=
  {| params := params s; HHF_gs := a; HHF_es := HHF_es s;
     H_SHF_gs := H_SHF_gs s; H_SHF_es := H_SHF_es s;
     H_gs := H_gs s; H_es := H_es s;
     E_gs := E_gs s; eigvec_gs := eigvec_gs s;
     E_es := E_es s; eigvec_es := eigvec_es s |}.
Definition set_HHF_es (a : ndarray) (s : SpinSystem) : SpinSystem :=
  {| params := params s; HHF_gs := HHF_gs s; HHF_es := a;
     H_SHF_gs := H_SHF_gs s; H_SHF_es := H_SHF_es s;
     H_gs := H_gs s; H_es := H_es s;
     E_gs := E_gs s; eigvec_gs := eigvec_gs s;
     E_es := E_es s; eigvec_es := eigvec_es s |}.
Definition set_H_SHF_gs (a : ndarray) (s : SpinSystem) : SpinSystem :=
  {| params := params s; HHF_gs := HHF_gs s; HHF_es := HHF_es s;
     H_SHF_gs := a; H_SHF_es := H_SHF_es s;
     H_gs := H_gs s; H_es := H_es s;
     E_gs := E_gs s; eigvec_gs := eigvec_gs s;
     E_es := E_es s; eigvec_es := eigvec_es s |}.
Definition set_H_SHF_es (a : ndarray) (s : SpinSystem) : SpinSystem :=
  {| params := params s; HHF_gs := HHF_gs s; HHF_es := HHF_es s;
     H_SHF_gs := H_SHF_gs s; H_SHF_es := a;
     H_gs := H_gs s; H_es := H_es s;
     E_gs := E_gs s; eigvec_gs := eigvec_gs s;
     E_es := E_es s; eigvec_es := eigvec_es s |}.
Definition set_H_gs (a : ndarray) (s : SpinSystem) : SpinSystem :=
  {| params := params s; HHF_gs := HHF_gs s; HHF_es := HHF_es s;
     H_SHF_gs := H_SHF_gs s; H_SHF_es := H_SHF_es s;
     H_gs := a; H_es := H_es s;
     E_gs := E_gs s; eigvec_gs := eigvec_gs s;
     E_es := E_es s; eigvec_es := eigvec_es s |}.
Definition set_H_es (a : ndarray) (s : SpinSystem) : SpinSystem :=
  {| params := params s; HHF_gs := HHF_gs s; HHF_es := HHF_es s;
     H_SHF_gs := H_SHF_gs s; H_SHF_es := H_SHF_es s;
     H_gs := H_gs s; H_es := a;
     E_gs := E_gs s; eigvec_gs := eigvec_gs s;
     E_es := E_es s; eigvec_es := eigvec_es s |}.
Definition set_E_gs (x : list C) (s : SpinSystem) : SpinSystem :=
  {| params := params s; HHF_gs := HHF_gs s; HHF_es := HHF_es s;
     H_SHF_gs := H_SHF_gs s; H_SHF_es := H_SHF_es s;
     H_gs := H_gs s; H_es := H_es s;
     E_gs := x; eigvec_gs := eigvec_gs s;
     E_es := E_es s; eigvec_es := eigvec_es s |}.
Definition set_eigvec_gs (x : ndarray) (s : SpinSystem) : SpinSystem :=
  {| params := params s; HHF_gs := HHF_gs s; HHF_es := HHF_es s;
     H_SHF_gs := H_SHF_gs s; H_SHF_es := H_SHF_es s;
     H_gs := H_gs s; H_es := H_es s;
     E_gs := E_gs s; eigvec_gs := x;
     E_es := E_es s; eigvec_es := eigvec_es s |}.
Definition set_E_es (x : list C) (s : SpinSystem) : SpinSystem :=
  {| params := params s; HHF_gs := HHF_gs s; HHF_es := HHF_es s;
     H_SHF_gs := H_SHF_gs s; H_SHF_es := H_SHF_es s;
     H_gs := H_gs s; H_es := H_es s;
     E_gs := E_gs s; eigvec_gs := eigvec_gs s;
     E_es := x; eigvec_es := eigvec_es s |}.
Definition set_eigvec_es (x : ndarray) (s : SpinSystem) : SpinSystem :=
  {| params := params s; HHF_gs := HHF_gs s; HHF_es := HHF_es s;
     H_SHF_gs := H_SHF_gs s; H_SHF_es := H_SHF_es s;
     H_gs := H_gs s; H_es := H_es s;
     E_gs := E_gs s; eigvec_gs := eigvec_gs s;
     E_es := E_es s; eigvec_es := x |}.

(** *** Methods: state passing with exceptions

    A method takes the object and gives back its outcome together with the
    object as the call leaves it, also when it raises. *)

Definition M (A : Type) : Type := SpinSystem -> result A * SpinSystem.

Definition mret {A} (a : A) : M A := fun s => (Ok a, s).
Definition mraise {A} (e : exn) : M A := fun s => (Raise e, s).
Definition mbind {A B} (m : M A) (k : A -> M B) : M B :=
  fun s =>
    match m s with
    | (Ok a, s') => k a s'
    | (Raise e, s') => (Raise e, s')
    end.
(** a computation that does not touch the object *)
Definition lift {A} (r : result A) : M A := fun s => (r, s).
(** reading an attribute *)
Definition attr {A} (f : SpinSystem -> A) : M A := fun s => (Ok (f s), s).
(** assigning attributes *)
Definition assign (f : SpinSystem -> SpinSystem) : M unit :=
  fun s => (Ok tt, f s).

Notation "x <~ m ;; k" := (mbind m (fun x => k))
  (at level 61, m at next level, right associativity).
Notation "' pat <~ m ;; k" :=
  (mbind m (fun x => match x with pat => k end))
  (at level 61, pat pattern, m at next level, right associativity).
Notation "m ;;; k" := (mbind m (fun _ => k))
  (at level 61, right associativity).

(** [for neigh in self.neighbours: x = np.kron(x, np.identity(neigh.multH))] *)
Definition expand_hosts (ns : list Neighbour) (x : ndarray) : ndarray :=
  fold_left (fun acc neigh => kron acc (identity (n_multH neigh))) ns x.

(** [enumerate(l)] *)
Definition enumerate {A} (l : list A) : list (nat * A) :=
  combine (seq 0 (length l)) l.

(** the inner loop over [enumerate(self.neighbours)] that puts [term] in the
    slot of neighbour [neigh_idx] and identities in the other slots *)
Definition expand_at (ns : list Neighbour) (neigh_idx : nat)
  (term : ndarray) (x : ndarray) : ndarray :=
  fold_left (fun acc (p : nat * Neighbour) =>
               let (inner_neigh_idx, inner_neigh) := p in
               if inner_neigh_idx =? neigh_idx then kron acc term
               else kron acc (identity (n_multH inner_neigh)))
            (enumerate ns) x.

(** *** [initialize_HHF] *)

(** [(A @ self.Sv3).reshape((3, self.multS, self.multS))] *)
Definition contract_S (p : Params) (A : ndarray) : result stack :=
  m <- matmul A (Sv3 p) ;;
  reshape3 (flatten m) (multS p) (multS p).

(** the ground-state term: [sum(self.S[i] @ self.HHF_gs[i] for i in range(3))],
    then expanded into the host spaces *)
Definition hyperfine_gs (p : Params) : result ndarray :=
  t <- contract_S p (of_mat33 (A_gs p)) ;;
  x <- py_sum (map (fun i => matmul (item (S_ p) i) (item t i)) [0; 1; 2]) ;;
  Ok (expand_hosts (neighbours p) x).

(** the excited-state term:
    [sum(np.kron(self.I[i], self.HHF_es[i]) for i in range(3))],
    then expanded into the host spaces *)
Definition hyperfine_es (p : Params) : result ndarray :=
  t <- contract_S p (of_mat33 (A_es p)) ;;
  x <- py_sum (map (fun i => Ok (kron (item (I_ p) i) (item t i))) [0; 1; 2]) ;;
  Ok (expand_hosts (neighbours p) x).

Definition initialize_HHF : M unit :=
  p <~ attr params ;;
  gs <~ lift (hyperfine_gs p) ;;
  assign (set_HHF_gs gs) ;;;
  es <~ lift (hyperfine_es p) ;;
  assign (set_HHF_es es).

(** *** [initialize_SHF] *)

(** [-(self.mu_b * g @ self.Sv3).reshape((3, self.multS, self.multS))] *)
Definition mu_REI (p : Params) (g : mat33) : result stack :=
  t <- contract_S p (scale (RtoC mu_b) (of_mat33 g)) ;;
  Ok (smap neg t).

Definition shf_acc : Type := (ndarray * ndarray * ndarray * ndarray)%type.

(** the body of [for neigh_idx, neigh in enumerate(self.neighbours)];
    the accumulator holds first_term_gs, first_term_es, second_term_gs and
    second_term_es *)
Definition shf_neighbour (p : Params) (mu_REI_gs mu_REI_es : stack)
  (mu_REI_gs_v3 mu_REI_es_v3 : ndarray) (ne : nat * Neighbour)
  (acc : shf_acc) : result shf_acc :=
  let (neigh_idx, neigh) := ne in
  let '(first_gs, first_es, second_gs, second_es) := acc in
  let mu_host := smap (scale (RtoC (mu_n * n_g_n_host neigh))) (n_H neigh) in
  mu_host_v3 <- reshape2 (flatten3 mu_host) 3 (n_multH neigh * n_multH neigh) ;;
  '(first_gs, first_es) <-
    for_each [0; 1; 2]
      (fun i (fs : ndarray * ndarray) =>
         let (fg, fe) := fs in
         let gs_term := kron (item mu_REI_gs i) (identity (multI p)) in
         let es_term := kron (item mu_REI_es i) (identity (multI p)) in
         let gs_term := expand_at (neighbours p) neigh_idx (item mu_host i) gs_term in
         let es_term := expand_at (neighbours p) neigh_idx (item mu_host i) es_term in
         fg <- np_iadd fg (divr gs_term (n_R neigh ^ 3)) ;;
         fe <- np_iadd fe (divr es_term (n_R neigh ^ 3)) ;;
         Ok (fg, fe))
      (first_gs, first_es) ;;
  dg <- matmul (n_disp_vector neigh) mu_REI_gs_v3 ;;
  dot_REI_gs <- reshape2 (flatten dg) (multS p) (multS p) ;;
  de <- matmul (n_disp_vector neigh) mu_REI_es_v3 ;;
  dot_REI_es <- reshape2 (flatten de) (multS p) (multS p) ;;
  dh <- matmul (n_disp_vector neigh) mu_host_v3 ;;
  dot_host <- reshape2 (flatten dh) (n_multH neigh) (n_multH neigh) ;;
  let dot_REI_gs := kron dot_REI_gs (identity (multI p)) in
  let dot_REI_es := kron dot_REI_es (identity (multI p)) in
  let dot_REI_gs := expand_at (neighbours p) neigh_idx dot_host dot_REI_gs in
  let dot_REI_es := expand_at (neighbours p) neigh_idx dot_host dot_REI_es in
  second_gs <- np_iadd second_gs (scale (RtoC (3 / n_R neigh ^ 5)) dot_REI_gs) ;;
  second_es <- np_iadd second_es (scale (RtoC (3 / n_R neigh ^ 5)) dot_REI_es) ;;
  Ok (first_gs, first_es, second_gs, second_es).

(** [10**-7 * (first - second) / (self.h * 10**9)] *)
Definition shf_total (first second : ndarray) : result ndarray :=
  d <- np_sub first second ;;
  Ok (divr (scale (RtoC (/ 10 ^ 7)) d) (h * 10 ^ 9)).

Definition superhyperfine (p : Params) : result (ndarray * ndarray) :=
  mu_REI_gs <- mu_REI p (g_gs p) ;;
  mu_REI_es <- mu_REI p (g_es p) ;;
  mu_REI_gs_v3 <- reshape2 (flatten3 mu_REI_gs) 3 (multS p * multS p) ;;
  mu_REI_es_v3 <- reshape2 (flatten3 mu_REI_es) 3 (multS p * multS p) ;;
  '(first_gs, first_es, second_gs, second_es) <-
    for_each (enumerate (neighbours p))
      (shf_neighbour p mu_REI_gs mu_REI_es mu_REI_gs_v3 mu_REI_es_v3)
      (Num C0, Num C0, Num C0, Num C0) ;;
  shf_gs <- shf_total first_gs second_gs ;;
  shf_es <- shf_total first_es second_es ;;
  Ok (shf_gs, shf_es).

Definition initialize_SHF : M unit :=
  p <~ attr params ;;
  '(shf_gs, shf_es) <~ lift (superhyperfine p) ;;
  assign (set_H_SHF_gs shf_gs) ;;;
  assign (set_H_SHF_es shf_es).

(** *** [reset_ham] *)

Definition reset_ham : M unit :=
  hhf <~ attr HHF_gs ;;
  shf <~ attr H_SHF_gs ;;
  hg <~ lift (np_add hhf shf) ;;
  assign (set_H_gs hg) ;;;
  hhf <~ attr HHF_es ;;
  shf <~ attr H_SHF_es ;;
  he <~ lift (np_add hhf shf) ;;
  assign (set_H_es he).

(** *** [update_zeeman_ham] *)

Definition B_vec_of (B B_theta B_phi : R) : ndarray :=
  scale (RtoC B)
    (Arr1 [RtoC (sin B_theta * cos B_phi);
           RtoC (sin B_theta * sin B_phi);
           RtoC (cos B_theta)]).

(** the electronic Zeeman term of one manifold *)
Definition zeeman_el (p : Params) (g : mat33) (B_vec : ndarray)
  : result ndarray :=
  a <- matmul (scale (RtoC beta_el) B_vec) (of_mat33 g) ;;
  b <- matmul a (Sv3 p) ;;
  reshape2 (flatten b) (multS p) (multS p).

(** the Zeeman term of the ion nucleus *)
Definition zeeman_n_rei (p : Params) (B_vec : ndarray) : result ndarray :=
  a <- matmul (scale (RtoC (beta_n * g_n_rei p)) B_vec) (Iv3 p) ;;
  reshape2 (flatten a) (multI p) (multI p).

(** the body of the loop that accumulates the host nuclear Zeeman term *)
Definition zeeman_host (p : Params) (B_vec : ndarray) (ne : nat * Neighbour)
  (HZ_n_host : ndarray) : result ndarray :=
  let (neigh_idx, neigh) := ne in
  let HZ_n_host_accum := kron (identity (multS p)) (identity (multI p)) in
  a <- matmul (scale (RtoC (beta_n * n_g_n_host neigh)) B_vec) (n_Hv3 neigh) ;;
  HZ_n_host_term <- reshape2 (flatten a) (n_multH neigh) (n_multH neigh) ;;
  let HZ_n_host_accum :=
    expand_at (neighbours p) neigh_idx HZ_n_host_term HZ_n_host_accum in
  np_iadd HZ_n_host HZ_n_host_accum.

(** the three Zeeman terms, computed before the Hamiltonian is touched:
    (HZ_el_gs, HZ_el_es, HZ_n_rei, HZ_n_host) *)
Definition zeeman_terms (p : Params) (B B_theta B_phi : R)
  : result (ndarray * ndarray * ndarray * ndarray) :=
  let B_vec := B_vec_of B B_theta B_phi in
  HZ_el_gs <- zeeman_el p (g_gs p) B_vec ;;
  HZ_el_es <- zeeman_el p (g_es p) B_vec ;;
  let HZ_el_gs := kron HZ_el_gs (identity (multI p)) in
  let HZ_el_es := kron HZ_el_es (identity (multI p)) in
  let HZ_el_gs := expand_hosts (neighbours p) HZ_el_gs in
  let HZ_el_es := expand_hosts (neighbours p) HZ_el_es in
  HZ_n_rei <- zeeman_n_rei p B_vec ;;
  let HZ_n_rei := kron (identity (multS p)) HZ_n_rei in
  let HZ_n_rei := expand_hosts (neighbours p) HZ_n_rei in
  HZ_n_host <- for_each (enumerate (neighbours p)) (zeeman_host p B_vec)
                 (Num C0) ;;
  Ok (HZ_el_gs, HZ_el_es, HZ_n_rei, HZ_n_host).

(** [HZ_el - HZ_n_rei - HZ_n_host] *)
Definition zeeman_sum (HZ_el HZ_n_rei HZ_n_host : ndarray) : result ndarray :=
  d <- np_sub HZ_el HZ_n_rei ;;
  np_sub d HZ_n_host.

Definition update_zeeman_ham (B B_theta B_phi : R) : M unit :=
  p <~ attr params ;;
  '(HZ_el_gs, HZ_el_es, HZ_n_rei, HZ_n_host) <~
     lift (zeeman_terms p B B_theta B_phi) ;;
  reset_ham ;;;
  hg <~ attr H_gs ;;
  z <~ lift (zeeman_sum HZ_el_gs HZ_n_rei HZ_n_host) ;;
  hg <~ lift (np_iadd hg z) ;;
  assign (set_H_gs hg) ;;;
  he <~ attr H_es ;;
  z <~ lift (zeeman_sum HZ_el_es HZ_n_rei HZ_n_host) ;;
  he <~ lift (np_iadd he z) ;;
  assign (set_H_es he).

(** *** The diagonalizer: [np.linalg.eig], [sorted] and [np.argsort] are
    library routines, taken as an interface *)

Class Diagonalizer : Type := {
  eig : ndarray -> result (list C * ndarray);
  sorted : list C -> list C;
  argsort : list C -> list nat
}.

Section Queries.
Context {diag : Diagonalizer}.

Definition calc_energies : M unit :=
  hg <~ attr H_gs ;;
  '(eigval_gs, eigvec) <~ lift (eig hg) ;;
  assign (set_E_gs (sorted eigval_gs)) ;;;
  vg <~ lift (take_columns eigvec (argsort eigval_gs)) ;;
  assign (set_eigvec_gs vg) ;;;
  he <~ attr H_es ;;
  '(eigval_es, eigvec) <~ lift (eig he) ;;
  assign (set_E_es (sorted eigval_es)) ;;;
  ve <~ lift (take_columns eigvec (argsort eigval_es)) ;;
  assign (set_eigvec_es ve).

Definition update_B (B B_theta B_phi : R) : M unit :=
  update_zeeman_ham B B_theta B_phi ;;;
  calc_energies.

(** [if B is not None and B_theta is not None and B_phi is not None:
       self.update_B(B, B_theta, B_phi)] *)
Definition update_if_given (B B_theta B_phi : option R) : M unit :=
  match B, B_theta, B_phi with
  | Some b, Some t, Some f => update_B b t f
  | _, _, _ => mret tt
  end.

Definition energies (state : string) (B B_theta B_phi : option R)
  : M (list C) :=
  update_if_given B B_theta B_phi ;;;
  if String.eqb state "gs" then attr E_gs
  else if String.eqb state "es" then attr E_es
  else mraise Exception.

(** [range(a, b)] *)
Definition py_range (a b : nat) : list nat := seq a (b - a).

(** [l[i]] and [l[-k]] on a Python list *)
Definition py_item (l : list C) (i : nat) : result C :=
  match nth_error l i with
  | Some x => Ok x
  | None => Raise IndexError
  end.
Definition py_item_neg (l : list C) (k : nat) : result C :=
  if k <=? length l then py_item l (length l - k) else Raise IndexError.

Definition transition : Type := (C * (nat * nat * nat))%type.

(** the two nested loops of [spin_transitions] for one manifold: the outer
    one runs over [range(outer)], the inner one over
    [range(i+1, len(E))]; the indices read from [E] are below [len(E)] *)
Definition pair_transitions (outer : nat) (E : list C) : list transition :=
  flat_map (fun i =>
              map (fun j => ((get1 E j - get1 E i)%C, (1, 1, 1)))
                  (py_range (i + 1) (length E)))
           (seq 0 outer).

Definition spin_transitions (B B_theta B_phi : option R)
  : M (list (list transition)) :=
  update_if_given B B_theta B_phi ;;;
  Eg <~ attr E_gs ;;
  Ee <~ attr E_es ;;
  let gs_transitions := pair_transitions (length Ee) Eg in
  let es_transitions := pair_transitions (length Ee) Ee in
  mret [gs_transitions; es_transitions].

(** [transition_strength] *)
Definition transition_strength (p : Params) (initial final : ndarray)
  : result stack :=
  let big k :=
    expand_hosts (neighbours p)
      (scale (RtoC 2) (kron (item (S_ p) k) (identity (multI p)))) in
  let strength k :=
    a <- matmul (conjugate final) (big k) ;;
    b <- matmul a initial ;;
    Ok (abs2 b) in
  fx <- strength 0 ;;
  fy <- strength 1 ;;
  fz <- strength 2 ;;
  Ok (fx, fy, fz).

Definition optical : Type := (C * option stack * (nat * nat))%type.

Definition optical_transitions (B B_theta B_phi : option R)
  (compute_strengths : bool) : M (list optical) :=
  update_if_given B B_theta B_phi ;;;
  self <~ attr (fun s => s) ;;
  lift (for_each (list_prod (enumerate (E_gs self)) (enumerate (E_es self)))
          (fun (ge : (nat * C) * (nat * C)) (transitions : list optical) =>
             let '((idx_g, e_g), (idx_e, e_e)) := ge in
             if compute_strengths then
               vg <- column (eigvec_gs self) idx_g ;;
               ve <- column (eigvec_es self) idx_e ;;
               f <- transition_strength (params self) vg ve ;;
               Ok (transitions ++ [((e_e - e_g)%C, Some f, (idx_g, idx_e))])
             else
               Ok (transitions ++ [((e_e - e_g)%C, None, (idx_g, idx_e))]))
          []).

Definition shf_levels : Type := (C * C * C * C * C * C)%type.

Definition superhyperfine_levels (state : string) (B B_theta B_phi : option R)
  : M shf_levels :=
  update_if_given B B_theta B_phi ;;;
  e <~ energies state B B_theta B_phi ;;
  low <~ lift (py_item e 0) ;;
  e <~ energies state B B_theta B_phi ;;
  up <~ lift (py_item e 1) ;;
  let avg := Cdivr (low + up) 2 in
  let lower := ((low - avg) * RtoC (10 ^ 6))%C in
  let upper := ((up - avg) * RtoC (10 ^ 6))%C in
  let diff := ((up - low) * RtoC (10 ^ 6))%C in
  e <~ energies state B B_theta B_phi ;;
  low2 <~ lift (py_item_neg e 2) ;;
  e <~ energies state B B_theta B_phi ;;
  up2 <~ lift (py_item_neg e 1) ;;
  let avg2 := Cdivr (low2 + up2) 2 in
  let lower2 := ((low2 - avg2) * RtoC (10 ^ 6))%C in
  let upper2 := ((up2 - avg2) * RtoC (10 ^ 6))%C in
  let diff2 := ((up2 - low2) * RtoC (10 ^ 6))%C in
  mret (lower, upper, diff, lower2, upper2, diff2).

(** [self.multH]: [SpinSystem.__init__] assigns no such attribute (only
    [Neighbour] has one) and the class defines none, so reading it raises *)
Definition self_multH : M nat := mraise AttributeError.

Definition contrast : Type :=
  (ndarray * ndarray * ndarray * ndarray * ndarray * ndarray * ndarray)%type.

Definition branching_contrast (B B_theta B_phi : option R)
  (stated_levels : option (nat * nat * nat)) : M contrast :=
  update_if_given B B_theta B_phi ;;;
  p <~ attr params ;;
  let inner := kron (item (S_ p) 0) (identity (multI p)) in
  mH <~ self_multH ;;
  let bigSx := scale (RtoC 2) (kron inner (identity mH)) in
  (* bigSy and bigSz are built the same way and never used *)
  vg <~ attr eigvec_gs ;;
  ve <~ attr eigvec_es ;;
  let '(i, j, k) := match stated_levels with
                    | None => (0, 1, 0)
                    | Some ijk => ijk
                    end in
  gs_lower <~ lift (column vg i) ;;
  gs_upper <~ lift (column vg j) ;;
  es_lower <~ lift (column ve k) ;;
  r_23_S_x <~ lift (a <- matmul (conjugate gs_upper) bigSx ;;
                    b <- matmul a es_lower ;; Ok (abs2 b)) ;;
  r_13_S_x <~ lift (a <- matmul (conjugate gs_lower) bigSx ;;
                    b <- matmul a es_lower ;; Ok (abs2 b)) ;;
  RS_x <~ lift (np_div r_23_S_x r_13_S_x) ;;
  rho_S_x <~ lift (d <- np_add (Num C1) RS_x ;;
                   d2 <- np_mul d d ;;
                   np_div (scale (RtoC 4) RS_x) d2) ;;
  mret (r_23_S_x, r_13_S_x, RS_x, rho_S_x, gs_lower, gs_upper, es_lower).

(** *** [SpinSystem.__init__] *)

(** an attribute that has not been assigned yet *)
Definition unset : ndarray := Num C0.

Fixpoint map_result {A B} (f : A -> result B) (l : list A) : result (list B) :=
  match l with
  | [] => Ok []
  | a :: l' => b <- f a ;; bs <- map_result f l' ;; Ok (b :: bs)
  end.

Definition new_Params (spinS spinI : nat) (g_gs g_es A_gs A_es : mat33)
  (g_n_rei : R) (neighbours_list : list neighbour_input) : result Params :=
  let multS := spinS + 1 in
  let multI := spinI + 1 in
  S <- generate_spin_matrices spinS ;;
  Sv3 <- reshape2 (flatten3 S) 3 (multS * multS) ;;
  I <- generate_spin_matrices spinI ;;
  Iv3 <- reshape2 (flatten3 I) 3 (multI * multI) ;;
  ns <- map_result new_Neighbour neighbours_list ;;
  Ok {| spinS := spinS; spinI := spinI;
        g_gs := g_gs; g_es := g_es; g_n_rei := g_n_rei;
        A_gs := A_gs; A_es := A_es;
        multS := multS; multI := multI;
        S_ := S; Sv3 := Sv3; I_ := I; Iv3 := Iv3;
        neighbours_input := neighbours_list;
        neighbours := ns;
        neighbours_string := String.concat "" (map n_element ns) |}.

(** the object as [__init__] has it before [initialize_HHF] *)
Definition blank (p : Params) : SpinSystem :=
  {| params := p;
     HHF_gs := unset; HHF_es := unset; H_SHF_gs := unset; H_SHF_es := unset;
     H_gs := unset; H_es := unset;
     E_gs := []; eigvec_gs := unset; E_es := []; eigvec_es := unset |}.

(** the part of [__init__] that assembles the field-independent
    Hamiltonians *)
Definition assemble : M unit :=
  initialize_HHF ;;; initialize_SHF ;;; reset_ham.

Definition new_SpinSystem (spinS spinI : nat) (g_gs g_es A_gs A_es : mat33)
  (g_n_rei : R) (neighbours_list : list neighbour_input) : result SpinSystem :=
  p <- new_Params spinS spinI g_gs g_es A_gs A_es g_n_rei neighbours_list ;;
  match (assemble ;;; calc_energies) (blank p) with
  | (Ok _, self) => Ok self
  | (Raise e, _) => Raise e
  end.
End Queries.

(** *** [SpinSystem.unit_vector] *)

Definition unit_vector (theta phi : R) : ndarray :=
  Arr1 [RtoC (sin theta * cos phi);
        RtoC (sin theta * sin phi);
        RtoC (cos theta)].

(** ** [rot] *)

(** [a.T]: on rank 1 and rank 0 the transpose does nothing *)
Definition transpose (a : ndarray) : ndarray :=
  match a with
  | Arr2 m => Arr2 (tab2 (ncols m) (length m) (fun i j => get2 m j i))
  | _ => a
  end.

(** [np.diag(v)] on a list *)
Definition np_diag (v : list C) : ndarray :=
  Arr2 (tab2 (length v) (length v)
          (fun i j => if i =? j then get1 v i else C0)).

Definition rot (a b c : R) : result ndarray :=
  let A := Arr2 [[RtoC (cos a); RtoC (- sin a); RtoC 0];
                 [RtoC (sin a); RtoC (cos a); RtoC 0];
                 [RtoC 0; RtoC 0; RtoC 1]] in
  let B := Arr2 [[RtoC (cos b); RtoC 0; RtoC (sin b)];
                 [RtoC 0; RtoC 1; RtoC 0];
                 [RtoC (- sin b); RtoC 0; RtoC (cos b)]] in
  let C := Arr2 [[RtoC (cos c); RtoC (- sin c); RtoC 0];
                 [RtoC (sin c); RtoC (cos c); RtoC 0];
                 [RtoC 0; RtoC 0; RtoC 1]] in
  ab <- matmul A B ;;
  matmul ab C.

(** * Definitions used to state the properties *)

(** ** Closed form of the spin matrices *)

Definition sz_entry (spin : R) (r c : nat) : C :=
  if r =? c then RtoC (spin - INR r) else C0.
Definition sx_entry (spin : R) (r c : nat) : C :=
  if c =? r + 1 then sx_val spin (spin - INR r) (spin - INR (r + 1))
  else if r =? c + 1 then sx_val spin (spin - INR r) (spin - INR (r - 1))
  else C0.
Definition sy_entry (spin : R) (r c : nat) : C :=
  if c =? r + 1 then sy_up_val spin (spin - INR r) (spin - INR (r + 1))
  else if r =? c + 1 then sy_down_val spin (spin - INR r) (spin - INR (r - 1))
  else C0.

(** the three arrays once the rows below [k] have been written *)
Definition rows_done (spin : R) (dim k : nat) : mats :=
  (tab2 dim dim (fun r c => if r <? k then sx_entry spin r c else C0),
   tab2 dim dim (fun r c => if r <? k then sy_entry spin r c else C0),
   tab2 dim dim (fun r c => if r <? k then sz_entry spin r c else C0)).

(** the spin matrices of a spin above 0, as arrays of closed-form entries *)
Definition spin_x (two_s : nat) : ndarray :=
  Arr2 (tab2 (two_s + 1) (two_s + 1) (sx_entry (spin_of two_s))).
Definition spin_y (two_s : nat) : ndarray :=
  Arr2 (tab2 (two_s + 1) (two_s + 1) (sy_entry (spin_of two_s))).
Definition spin_z (two_s : nat) : ndarray :=
  Arr2 (tab2 (two_s + 1) (two_s + 1) (sz_entry (spin_of two_s))).


(** the ladder coefficient between the basis states [i] and [i + 1] *)
Definition ladder (spin : R) (i : nat) : R :=
  sqrt (spin * (spin + 1) - (spin - INR i) * (spin - INR (i + 1))).

(** numpy's comparison of two arrays after broadcasting, with tolerance 0:
    the difference exists and all its entries are 0 *)
Definition all_zero (a : ndarray) : Prop :=
  Forall (fun z => z = C0) (flatten a).
Definition np_equal (a b : ndarray) : Prop :=
  exists d, np_sub a b = Ok d /\ all_zero d.

(** [a @ b - b @ a] *)
Definition commutator (a b : ndarray) : result ndarray :=
  x <- matmul a b ;;
  y <- matmul b a ;;
  np_sub x y.

(** ** Running the program on a configuration *)

(** the object after the Hamiltonian-assembling part of [__init__] *)
Definition assembled (spinS spinI : nat) (g_gs g_es A_gs A_es : mat33)
  (g_n_rei : R) (neighbours_list : list neighbour_input) : result SpinSystem :=
  p <- new_Params spinS spinI g_gs g_es A_gs A_es g_n_rei neighbours_list ;;
  match assemble (blank p) with
  | (Ok _, self) => Ok self
  | (Raise e, _) => Raise e
  end.

(** what one reads off a result *)
Definition observe {A B} (r : result A) (f : A -> B) : result B :=
  a <- r ;; Ok (f a).

(** the entry [a[i, j]] of an array of rank 2 *)
Definition entry (a : ndarray) (i j : nat) : C :=
  match a with
  | Arr2 m => get2 m i j
  | _ => C0
  end.

(** whether all three field arguments of a query are given *)
Definition field_given (B B_theta B_phi : option R) : bool :=
  match B, B_theta, B_phi with
  | Some _, Some _, Some _ => true
  | _, _, _ => false
  end.

(** the excited-state hyperfine term in the slot order of the specification:
    electron factor first, ion-nucleus operator second *)
Definition hyperfine_es_spec (p : Params) : result ndarray :=
  t <- contract_S p (of_mat33 (A_es p)) ;;
  x <- py_sum (map (fun i => Ok (kron (item t i) (item (I_ p) i))) [0; 1; 2]) ;;
  Ok (expand_hosts (neighbours p) x).

(** [H] equals its conjugate transpose *)
Definition hermitian (a : ndarray) : Prop := conj_transpose a = a.


(** ** Sample configurations *)

Definition zero33 : mat33 := ((0, 0, 0), (0, 0, 0), (0, 0, 0))%R.
(** an isotropic g tensor diag(2, 2, 2) *)
Definition g_iso : mat33 := ((2, 0, 0), (0, 2, 0), (0, 0, 2))%R.
(** a tensor with the single entry A[2][2] = 1 *)
Definition A_zz : mat33 := ((0, 0, 0), (0, 0, 0), (0, 0, 1))%R.
(** the vanadium neighbour of [yb171_neighbours_list] *)
Definition vanadium : neighbour_input :=
  ((0, 0, - 3.14465)%R, 7, 1.4711%R, "V"%string).

(** a diagonalizer that reads the diagonal of a square matrix; it is exact
    on diagonal Hamiltonians and serves as a concrete instance *)
Definition diagonal_reader : Diagonalizer :=
  {| eig := fun a =>
       match a with
       | Arr2 m =>
           if length m =? ncols m then
             Ok (tab1 (length m) (fun i => get2 m i i), identity (length m))
           else Raise LinAlgError
       | _ => Raise LinAlgError
       end;
     sorted := fun l => l;
     argsort := fun l => seq 0 (length l) |}.

(** the value of [new_Params 0 0 zero33 zero33 zero33 zero33 0 []] *)
Definition trivial_params : Params :=
  {| spinS := 0; spinI := 0;
     g_gs := zero33; g_es := zero33; g_n_rei := 0;
     A_gs := zero33; A_es := zero33;
     multS := 1; multI := 1;
     S_ := (Arr1 [C0], Arr1 [C0], Arr1 [C0]);
     Sv3 := Arr2 (tab2 3 1 (fun i j => get1 [C0; C0; C0] (i * 1 + j)));
     I_ := (Arr1 [C0], Arr1 [C0], Arr1 [C0]);
     Iv3 := Arr2 (tab2 3 1 (fun i j => get1 [C0; C0; C0] (i * 1 + j)));
     neighbours_input := [];
     neighbours := [];
     neighbours_string := ""%string |}.

Definition system_of (r : result SpinSystem) : SpinSystem :=
  match r with
  | Ok s => s
  | Raise _ => blank trivial_params
  end.

(** electron spin 1/2, no nuclear spin, no neighbours, isotropic g *)
Definition half_spin_system : SpinSystem :=
  system_of (@new_SpinSystem diagonal_reader 1 0 g_iso g_iso zero33 zero33 0 []).


(** ** Arrays in normal form *)

(** an [r] by [c] array given by its entries *)
Definition mat (r c : nat) (f : nat -> nat -> C) : ndarray := Arr2 (tab2 r c f).

(** an array as numpy broadcasts it against arrays of rank 2: a number is
    1 by 1, an array of rank 1 is a single row *)
Definition sem2 (a : ndarray) : list (list C) :=
  match a with
  | Num z => [[z]]
  | Arr1 v => [v]
  | Arr2 m => m
  end.

(** the entries of a Kronecker product *)
Definition kron_fun (r' c' : nat) (f g : nat -> nat -> C) : nat -> nat -> C :=
  fun i j => (f (i / r') (j / c') * g (i mod r') (j mod c'))%C.

(** the entries of a broadcast elementwise operation *)
Definition bin_fun (h : C -> C -> C) (r c r' c' : nat)
  (f g : nat -> nat -> C) : nat -> nat -> C :=
  fun i j => h (f (bidx r i) (bidx c j)) (g (bidx r' i) (bidx c' j)).

Definition id_fun : nat -> nat -> C := fun i j => if i =? j then C1 else C0.

(** ** The generated operators as entry functions *)

(** the entries of the k-th operator (x, y, z) of spin [n / 2] *)
Definition spin_fun (n k : nat) : nat -> nat -> C :=
  match k with
  | 0 => sx_entry (spin_of n)
  | 1 => sy_entry (spin_of n)
  | _ => sz_entry (spin_of n)
  end.

(** the value of [generate_spin_matrices n] *)
Definition spin_ops (n : nat) : stack :=
  if n =? 0 then (Arr1 [C0], Arr1 [C0], Arr1 [C0])
  else (spin_x n, spin_y n, spin_z n).

(** the value of [np.array([x, y, z]).reshape((3, (n+1)**2))] on them *)
Definition v3_of (n : nat) : ndarray :=
  mat 3 ((n + 1) * (n + 1))
    (fun k t => spin_fun n k (t / (n + 1)) (t mod (n + 1))).

(** a combination of the three operators with coefficients [coef] *)
Definition lin_fun (n : nat) (coef : nat -> C) : nat -> nat -> C :=
  fun r c => Csum 3 (fun k => coef k * spin_fun n k r c)%C.

(** ** A family of square matrices closed under the assembling operations *)

(** a real number, as a complex one *)
Definition creal (z : C) : Prop := Cconj z = z.

(** [a], read as a matrix, is [n] by [n] with entries in the family [Q] *)
Definition Qa (Q : nat -> (nat -> nat -> C) -> Prop) (n : nat) (a : ndarray)
  : Prop :=
  0 < n /\ exists f, sem2 a = tab2 n n f /\ Q n f.

Record closed (Q : nat -> (nat -> nat -> C) -> Prop) : Prop := {
  q_ext : forall n f g,
    (forall i j, i < n -> j < n -> f i j = g i j) -> Q n f -> Q n g;
  q_id : forall n, Q n id_fun;
  q_kron : forall n m f g,
    0 < n -> 0 < m -> Q n f -> Q m g -> Q (n * m) (kron_fun m m f g);
  q_add : forall n m r f g,
    bdim n m = Some r -> Q n f -> Q m g -> Q r (bin_fun Cadd n n m m f g);
  q_sub : forall n m r f g,
    bdim n m = Some r -> Q n f -> Q m g -> Q r (bin_fun Csub n n m m f g);
  q_scale : forall x n f, Q n f -> Q n (fun i j => RtoC x * f i j)%C;
  q_divr : forall x n f, Q n f -> Q n (fun i j => Cdivr (f i j) x);
  q_neg : forall n f, Q n f -> Q n (fun i j => - f i j)%C;
  q_lin : forall n coef,
    (forall k, k < 3 -> creal (coef k)) -> Q (n + 1) (lin_fun n coef)
}.

(** the dimension after [expand_hosts] and [expand_at] *)
Definition expand_dim (ns : list Neighbour) (n : nat) : nat :=
  fold_left (fun d neigh => d * n_multH neigh) ns n.

(** a real vector with three components *)
Definition real_vec3 (a : ndarray) : Prop :=
  exists u, a = Arr1 u /\ length u = 3 /\ forall k, creal (get1 u k).

(** a neighbour as [Neighbour.__init__] builds it *)
Definition wf_neighbour (ne : Neighbour) : Prop :=
  n_multH ne = n_spinH ne + 1 /\
  n_H ne = spin_ops (n_spinH ne) /\
  n_Hv3 ne = v3_of (n_spinH ne) /\
  real_vec3 (n_disp_vector ne).

(** the parameters as [SpinSystem.__init__] stores them *)
Definition wf_params (p : Params) : Prop :=
  multS p = spinS p + 1 /\
  multI p = spinI p + 1 /\
  S_ p = spin_ops (spinS p) /\
  Sv3 p = v3_of (spinS p) /\
  I_ p = spin_ops (spinI p) /\
  Iv3 p = v3_of (spinI p) /\
  Forall wf_neighbour (neighbours p).

(** the entries of [sum(self.S[i] @ (A S)[i] for i in range(3))] for the
    tensor with rows [A], at spin [n / 2] *)
Definition gs_fun (n : nat) (A : list (list C)) : nat -> nat -> C :=
  fun r c =>
    (C0 + Csum (n + 1) (fun k => spin_fun n 0 r k * lin_fun n (get2 A 0) k c)
        + Csum (n + 1) (fun k => spin_fun n 1 r k * lin_fun n (get2 A 1) k c)
        + Csum (n + 1) (fun k => spin_fun n 2 r k * lin_fun n (get2 A 2) k c))%C.

(** the rows of a real 3x3 tensor *)
Definition rows33 (g : mat33) : list (list C) :=
  [of_vec3 (fst (fst g)); of_vec3 (snd (fst g)); of_vec3 (snd g)].

(** a stack whose three items are in the family *)
Definition Qstk (Q : nat -> (nat -> nat -> C) -> Prop) (n : nat) (s : stack)
  : Prop :=
  forall k, k < 3 -> Qa Q n (item s k).

(** an accumulator that starts as the number 0 and becomes a [D] by [D]
    matrix of the family *)
Definition Qa1 (Q : nat -> (nat -> nat -> C) -> Prop) (D : nat) (a : ndarray)
  : Prop :=
  Qa Q 1 a \/ Qa Q D a.

(** the dimension of the composite space *)
Definition composite_dim (p : Params) : nat :=
  expand_dim (neighbours p) ((spinS p + 1) * (spinI p + 1)).

(** what is known of a stacked and reshaped array: contracting it with a
    real vector gives a member of the family *)
Definition dot_ok (Q : nat -> (nat -> nat -> C) -> Prop) (n : nat)
  (v3 : ndarray) : Prop :=
  forall coef,
    length coef = 3 -> (forall k, creal (get1 coef k)) ->
    exists a, (x <- matmul (Arr1 coef) v3 ;; reshape2 (flatten x) n n) = Ok a /\
              Qa Q n a.

(** ** What the assembler maintains on the object *)

(** the excited-state terms are [D] by [D] matrices of the family *)
Definition excited_inv (Q : nat -> (nat -> nat -> C) -> Prop)
  (st : SpinSystem) : Prop :=
  Qa Q (composite_dim (params st)) (HHF_es st) /\
  Qa1 Q (composite_dim (params st)) (H_SHF_es st) /\
  Qa Q (composite_dim (params st)) (H_es st).

(** the ground-state terms are square matrices of the family, of a
    dimension that does not exceed [D] *)
Definition ground_inv (Q : nat -> (nat -> nat -> C) -> Prop)
  (st : SpinSystem) : Prop :=
  Qa Q (expand_dim (neighbours (params st)) (spinS (params st) + 1))
    (HHF_gs st) /\
  Qa1 Q (composite_dim (params st)) (H_SHF_gs st) /\
  exists n, n <= composite_dim (params st) /\ Qa Q n (H_gs st).

(** the Hermitian entry functions *)
Definition herm_on (n : nat) (f : nat -> nat -> C) : Prop :=
  forall i j, i < n -> j < n -> f j i = Cconj (f i j).

(** the family of all square matrices *)
Definition any_on (n : nat) (f : nat -> nat -> C) : Prop := True.

(** the object after a sequence of field updates (B, B_theta, B_phi) *)
Definition after_updates (fields : list (R * R * R)) (st : SpinSystem)
  : SpinSystem :=
  fold_left (fun s (b : R * R * R) =>
               snd (update_zeeman_ham (fst (fst b)) (snd (fst b)) (snd b) s))
            fields st.

(** ** Transitions within a manifold *)

(** the pairs (i, j) with i < j < n, in the order of two nested loops *)
Definition index_pairs (n : nat) : list (nat * nat) :=
  flat_map (fun i => map (pair i) (seq (i + 1) (n - (i + 1)))) (seq 0 n).

(** the entry of a pair: energy [E[j] - E[i]] and the strength (1, 1, 1) *)
Definition transition_of (E : list C) (ij : nat * nat) : transition :=
  ((get1 E (snd ij) - get1 E (fst ij))%C, (1, 1, 1)).

(** the transitions of the manifold with spectrum [E] *)
Definition manifold_transitions (E : list C) : list transition :=
  map (transition_of E) (index_pairs (length E)).

(** what is used of [np.linalg.eig] and [sorted]: [eig] returns only on a
    square array of rank 2, with as many eigenvalues as rows, and [sorted]
    keeps the length *)
Definition diag_ok (diag : Diagonalizer) : Prop :=
  (forall a w v, eig a = Ok (w, v) ->
     exists n, shape a = [n; n] /\ length w = n) /\
  (forall l, length (sorted l) = length l).

(** the calls that change the object; each query changes it through
    [update_if_given] only *)
Inductive call : Type :=
  | call_initialize_HHF
  | call_initialize_SHF
  | call_reset_ham
  | call_update_zeeman_ham (B B_theta B_phi : R)
  | call_update_B (B B_theta B_phi : R)
  | call_calc_energies
  | call_query (B B_theta B_phi : option R).

Definition run_call {diag : Diagonalizer} (c : call) : M unit :=
  match c with
  | call_initialize_HHF => initialize_HHF
  | call_initialize_SHF => initialize_SHF
  | call_reset_ham => reset_ham
  | call_update_zeeman_ham B t f => update_zeeman_ham B t f
  | call_update_B B t f => update_B B t f
  | call_calc_energies => calc_energies
  | call_query B t f => update_if_given B t f
  end.

(** the object after a sequence of calls, whether they return or raise *)
Definition after_calls {diag : Diagonalizer} (cs : list call)
  (st : SpinSystem) : SpinSystem :=
  fold_left (fun s c => snd (run_call c s)) cs st.

(** the shapes of the Hamiltonians and the lengths of the spectra *)
Definition state_inv (st : SpinSystem) : Prop :=
  wf_params (params st) /\
  excited_inv any_on st /\ ground_inv any_on st /\
  length (E_es st) = composite_dim (params st) /\
  length (E_gs st) <= composite_dim (params st).

(** ** Shapes used for the field updates *)

(** an array of rank 2 *)
Definition rank2 (a : ndarray) : Prop :=
  match a with
  | Arr2 _ => True
  | _ => False
  end.

(** an array, as opposed to a Python number *)
Definition is_arr (a : ndarray) : Prop :=
  match a with
  | Num _ => False
  | _ => True
  end.

(** an array whose rows are laid out from its shape *)
Definition normal (a : ndarray) : Prop :=
  match a with
  | Arr2 m => tab2 (length m) (ncols m) (get2 m) = m
  | _ => True
  end.


(** ** Optical transitions and doublets *)

(** the entry of the pair of levels (g, e) when no strength is computed *)
Definition optical_entry (Eg Ee : list C) (ge : nat * nat) : optical :=
  ((get1 Ee (snd ge) - get1 Eg (fst ge))%C, None, ge).

(** the entries of all pairs, the ground index varying slowest *)
Definition optical_list (Eg Ee : list C) : list optical :=
  map (optical_entry Eg Ee)
      (list_prod (seq 0 (length Eg)) (seq 0 (length Ee))).

(** the spectrum that a manifold selector names *)
Definition manifold (state : string) (st : SpinSystem) : option (list C) :=
  if String.eqb state "gs" then Some (E_gs st)
  else if String.eqb state "es" then Some (E_es st)
  else None.

(** the gap of a doublet in kHz and its two levels about their mean *)
Definition doublet (low up : C) : C * C * C :=
  let diff := ((up - low) * RtoC (10 ^ 6))%C in
  (Copp (Cdivr diff 2), Cdivr diff 2, diff).

(** ** Transition strengths *)

(** [final.conjugate() @ M @ initial] for the matrix with entries [f] *)
Definition overlap (D : nat) (f : nat -> nat -> C) (initial final : list C)
  : C :=
  Csum D (fun j =>
    Csum D (fun k => Cconj (get1 final k) * f k j) * get1 initial j)%C.

(** the operator [2 * S_k] of [transition_strength], expanded into the
    composite space *)
Definition big_S (p : Params) (k : nat) : ndarray :=
  expand_hosts (neighbours p)
    (scale (RtoC 2) (kron (item (S_ p) k) (identity (multI p)))).

(** ** The cache and the dimension of a constructed object *)

(** the product of the multiplicities of the electron spin, the nuclear
    spin and the neighbours of [neighbours_list] *)
Definition total_dim (spinS spinI : nat) (nl : list neighbour_input) : nat :=
  fold_left (fun d (inp : neighbour_input) => d * (snd (fst (fst inp)) + 1))
            nl ((spinS + 1) * (spinI + 1)).

(** the cached terms are the ones computed from the parameters [p] *)
Definition coherent (p : Params) (st : SpinSystem) : Prop :=
  params st = p /\
  hyperfine_gs p = Ok (HHF_gs st) /\
  hyperfine_es p = Ok (HHF_es st) /\
  superhyperfine p = Ok (H_SHF_gs st, H_SHF_es st).
Lemma C_eq (a b : C) : fst a = fst b -> snd a = snd b -> a = b.
Proof. destruct a, b; simpl; intros; subst; reflexivity. Qed.

(** closes an equation between complex numbers that holds by ring
    reasoning on the real and imaginary parts *)
Ltac cring :=
  apply C_eq;
  unfold Cadd, Csub, Cmul, Copp, Cconj, Cdivr, C0, C1, Ci, RtoC; simpl;
  try ring; try lra.

Lemma Cadd_comm (a b : C) : (a + b = b + a)%C. Proof. cring. Qed.
Lemma Cadd_assoc (a b c : C) : (a + (b + c) = a + b + c)%C. Proof. cring. Qed.
Lemma Cadd_0_r (a : C) : (a + C0 = a)%C. Proof. cring. Qed.
Lemma Cmul_1_l (a : C) : (C1 * a = a)%C. Proof. cring. Qed.
Lemma Cmul_1_r (a : C) : (a * C1 = a)%C. Proof. cring. Qed.
Lemma Cmul_assoc (a b c : C) : (a * (b * c) = a * b * c)%C. Proof. cring. Qed.
Lemma Cmul_add_distr_l (a b c : C) : (a * (b + c) = a * b + a * c)%C.
Proof. cring. Qed.
Lemma Cmul_add_distr_r (a b c : C) : ((a + b) * c = a * c + b * c)%C.
Proof. cring. Qed.
Lemma Csub_diag (a : C) : (a - a = C0)%C. Proof. cring. Qed.
Lemma Cconj_add (a b : C) : Cconj (a + b) = (Cconj a + Cconj b)%C.
Proof. cring. Qed.
Lemma Cconj_sub (a b : C) : Cconj (a - b) = (Cconj a - Cconj b)%C.
Proof. cring. Qed.
Lemma Cconj_mul (a b : C) : Cconj (a * b) = (Cconj a * Cconj b)%C.
Proof. cring. Qed.
Lemma Cconj_opp (a : C) : Cconj (- a) = (- Cconj a)%C.
Proof. cring. Qed.
Lemma Cconj_RtoC (x : R) : Cconj (RtoC x) = RtoC x.
Proof. cring. Qed.
Lemma Cconj_invol (a : C) : Cconj (Cconj a) = a.
Proof. cring. Qed.
Lemma Cconj_0 : Cconj C0 = C0. Proof. cring. Qed.
Lemma Cconj_1 : Cconj C1 = C1. Proof. cring. Qed.

Lemma length_tab1 n f : length (tab1 n f) = n.
Proof. unfold tab1. now rewrite length_map, length_seq. Qed.

Lemma get1_tab1 n f i : i < n -> get1 (tab1 n f) i = f i.
Proof.
  intros Hi. unfold get1, tab1.
  rewrite (nth_indep _ C0 (f 0)) by now rewrite length_map, length_seq.
  rewrite map_nth, seq_nth; auto.
Qed.

Lemma tab1_ext n f g : (forall i, i < n -> f i = g i) -> tab1 n f = tab1 n g.
Proof.
  intros H. unfold tab1. apply map_ext_in. intros i Hi.
  apply in_seq in Hi. apply H. lia.
Qed.

Lemma tab1_get1 v : tab1 (length v) (get1 v) = v.
Proof.
  apply (nth_ext _ _ C0 C0).
  - apply length_tab1.
  - intros i Hi. rewrite length_tab1 in Hi.
    change (get1 (tab1 (length v) (get1 v)) i = get1 v i).
    now apply get1_tab1.
Qed.

Lemma length_tab2 r c f : length (tab2 r c f) = r.
Proof. unfold tab2. now rewrite length_map, length_seq. Qed.

Lemma nth_tab2 r c f i : i < r -> nth i (tab2 r c f) [] = tab1 c (f i).
Proof.
  intros Hi. unfold tab2.
  rewrite (nth_indep _ [] (tab1 c (f 0))) by now rewrite length_map, length_seq.
  rewrite (map_nth (fun i => tab1 c (f i))), seq_nth; auto.
Qed.

Lemma get2_tab2 r c f i j : i < r -> j < c -> get2 (tab2 r c f) i j = f i j.
Proof.
  intros Hi Hj. unfold get2. rewrite nth_tab2 by assumption.
  now apply get1_tab1.
Qed.

Lemma tab2_ext r c f g :
  (forall i j, i < r -> j < c -> f i j = g i j) -> tab2 r c f = tab2 r c g.
Proof.
  intros H. unfold tab2. apply map_ext_in. intros i Hi.
  apply in_seq in Hi. apply tab1_ext. intros j Hj. apply H; lia.
Qed.

Lemma rect_tab2 r c f : rect r c (tab2 r c f).
Proof.
  split. - apply length_tab2.
  - unfold tab2. apply Forall_map, Forall_forall. intros i _. apply length_tab1.
Qed.

Lemma ncols_tab2 r c f : 0 < r -> ncols (tab2 r c f) = c.
Proof.
  intros Hr. unfold ncols. destruct r; [lia|].
  unfold tab2. simpl. apply length_tab1.
Qed.

Lemma rect_nth r c m i : rect r c m -> i < r -> length (nth i m []) = c.
Proof.
  intros [Hl Hf] Hi. rewrite Forall_forall in Hf. apply Hf, nth_In. lia.
Qed.

Lemma rect_tab2_get2 r c m : rect r c m -> tab2 r c (get2 m) = m.
Proof.
  intros Hm. apply (nth_ext _ _ [] []).
  - rewrite length_tab2. symmetry. apply Hm.
  - intros i Hi. rewrite length_tab2 in Hi. rewrite nth_tab2 by assumption.
    rewrite <- (rect_nth Hm Hi) at 1. unfold get2. apply tab1_get1.
Qed.

Lemma rect_ncols r c m : rect r c m -> 0 < r -> ncols m = c.
Proof.
  intros Hm Hr. rewrite <- (rect_tab2_get2 Hm). now apply ncols_tab2.
Qed.

(** ** Case analysis on natural-number tests *)

Ltac nat_tests :=
  repeat match goal with
  | |- context [?a =? ?b] => destruct (Nat.eqb_spec a b)
  | |- context [?a <? ?b] => destruct (Nat.ltb_spec a b)
  | |- context [?a <=? ?b] => destruct (Nat.leb_spec a b)
  end; simpl; try lia; try reflexivity.

(** ** List update *)

Lemma length_upd {A} i (x : A) l : length (upd i x l) = length l.
Proof.
  revert i; induction l as [|a l IH]; intros [|i]; simpl; auto.
Qed.

Lemma nth_upd {A} i (x : A) l k d :
  i < length l -> nth k (upd i x l) d = if k =? i then x else nth k l d.
Proof.
  revert i k; induction l as [|a l IH]; intros i k Hi; simpl in Hi; [lia|].
  destruct i as [|i], k as [|k]; simpl; auto.
  rewrite IH by lia. reflexivity.
Qed.

Lemma setitem2_tab2 r c f i j v :
  i < r -> j < c ->
  setitem2 (tab2 r c f) i j v =
  Ok (tab2 r c (fun a b => if (a =? i) && (b =? j) then v else f a b)).
Proof.
  intros Hi Hj. unfold setitem2.
  rewrite length_tab2, nth_tab2, length_tab1 by assumption.
  destruct (Nat.ltb_spec i r); [|lia]. destruct (Nat.ltb_spec j c); [|lia].
  simpl. f_equal.
  apply (nth_ext _ _ [] []).
  - now rewrite length_upd, !length_tab2.
  - intros a Ha. rewrite length_upd, length_tab2 in Ha.
    rewrite nth_upd by now rewrite length_tab2.
    rewrite !nth_tab2 by assumption.
    destruct (Nat.eqb_spec a i) as [->|Hne].
    + apply (nth_ext _ _ C0 C0).
      * now rewrite length_upd, !length_tab1.
      * intros b Hb. rewrite length_upd, length_tab1 in Hb.
        rewrite nth_upd by now rewrite length_tab1.
        change (nth b (tab1 c ?g) C0) with (get1 (tab1 c g) b).
        rewrite !get1_tab1 by assumption.
        now destruct (b =? j).
    + apply tab1_ext. intros b Hb. reflexivity.
Qed.

(** ** Closed form of the spin matrices *)

Lemma getR_arange spin n k :
  k < n -> getR (arange_desc spin n) k = Ok (spin - INR k)%R.
Proof.
  intros Hk. unfold getR, arange_desc.
  rewrite nth_error_map, nth_error_seq.
  destruct (Nat.ltb_spec k n); [|lia]. reflexivity.
Qed.

Lemma mats_eq (a b c a' b' c' : list (list C)) :
  a = a' -> b = b' -> c = c' -> @Ok mats (a, b, c) = Ok (a', b', c').
Proof. intros; subst; reflexivity. Qed.

Lemma spin_row_step spin dim k :
  2 <= dim -> k < dim ->
  spin_row spin dim (arange_desc spin dim) k (rows_done spin dim k) =
  Ok (rows_done spin dim (S k)).
Proof.
  intros Hd Hk. unfold spin_row, rows_done.
  rewrite (getR_arange spin Hk). cbn [rbind].
  rewrite setitem2_tab2 by lia. cbn [rbind].
  assert (Hz : tab2 dim dim (fun a b => if (a =? k) && (b =? k) then RtoC (spin - INR k)
                  else if a <? k then sz_entry spin a b else C0) =
               tab2 dim dim (fun r c => if r <? S k then sz_entry spin r c else C0)).
  { apply tab2_ext. intros i j _ _. unfold sz_entry.
    nat_tests; subst; try lia; try reflexivity. }
  rewrite Hz. clear Hz.
  destruct (Nat.eqb_spec k 0) as [->|Hk0];
    [|destruct (Nat.eqb_spec k (dim - 1)) as [Hl|Hl]];
    repeat (first [rewrite getR_arange by lia | rewrite setitem2_tab2 by lia];
            cbn [rbind]);
    apply mats_eq; try reflexivity;
    apply tab2_ext; intros i j Hi Hj; unfold sx_entry, sy_entry;
    nat_tests; subst; try lia; try reflexivity.
Qed.

Lemma spin_rows_loop spin dim m k :
  2 <= dim -> k + m = dim ->
  for_each (seq k m) (spin_row spin dim (arange_desc spin dim))
    (rows_done spin dim k) = Ok (rows_done spin dim dim).
Proof.
  intros Hd. revert k. induction m as [|m IH]; intros k Hk; cbn [seq for_each].
  - replace k with dim by lia. reflexivity.
  - rewrite spin_row_step by lia. cbn [rbind]. apply IH. lia.
Qed.

Lemma generate_spin_matrices_pos two_s :
  0 < two_s ->
  generate_spin_matrices two_s = Ok (spin_x two_s, spin_y two_s, spin_z two_s).
Proof.
  intros Hs. unfold generate_spin_matrices.
  destruct (Nat.eqb_spec two_s 0); [lia|].
  assert (H0 : (zeros (two_s + 1) (two_s + 1), zeros (two_s + 1) (two_s + 1),
                zeros (two_s + 1) (two_s + 1)) =
               rows_done (spin_of two_s) (two_s + 1) 0).
  { unfold rows_done, zeros. reflexivity. }
  rewrite H0, spin_rows_loop by lia. unfold rows_done. cbn [rbind].
  assert (E : forall g, tab2 (two_s + 1) (two_s + 1)
                (fun r c => if r <? two_s + 1 then g r c else C0) =
              tab2 (two_s + 1) (two_s + 1) g).
  { intros g. apply tab2_ext. intros i j Hi _.
    destruct (Nat.ltb_spec i (two_s + 1)); [reflexivity|lia]. }
  rewrite !E. reflexivity.
Qed.

(** ** Finite sums *)

Lemma Csum_ext n f g : (forall k, k < n -> f k = g k) -> Csum n f = Csum n g.
Proof.
  induction n as [|n IH]; intros H; simpl; [reflexivity|].
  rewrite IH, H by (intros; auto). reflexivity.
Qed.

Lemma Csum_zero n f : (forall k, k < n -> f k = C0) -> Csum n f = C0.
Proof.
  induction n as [|n IH]; intros H; simpl; [reflexivity|].
  rewrite IH, H by (intros; auto). cring.
Qed.

(** a sum whose terms vanish away from one index *)
Lemma Csum_support1 n f a :
  (forall k, k < n -> k <> a -> f k = C0) ->
  Csum n f = if a <? n then f a else C0.
Proof.
  induction n as [|n IH]; intros H; simpl Csum; [reflexivity|].
  rewrite IH by (intros; apply H; lia).
  destruct (Nat.ltb_spec a n), (Nat.ltb_spec a (S n)); try lia.
  - rewrite (H n) by lia. cring.
  - replace n with a by lia. cring.
  - rewrite (H n) by lia. cring.
Qed.

(** a sum whose terms vanish away from two indices *)
Lemma Csum_support2 n f a b :
  a <> b ->
  (forall k, k < n -> k <> a -> k <> b -> f k = C0) ->
  Csum n f = ((if a <? n then f a else C0) + (if b <? n then f b else C0))%C.
Proof.
  intros Hab. induction n as [|n IH]; intros H; simpl Csum; [cring|].
  rewrite IH by (intros; apply H; lia).
  destruct (Nat.ltb_spec a n), (Nat.ltb_spec a (S n)),
           (Nat.ltb_spec b n), (Nat.ltb_spec b (S n)); try lia;
    try (replace n with a by lia; cring);
    try (replace n with b by lia; cring);
    rewrite (H n) by lia; cring.
Qed.

Lemma Csum_add n f g :
  Csum n (fun k => f k + g k)%C = (Csum n f + Csum n g)%C.
Proof. induction n as [|n IH]; simpl; [cring|]. rewrite IH. cring. Qed.

Lemma Csum_mul_l n c f :
  Csum n (fun k => c * f k)%C = (c * Csum n f)%C.
Proof. induction n as [|n IH]; simpl; [cring|]. rewrite IH. cring. Qed.

Lemma Csum_conj n f : Cconj (Csum n f) = Csum n (fun k => Cconj (f k)).
Proof. induction n as [|n IH]; simpl; [cring|]. rewrite Cconj_add, IH. reflexivity. Qed.

(** ** Shapes and entries of the array operations *)

Lemma binop2_tab2 (f : C -> C -> C) r c fa fb :
  binop2 f (tab2 r c fa) (tab2 r c fb) =
  Ok (Arr2 (tab2 r c (fun i j => f (fa i j) (fb i j)))).
Proof.
  unfold binop2. rewrite !length_tab2.
  destruct r as [|r'].
  - reflexivity.
  - set (r := S r'). rewrite !ncols_tab2 by (unfold r; lia).
    unfold bdim. rewrite !Nat.eqb_refl. do 2 f_equal.
    apply tab2_ext. intros i j Hi Hj.
    assert (Hbi : bidx r i < r /\ (bidx r i = i)).
    { unfold bidx. destruct (Nat.eqb_spec r 1); lia. }
    assert (Hbj : bidx c j < c /\ (bidx c j = j)).
    { unfold bidx. destruct (Nat.eqb_spec c 1); lia. }
    destruct Hbi as [? ->], Hbj as [? ->].
    rewrite !get2_tab2 by assumption. reflexivity.
Qed.

Lemma matmul_tab2 r k c fa fb :
  0 < r -> 0 < k ->
  matmul (Arr2 (tab2 r k fa)) (Arr2 (tab2 k c fb)) =
  Ok (Arr2 (tab2 r c (fun i j => Csum k (fun t => fa i t * fb t j)%C))).
Proof.
  intros Hr Hk. unfold matmul.
  rewrite !length_tab2, !ncols_tab2, Nat.eqb_refl by assumption.
  do 2 f_equal. apply tab2_ext. intros i j Hi Hj.
  apply Csum_ext. intros t Ht. rewrite !get2_tab2 by assumption. reflexivity.
Qed.

(** ** The spin matrices in terms of the ladder coefficients *)

Lemma sx_entry_ladder s r c :
  sx_entry s r c =
  if c =? r + 1 then RtoC (1 / 2 * ladder s r)
  else if r =? c + 1 then RtoC (1 / 2 * ladder s c)
  else C0.
Proof.
  unfold sx_entry, sx_val, ladder.
  destruct (Nat.eqb_spec c (r + 1)); [reflexivity|].
  destruct (Nat.eqb_spec r (c + 1)); [|reflexivity].
  subst r. replace (c + 1 - 1) with c by lia.
  do 3 f_equal. ring.
Qed.

Lemma sy_entry_ladder s r c :
  sy_entry s r c =
  if c =? r + 1 then (0, - (1 / 2 * ladder s r))%R
  else if r =? c + 1 then (0, 1 / 2 * ladder s c)%R
  else C0.
Proof.
  unfold sy_entry, sy_up_val, sy_down_val, ladder.
  destruct (Nat.eqb_spec c (r + 1)); [cring|].
  destruct (Nat.eqb_spec r (c + 1)); [|reflexivity].
  subst r. replace (c + 1 - 1) with c by lia.
  replace ((s - INR (c + 1)) * (s - INR c))%R
    with ((s - INR c) * (s - INR (c + 1)))%R by ring.
  cring.
Qed.

Lemma ladder_sq n i :
  i < n ->
  (ladder (spin_of n) i * ladder (spin_of n) i =
   (INR i + 1) * (INR n - INR i))%R.
Proof.
  intros Hi. unfold ladder. rewrite sqrt_sqrt.
  - unfold spin_of. rewrite plus_INR. simpl INR. field.
  - unfold spin_of. rewrite plus_INR. simpl INR.
    apply lt_INR in Hi. pose proof (pos_INR i). nra.
Qed.
Lemma sx_entry_far s i k : k <> i + 1 -> i <> k + 1 -> sx_entry s i k = C0.
Proof. intros. rewrite sx_entry_ladder. nat_tests. Qed.
Lemma sy_entry_far s i k : k <> i + 1 -> i <> k + 1 -> sy_entry s i k = C0.
Proof. intros. rewrite sy_entry_ladder. nat_tests. Qed.

Ltac finish_ladder n :=
  repeat match goal with
  | |- context [?k - 1 + 1] => replace (k - 1 + 1) with k by lia
  end;
  try match goal with
  | H : ?k <> ?k - 1 + 1 |- _ => assert (k = 0) by lia; subst k
  end;
  try match goal with
  | i : nat, H : ?i < n + 1, H' : n + 1 <= ?i + 1 |- _ =>
      assert (i = n) by lia; subst i
  end;
  repeat match goal with
  | |- context [ladder (spin_of n) ?k] =>
      let H := fresh "HL" in
      let L := fresh "L" in
      pose proof (@ladder_sq n k ltac:(lia)) as H;
      set (L := ladder (spin_of n) k) in *; clearbody L
  end;
  repeat match goal with
  | H : context [INR (?k - 1)] |- _ =>
      rewrite (minus_INR k 1) in H by lia; simpl INR in H
  end;
  change (INR 0) with 0%R in *;
  apply C_eq;
  unfold Cadd, Csub, Cmul, Copp, Cconj, Cdivr, C0, C1, Ci, RtoC, spin_of;
  simpl; nra.

Lemma comm_xy_entry n i j :
  0 < n -> i < n + 1 -> j < n + 1 ->
  (Csum (n + 1) (fun k => sx_entry (spin_of n) i k * sy_entry (spin_of n) k j) -
   Csum (n + 1) (fun k => sy_entry (spin_of n) i k * sx_entry (spin_of n) k j) =
   Ci * sz_entry (spin_of n) i j)%C.
Proof.
  intros Hn Hi Hj.
  rewrite (@Csum_support2 _ _ (i + 1) (i - 1)); [|lia|].
  2:{ intros k Hk H1 H2. rewrite sx_entry_far by lia. cring. }
  rewrite (@Csum_support2 _ _ (i + 1) (i - 1)); [|lia|].
  2:{ intros k Hk H1 H2. rewrite sy_entry_far by lia. cring. }
  rewrite !sx_entry_ladder, !sy_entry_ladder. unfold sz_entry.
  nat_tests; subst; try (cring; fail); finish_ladder n.
Qed.

Lemma sz_entry_far s i k : k <> i -> sz_entry s k i = C0 /\ sz_entry s i k = C0.
Proof. intros. unfold sz_entry. split; nat_tests. Qed.

Ltac finish_diag :=
  rewrite ?plus_INR; change (INR 1) with 1%R; cring.

Lemma comm_yz_entry n i j :
  i < n + 1 -> j < n + 1 ->
  (Csum (n + 1) (fun k => sy_entry (spin_of n) i k * sz_entry (spin_of n) k j) -
   Csum (n + 1) (fun k => sz_entry (spin_of n) i k * sy_entry (spin_of n) k j) =
   Ci * sx_entry (spin_of n) i j)%C.
Proof.
  intros Hi Hj.
  rewrite (@Csum_support1 _ _ j).
  2:{ intros k Hk H1. rewrite (proj1 (sz_entry_far (spin_of n) H1)). cring. }
  rewrite (@Csum_support1 _ _ i).
  2:{ intros k Hk H1. rewrite (proj2 (sz_entry_far (spin_of n) H1)). cring. }
  rewrite !sx_entry_ladder, !sy_entry_ladder. unfold sz_entry.
  nat_tests; subst; finish_diag.
Qed.

Lemma comm_zx_entry n i j :
  i < n + 1 -> j < n + 1 ->
  (Csum (n + 1) (fun k => sz_entry (spin_of n) i k * sx_entry (spin_of n) k j) -
   Csum (n + 1) (fun k => sx_entry (spin_of n) i k * sz_entry (spin_of n) k j) =
   Ci * sy_entry (spin_of n) i j)%C.
Proof.
  intros Hi Hj.
  rewrite (@Csum_support1 _ _ i).
  2:{ intros k Hk H1. rewrite (proj2 (sz_entry_far (spin_of n) H1)). cring. }
  rewrite (@Csum_support1 _ _ j).
  2:{ intros k Hk H1. rewrite (proj1 (sz_entry_far (spin_of n) H1)). cring. }
  rewrite !sx_entry_ladder, !sy_entry_ladder. unfold sz_entry.
  nat_tests; subst; finish_diag.
Qed.

Lemma amap_tab2 h r c f :
  amap h (Arr2 (tab2 r c f)) = Arr2 (tab2 r c (fun i j => h (f i j))).
Proof.
  unfold amap. rewrite length_tab2. destruct r as [|r'].
  - reflexivity.
  - rewrite ncols_tab2 by lia. f_equal. apply tab2_ext. intros i j Hi Hj.
    now rewrite get2_tab2.
Qed.

Lemma scale_tab2 z r c f :
  scale z (Arr2 (tab2 r c f)) = Arr2 (tab2 r c (fun i j => z * f i j)%C).
Proof. apply amap_tab2. Qed.

(** for a spin above 0 the commutators are the arrays [1j * S] exactly *)
Lemma commutators_pos n :
  0 < n ->
  commutator (spin_x n) (spin_y n) = Ok (scale Ci (spin_z n)) /\
  commutator (spin_y n) (spin_z n) = Ok (scale Ci (spin_x n)) /\
  commutator (spin_z n) (spin_x n) = Ok (scale Ci (spin_y n)).
Proof.
  intros Hn. unfold commutator, spin_x, spin_y, spin_z.
  rewrite !matmul_tab2 by lia. cbn [rbind]. unfold np_sub, binop.
  rewrite !binop2_tab2, !scale_tab2.
  repeat split; do 2 f_equal; apply tab2_ext; intros i j Hi Hj.
  - now apply comm_xy_entry.
  - now apply comm_yz_entry.
  - now apply comm_zx_entry.
Qed.
Lemma all_zero_tab2 r c f :
  (forall i j, i < r -> j < c -> f i j = C0) -> all_zero (Arr2 (tab2 r c f)).
Proof.
  intros H. unfold all_zero, flatten. apply Forall_concat.
  unfold tab2. apply Forall_map, Forall_forall. intros i Hi.
  apply in_seq in Hi. unfold tab1. apply Forall_map, Forall_forall.
  intros j Hj. apply in_seq in Hj. apply H; lia.
Qed.

Lemma np_equal_tab2 r c f : np_equal (Arr2 (tab2 r c f)) (Arr2 (tab2 r c f)).
Proof.
  exists (Arr2 (tab2 r c (fun i j => f i j - f i j)%C)). split.
  - unfold np_sub, binop. apply binop2_tab2.
  - apply all_zero_tab2. intros. cring.
Qed.

(** C7: for every half-integer spin [two_s / 2] the three generated
    operators satisfy [Sx Sy - Sy Sx = i Sz] and its two cyclic
    permutations.  The commutators are compared with [1j * S] the way numpy
    compares arrays; for a spin above 0 the two sides are the same array. *)
Theorem spin_commutation_relations (two_s : nat) :
  exists sx sy sz cxy cyz czx,
    generate_spin_matrices two_s = Ok (sx, sy, sz) /\
    commutator sx sy = Ok cxy /\ np_equal cxy (scale Ci sz) /\
    commutator sy sz = Ok cyz /\ np_equal cyz (scale Ci sx) /\
    commutator sz sx = Ok czx /\ np_equal czx (scale Ci sy) /\
    (two_s = 0 \/
     (cxy = scale Ci sz /\ cyz = scale Ci sx /\ czx = scale Ci sy)).
Proof.
  destruct (Nat.eq_dec two_s 0) as [->|Hpos].
  - exists (Arr1 [C0]), (Arr1 [C0]), (Arr1 [C0]).
    exists (Num ((C0 + C0 * C0) - (C0 + C0 * C0))%C).
    exists (Num ((C0 + C0 * C0) - (C0 + C0 * C0))%C).
    exists (Num ((C0 + C0 * C0) - (C0 + C0 * C0))%C).
    assert (Heq : np_equal (Num ((C0 + C0 * C0) - (C0 + C0 * C0))%C)
                    (scale Ci (Arr1 [C0]))).
    { eexists. split; [reflexivity|]. repeat constructor. cring. }
    repeat split; try reflexivity; try exact Heq. now left.
  - destruct (@commutators_pos two_s) as (Hxy & Hyz & Hzx); [lia|].
    exists (spin_x two_s), (spin_y two_s), (spin_z two_s).
    exists (scale Ci (spin_z two_s)), (scale Ci (spin_x two_s)),
           (scale Ci (spin_y two_s)).
    assert (Hrefl : forall a, np_equal (scale Ci (Arr2 (tab2 (two_s + 1) (two_s + 1) a)))
                                       (scale Ci (Arr2 (tab2 (two_s + 1) (two_s + 1) a)))).
    { intros a. rewrite scale_tab2. apply np_equal_tab2. }
    repeat split; auto; try apply Hrefl;
      solve [apply generate_spin_matrices_pos; lia | now right].
Qed.

(** ** Concrete runs *)

Ltac eval_arrays :=
  lazy -[Rplus Rminus Rmult Rdiv Rinv Ropp sqrt IZR INR pow sin cos].
Ltac eval_arrays_in H :=
  lazy -[Rplus Rminus Rmult Rdiv Rinv Ropp sqrt IZR INR pow sin cos] in H.

Lemma trivial_params_built :
  new_Params 0 0 zero33 zero33 zero33 zero33 0 [] = Ok trivial_params.
Proof. reflexivity. Qed.

Lemma half_spin_system_built :
  @new_SpinSystem diagonal_reader 1 0 g_iso g_iso zero33 zero33 0 [] =
  Ok half_spin_system.
Proof. eval_arrays. reflexivity. Qed.

(** C8: at spin 0 the generator returns three arrays of rank 1 and
    length 1 holding 0 (the value of [np.array((0,))]); they are not
    1 by 1 matrices. *)
Theorem spin0_generator_rank1 :
  generate_spin_matrices 0 = Ok (Arr1 [C0], Arr1 [C0], Arr1 [C0]) /\
  shape (Arr1 [C0]) = [1] /\
  shape (Arr2 [[C0]]) = [1; 1] /\
  Arr1 [C0] <> Arr2 [[C0]].
Proof. repeat split; try reflexivity. discriminate. Qed.

(** a consequence: with electron spin 0 and no neighbours the ground
    Hamiltonian is an array of rank 1, which [np.linalg.eig] refuses *)
Lemma spin0_ground_hamiltonian_rank1 (g_gs g_es A_gs A_es : mat33) (g_n : R) :
  observe (assembled 0 0 g_gs g_es A_gs A_es g_n [])
    (fun st => (shape (H_gs st), shape (H_es st))) = Ok ([1], [1; 1]).
Proof. eval_arrays. reflexivity. Qed.

(** C1: with electron spin 1/2, nuclear spin 1/2 and no neighbours
    (D = 4) the assembled ground Hamiltonian is 2 by 2 while the excited one
    is 4 by 4, and every Zeeman update then fails on the shapes; with the
    vanadium neighbour of the source's own parameter list the constructor
    itself fails on the shapes. *)
Theorem ground_hamiltonian_lacks_nuclear_factor
  (g_gs g_es A_gs A_es : mat33) (g_n B B_theta B_phi : R) :
  observe (assembled 1 1 g_gs g_es A_gs A_es g_n [])
    (fun st => (shape (H_gs st), shape (H_es st))) = Ok ([2; 2], [4; 4]) /\
  observe (assembled 1 1 g_gs g_es A_gs A_es g_n [])
    (fun st => fst (update_zeeman_ham B B_theta B_phi st)) =
    Ok (Raise ValueError) /\
  observe (assembled 1 1 g_gs g_es A_gs A_es g_n [vanadium])
    (fun st => tt) = Raise ValueError.
Proof. repeat split; eval_arrays; reflexivity. Qed.

(** C2: for electron spin 1/2, nuclear spin 1 and the hyperfine tensor
    with the single entry A[2][2] = 1, the excited-state hyperfine term of
    the program, [sum(kron(I[i], (A S)[i]))], differs from the term in the
    slot order of the specification, [sum(kron((A S)[i], I[i]))]. *)
Theorem hyperfine_es_slot_order :
  exists a b,
    (p <- new_Params 1 2 zero33 zero33 zero33 A_zz 0 [] ;;
     x <- hyperfine_es p ;;
     y <- hyperfine_es_spec p ;;
     Ok (x, y)) = Ok (a, b) /\
    entry a 1 1 <> entry b 1 1.
Proof.
  eexists. eexists. split.
  - eval_arrays. reflexivity.
  - intros H. apply (f_equal fst) in H. eval_arrays_in H. simpl in H. lra.
Qed.

(** C5: [branching_contrast] never returns: after the optional field
    update it reads [self.multH], which a [SpinSystem] does not have. *)
Theorem branching_contrast_raises {diag : Diagonalizer}
  (B B_theta B_phi : option R) (stated_levels : option (nat * nat * nat))
  (st : SpinSystem) :
  (exists e, fst (branching_contrast B B_theta B_phi stated_levels st) = Raise e) /\
  branching_contrast None None None stated_levels st = (Raise AttributeError, st) /\
  @branching_contrast diagonal_reader None None None None half_spin_system =
    (Raise AttributeError, half_spin_system).
Proof.
  split; [|split; reflexivity].
  unfold branching_contrast, mbind.
  destruct (update_if_given B B_theta B_phi st) as [[[]|e] st'].
  - exists AttributeError. reflexivity.
  - exists e. reflexivity.
Qed.

(** ** Queries and the optional field update *)

Lemma update_if_given_skip {diag : Diagonalizer} B B_theta B_phi :
  field_given B B_theta B_phi = false ->
  update_if_given B B_theta B_phi = mret tt.
Proof.
  destruct B, B_theta, B_phi; simpl; intros H; try discriminate; reflexivity.
Qed.

Lemma update_if_given_all {diag : Diagonalizer} b t f :
  update_if_given (Some b) (Some t) (Some f) = update_B b t f.
Proof. reflexivity. Qed.

Lemma string_eqb_neq (s t : string) : s <> t -> String.eqb s t = false.
Proof. intros H. now apply String.eqb_neq. Qed.

(** what [energies] does once the optional update is over *)
Lemma energies_after_update {diag : Diagonalizer} state B B_theta B_phi st :
  energies state B B_theta B_phi st =
  match update_if_given B B_theta B_phi st with
  | (Ok _, st') =>
      (if String.eqb state "gs" then Ok (E_gs st')
       else if String.eqb state "es" then Ok (E_es st')
       else Raise Exception, st')
  | (Raise e, st') => (Raise e, st')
  end.
Proof.
  unfold energies, mbind.
  destruct (update_if_given B B_theta B_phi st) as [[[]|e] st']; [|reflexivity].
  destruct (String.eqb state "gs"); [reflexivity|].
  destruct (String.eqb state "es"); reflexivity.
Qed.



(** the state a method leaves when it only reads the object *)
Lemma snd_attr {A} (f : SpinSystem -> A) st : snd (attr f st) = st.
Proof. reflexivity. Qed.

Lemma superhyperfine_levels_frame {diag : Diagonalizer} state B B_theta B_phi st :
  field_given B B_theta B_phi = false ->
  snd (superhyperfine_levels state B B_theta B_phi st) = st.
Proof.
  intros Hf. unfold superhyperfine_levels.
  rewrite (update_if_given_skip _ _ _ Hf).
  unfold mbind at 1. unfold mret at 1.
  assert (Hen : forall s, energies state B B_theta B_phi s =
                          (fst (energies state B B_theta B_phi s), s)).
  { intros s. rewrite energies_after_update, (update_if_given_skip _ _ _ Hf).
    reflexivity. }
  unfold mbind, lift, mret.
  repeat (rewrite Hen;
          match goal with
          | |- context [fst (energies ?a ?b ?c ?d ?s)] =>
              destruct (fst (energies a b c d s)); [|reflexivity]
          end;
          match goal with
          | |- context [py_item ?l ?i] => destruct (py_item l i); [|reflexivity]
          | |- context [py_item_neg ?l ?i] =>
              destruct (py_item_neg l i); [|reflexivity]
          end).
  reflexivity.
Qed.



(** when all three are given, the query starts with [update_B] *)
Lemma queries_update_when_all_given {diag : Diagonalizer} b t f :
  (forall state,
     energies state (Some b) (Some t) (Some f) =
     (update_B b t f ;;; energies state None None None)) /\
  spin_transitions (Some b) (Some t) (Some f) =
    (update_B b t f ;;; spin_transitions None None None) /\
  (forall cs,
     optical_transitions (Some b) (Some t) (Some f) cs =
     (update_B b t f ;;; optical_transitions None None None cs)) /\
  (forall lv,
     branching_contrast (Some b) (Some t) (Some f) lv =
     (update_B b t f ;;; branching_contrast None None None lv)).
Proof. repeat split. Qed.



(** ** Arrays in normal form: evaluation of the array operations *)

Lemma identity_mat n : identity n = mat n n id_fun.
Proof. reflexivity. Qed.

Lemma amap_mat h r c f : amap h (mat r c f) = mat r c (fun i j => h (f i j)).
Proof. apply amap_tab2. Qed.

Lemma mat_ext r c f g :
  (forall i j, i < r -> j < c -> f i j = g i j) -> mat r c f = mat r c g.
Proof. intros H. unfold mat. f_equal. now apply tab2_ext. Qed.

Lemma kron2_tab2 r c f r' c' g :
  0 < r -> 0 < r' ->
  kron2 (tab2 r c f) (tab2 r' c' g) =
  tab2 (r * r') (c * c') (kron_fun r' c' f g).
Proof.
  intros Hr Hr'. unfold kron2.
  rewrite !length_tab2, !ncols_tab2 by assumption.
  apply tab2_ext. intros i j Hi Hj. unfold kron_fun.
  assert (Hc' : 0 < c') by (destruct c'; [lia|lia]).
  rewrite !get2_tab2; auto.
  - apply Nat.mod_upper_bound. lia.
  - apply Nat.mod_upper_bound. lia.
  - apply Nat.Div0.div_lt_upper_bound. lia.
  - apply Nat.Div0.div_lt_upper_bound. lia.
Qed.

Lemma kron_mat r c f r' c' g :
  0 < r -> 0 < r' ->
  kron (mat r c f) (mat r' c' g) = mat (r * r') (c * c') (kron_fun r' c' f g).
Proof. intros. unfold kron, mat. f_equal. now apply kron2_tab2. Qed.

Lemma bdim_bidx n m r i :
  bdim n m = Some r -> i < r ->
  bidx n i < n /\ bidx m i < m /\
  (n = r \/ n = 1) /\ (m = r \/ m = 1).
Proof.
  unfold bdim, bidx. intros H Hi.
  destruct (Nat.eqb_spec n m).
  - inversion H; subst. destruct (Nat.eqb_spec r 1); lia.
  - destruct (Nat.eqb_spec n 1).
    + inversion H; subst. destruct (Nat.eqb_spec r 1); lia.
    + destruct (Nat.eqb_spec m 1); [|discriminate].
      inversion H; subst. lia.
Qed.

Lemma binop2_tab2_gen (h : C -> C -> C) r c f r' c' g :
  0 < r -> 0 < r' ->
  binop2 h (tab2 r c f) (tab2 r' c' g) =
  match bdim r r', bdim c c' with
  | Some R, Some Cc => Ok (mat R Cc (bin_fun h r c r' c' f g))
  | _, _ => Raise ValueError
  end.
Proof.
  intros Hr Hr'. unfold binop2.
  rewrite !length_tab2, !ncols_tab2 by assumption.
  destruct (bdim r r') as [R|] eqn:ER; [|reflexivity].
  destruct (bdim c c') as [Cc|] eqn:EC; [|reflexivity].
  unfold mat. do 2 f_equal. apply tab2_ext. intros i j Hi Hj.
  destruct (bdim_bidx _ _ ER Hi) as (? & ? & _).
  destruct (bdim_bidx _ _ EC Hj) as (? & ? & _).
  unfold bin_fun. now rewrite !get2_tab2.
Qed.

(** *** Flattening and reshaping *)

Lemma length_concat_rect r c (m : list (list C)) :
  rect r c m -> length (concat m) = r * c.
Proof.
  intros [Hl Hf]. subst r. induction m as [|row m IH]; simpl; [reflexivity|].
  inversion Hf; subst. rewrite length_app, IH by assumption. reflexivity.
Qed.

Lemma get1_concat_rect r c (m : list (list C)) i j :
  rect r c m -> i < r -> j < c -> get1 (concat m) (i * c + j) = get2 m i j.
Proof.
  intros [Hl Hf]. subst r. revert i. induction m as [|row m IH]; intros i Hi Hj.
  - simpl in Hi. lia.
  - inversion Hf as [|? ? Hrow Hrest]; subst. simpl concat. unfold get1, get2.
    destruct i as [|i].
    + simpl. rewrite app_nth1 by lia. reflexivity.
    + simpl nth at 2. rewrite app_nth2 by (simpl; lia).
      replace (S i * length row + j - length row) with (i * length row + j)
        by (simpl; lia).
      apply IH; auto. simpl in Hi. lia.
Qed.

Lemma flatten_mat_length r c f : length (flatten (mat r c f)) = r * c.
Proof. apply length_concat_rect, rect_tab2. Qed.

Lemma flatten_mat_get r c f i j :
  i < r -> j < c -> get1 (flatten (mat r c f)) (i * c + j) = f i j.
Proof.
  intros Hi Hj. simpl flatten.
  rewrite (get1_concat_rect (rect_tab2 r c f)), get2_tab2; auto.
Qed.

Lemma div_mod_row d r c : c < d -> (r * d + c) / d = r /\ (r * d + c) mod d = c.
Proof.
  intros Hc. split.
  - rewrite Nat.div_add_l by lia. rewrite Nat.div_small by lia. lia.
  - rewrite Nat.add_comm, Nat.Div0.mod_add. now apply Nat.mod_small.
Qed.

(** ** The generated operators in normal form *)

Lemma generate_spin_matrices_eq n : generate_spin_matrices n = Ok (spin_ops n).
Proof.
  unfold spin_ops. destruct (Nat.eqb_spec n 0) as [->|Hn].
  - reflexivity.
  - apply generate_spin_matrices_pos. lia.
Qed.

Lemma spin_fun_0 k : spin_fun 0 k 0 0 = C0.
Proof.
  destruct k as [|[|k]]; simpl; try reflexivity.
  unfold sz_entry, spin_of. simpl. cring.
Qed.

Lemma spin_ops_sem n k :
  k < 3 -> sem2 (item (spin_ops n) k) = tab2 (n + 1) (n + 1) (spin_fun n k).
Proof.
  intros Hk. unfold spin_ops. destruct (Nat.eqb_spec n 0) as [->|Hn].
  - assert (E : sem2 (item (Arr1 [C0], Arr1 [C0], Arr1 [C0]) k) = [[C0]]).
    { destruct k as [|[|[|k]]]; try lia; reflexivity. }
    rewrite E. cbn [tab2 tab1 seq map Nat.add]. now rewrite spin_fun_0.
  - destruct k as [|[|[|k]]]; try lia; reflexivity.
Qed.

Lemma spin_ops_rank2 n k :
  0 < n -> k < 3 -> item (spin_ops n) k = mat (n + 1) (n + 1) (spin_fun n k).
Proof.
  intros Hn Hk. unfold spin_ops. destruct (Nat.eqb_spec n 0); [lia|].
  destruct k as [|[|[|k]]]; try lia; reflexivity.
Qed.

Lemma flatten_mat_nth d f t :
  t < d * d -> get1 (flatten (mat d d f)) t = f (t / d) (t mod d).
Proof.
  intros Ht. assert (Hd : 0 < d) by (destruct d; lia).
  rewrite (Nat.div_mod_eq t d) at 1.
  rewrite (Nat.mul_comm d (t / d)).
  apply flatten_mat_get.
  - apply Nat.Div0.div_lt_upper_bound. lia.
  - apply Nat.mod_upper_bound. lia.
Qed.

Lemma get1_app3 (a b c : list C) n k t :
  length a = n -> length b = n -> length c = n -> k < 3 -> t < n ->
  get1 (a ++ b ++ c) (k * n + t) =
  get1 (match k with 0 => a | 1 => b | _ => c end) t.
Proof.
  intros Ha Hb Hc Hk Ht. unfold get1.
  destruct k as [|[|[|k]]]; try lia.
  - rewrite app_nth1 by lia. reflexivity.
  - rewrite app_nth2 by lia. rewrite app_nth1 by lia. f_equal. lia.
  - rewrite app_nth2 by lia. rewrite app_nth2 by lia. f_equal. lia.
Qed.

Lemma v3_of_eq n :
  reshape2 (flatten3 (spin_ops n)) 3 ((n + 1) * (n + 1)) = Ok (v3_of n).
Proof.
  unfold reshape2, v3_of, flatten3, spin_ops.
  destruct (Nat.eqb_spec n 0) as [->|Hn].
  - cbn [item fst snd flatten app length Nat.add Nat.mul Nat.eqb].
    unfold mat. do 2 f_equal. apply tab2_ext. intros i j Hi Hj.
    replace j with 0 by lia.
    change (0 / (0 + 1)) with 0. change (0 mod (0 + 1)) with 0.
    rewrite spin_fun_0.
    destruct i as [|[|[|i]]]; try lia; reflexivity.
  - cbn [item fst snd]. unfold spin_x, spin_y, spin_z.
    set (d := n + 1).
    change (Arr2 (tab2 d d ?f)) with (mat d d f).
    rewrite !length_app, !flatten_mat_length.
    replace (d * d + (d * d + d * d) =? 3 * (d * d)) with true
      by (symmetry; apply Nat.eqb_eq; lia).
    unfold mat at 4. do 2 f_equal. apply tab2_ext. intros k t Hk Ht.
    rewrite (@get1_app3 _ _ _ (d * d)); auto using flatten_mat_length.
    destruct k as [|[|[|k]]]; try lia; now rewrite flatten_mat_nth.
Qed.

(** a coefficient vector contracted with the stacked operators, then
    reshaped to a matrix *)
Lemma lincomb_eval n (coef : list C) :
  length coef = 3 ->
  (a <- matmul (Arr1 coef) (v3_of n) ;; reshape2 (flatten a) (n + 1) (n + 1)) =
  Ok (mat (n + 1) (n + 1) (lin_fun n (get1 coef))).
Proof.
  intros Hc. unfold v3_of, mat, matmul.
  rewrite length_tab2, ncols_tab2, Hc by lia. cbn [Nat.eqb rbind flatten].
  unfold reshape2. rewrite length_tab1, Nat.eqb_refl.
  do 2 f_equal. apply tab2_ext. intros r c Hr Hc'.
  rewrite get1_tab1 by nia. unfold lin_fun.
  apply Csum_ext. intros k Hk. rewrite get2_tab2 by (try lia; nia).
  destruct (@div_mod_row (n + 1) r c Hc') as [-> ->]. reflexivity.
Qed.

(** a 3x3 tensor contracted with the stacked operators, then reshaped to a
    stack of three matrices *)
Lemma contract_eval n (A : list (list C)) :
  rect 3 3 A ->
  (m <- matmul (Arr2 A) (v3_of n) ;; reshape3 (flatten m) (n + 1) (n + 1)) =
  Ok (mat (n + 1) (n + 1) (lin_fun n (get2 A 0)),
      mat (n + 1) (n + 1) (lin_fun n (get2 A 1)),
      mat (n + 1) (n + 1) (lin_fun n (get2 A 2))).
Proof.
  intros HA. rewrite <- (rect_tab2_get2 HA) at 1. unfold v3_of, mat.
  rewrite matmul_tab2 by lia. cbn [rbind].
  set (d := n + 1).
  change (Arr2 (tab2 3 (d * d) ?f)) with (mat 3 (d * d) f).
  unfold reshape3. rewrite flatten_mat_length, Nat.eqb_refl.
  assert (E : forall k, k < 3 ->
    tab2 d d (fun i j => get1 (flatten (mat 3 (d * d)
       (fun i0 j0 => Csum 3 (fun t => get2 A i0 t *
            spin_fun n t (j0 / d) (j0 mod d))%C))) (k * (d * d) + i * d + j)) =
    tab2 d d (lin_fun n (get2 A k))).
  { intros k Hk. apply tab2_ext. intros i j Hi Hj.
    rewrite <- Nat.add_assoc, flatten_mat_get by (try lia; nia).
    unfold lin_fun. apply Csum_ext. intros t Ht.
    destruct (@div_mod_row d i j Hj) as [-> ->]. reflexivity. }
  rewrite !E by lia. reflexivity.
Qed.

(** ** Operations on arrays read as square matrices *)

(** an array of rank 0 or 1 read as an [n] by [n] matrix is 1 by 1 *)
Lemma sem2_num n f z : [[z]] = tab2 n n f -> n = 1 /\ z = f 0 0.
Proof.
  intros H. assert (Hn : n = 1).
  { apply (f_equal (@length _)) in H. rewrite length_tab2 in H.
    simpl in H. lia. }
  subst n. split; [reflexivity|]. cbn in H. now inversion H.
Qed.

Lemma bdim_1_l m : bdim 1 m = Some m.
Proof. unfold bdim. destruct (Nat.eqb_spec 1 m); subst; reflexivity. Qed.

Lemma bdim_1_r n : bdim n 1 = Some n.
Proof.
  unfold bdim. destruct (Nat.eqb_spec n 1); subst; [reflexivity|].
  reflexivity.
Qed.

Lemma bdim_refl n : bdim n n = Some n.
Proof. unfold bdim. now rewrite Nat.eqb_refl. Qed.

Lemma tab2_1_1 f : tab2 1 1 f = [[f 0 0]].
Proof. reflexivity. Qed.

(** an elementwise operation, on the level of matrices *)
Lemma binop_eval (h : C -> C -> C) a b n m f g :
  0 < n -> 0 < m ->
  sem2 a = tab2 n n f -> sem2 b = tab2 m m g ->
  match bdim n m with
  | Some r =>
      exists c, binop h a b = Ok c /\
                sem2 c = tab2 r r (bin_fun h n n m m f g)
  | None => binop h a b = Raise ValueError
  end.
Proof.
  intros Hn Hm Ha Hb.
  assert (Hgen : binop2 h (sem2 a) (sem2 b) =
                 match bdim n m with
                 | Some r => Ok (mat r r (bin_fun h n n m m f g))
                 | None => Raise ValueError
                 end).
  { rewrite Ha, Hb, binop2_tab2_gen by assumption.
    destruct (bdim n m); reflexivity. }
  destruct a as [x|u|ma], b as [y|v|mb]; cbn [sem2] in *.
  - destruct (sem2_num _ _ Ha) as [-> ->], (sem2_num _ _ Hb) as [-> ->].
    cbn. eexists. split; reflexivity.
  - destruct (sem2_num _ _ Ha) as [-> ->].
    assert (m = 1).
    { apply (f_equal (@length _)) in Hb. rewrite length_tab2 in Hb.
      simpl in Hb. lia. }
    subst m. rewrite tab2_1_1 in Hb. inversion Hb; subst.
    cbn. eexists. split; reflexivity.
  - destruct (sem2_num _ _ Ha) as [-> ->]. rewrite bdim_1_l. subst mb.
    eexists. split; [reflexivity|]. cbn [binop]. 
    change (Arr2 (tab2 m m g)) with (mat m m g). rewrite amap_mat.
    cbn [sem2 mat]. apply tab2_ext. intros i j Hi Hj. unfold bin_fun, bidx.
    cbn [Nat.eqb]. destruct (Nat.eqb_spec m 1); [|reflexivity].
    now replace i with 0 by lia; replace j with 0 by lia.
  - destruct (sem2_num _ _ Hb) as [-> ->].
    assert (n = 1).
    { apply (f_equal (@length _)) in Ha. rewrite length_tab2 in Ha.
      simpl in Ha. lia. }
    subst n. rewrite tab2_1_1 in Ha. inversion Ha; subst.
    cbn. eexists. split; reflexivity.
  - assert (n = 1).
    { apply (f_equal (@length _)) in Ha. rewrite length_tab2 in Ha.
      simpl in Ha. lia. }
    assert (m = 1).
    { apply (f_equal (@length _)) in Hb. rewrite length_tab2 in Hb.
      simpl in Hb. lia. }
    subst n m. rewrite tab2_1_1 in Ha, Hb. inversion Ha; inversion Hb; subst.
    cbn. eexists. split; reflexivity.
  - cbn [binop]. rewrite Hgen. destruct (bdim n m); [|reflexivity].
    eexists. split; reflexivity.
  - destruct (sem2_num _ _ Hb) as [-> ->]. rewrite bdim_1_r. subst ma.
    eexists. split; [reflexivity|]. cbn [binop].
    change (Arr2 (tab2 n n f)) with (mat n n f). rewrite amap_mat.
    cbn [sem2 mat]. apply tab2_ext. intros i j Hi Hj. unfold bin_fun, bidx.
    cbn [Nat.eqb]. destruct (Nat.eqb_spec n 1); [|reflexivity].
    now replace i with 0 by lia; replace j with 0 by lia.
  - cbn [binop]. rewrite Hgen. destruct (bdim n m); [|reflexivity].
    eexists. split; reflexivity.
  - cbn [binop]. rewrite Hgen. destruct (bdim n m); [|reflexivity].
    eexists. split; reflexivity.
Qed.

Lemma sem2_vec n f (v : list C) : [v] = tab2 n n f -> n = 1 /\ v = [f 0 0].
Proof.
  intros H. assert (Hn : n = 1).
  { apply (f_equal (@length _)) in H. rewrite length_tab2 in H.
    simpl in H. lia. }
  subst n. split; [reflexivity|]. cbn in H. now inversion H.
Qed.

Lemma kron_fun_1_l m f g i j :
  i < m -> j < m -> kron_fun m m f g i j = (f 0 0 * g i j)%C.
Proof.
  intros Hi Hj. unfold kron_fun.
  now rewrite !Nat.div_small, !Nat.mod_small by assumption.
Qed.

Lemma kron_fun_1_r f g i j :
  kron_fun 1 1 f g i j = (f i j * g 0 0)%C.
Proof.
  unfold kron_fun. now rewrite !Nat.div_1_r, !Nat.mod_1_r.
Qed.

(** a Kronecker product, on the level of matrices *)
Lemma kron_eval a b n m f g :
  0 < n -> 0 < m ->
  sem2 a = tab2 n n f -> sem2 b = tab2 m m g ->
  sem2 (kron a b) = tab2 (n * m) (n * m) (kron_fun m m f g).
Proof.
  intros Hn Hm Ha Hb.
  destruct a as [x|u|ma], b as [y|v|mb]; cbn [sem2] in *;
    try (destruct (sem2_num _ _ Ha) as [-> ->]);
    try (destruct (sem2_num _ _ Hb) as [-> ->]);
    try (destruct (sem2_vec _ _ Ha) as [-> ->]);
    try (destruct (sem2_vec _ _ Hb) as [-> ->]);
    try subst ma; try subst mb; try reflexivity.
  - unfold kron, scale. rewrite amap_tab2. cbn [sem2]. rewrite Nat.mul_1_l.
    apply tab2_ext. intros i j Hi Hj. now rewrite kron_fun_1_l.
  - cbn [kron]. change [[f 0 0]] with (tab2 1 1 f).
    now rewrite kron2_tab2 by lia.
  - unfold kron. rewrite amap_tab2. cbn [sem2]. rewrite Nat.mul_1_r.
    apply tab2_ext. intros i j Hi Hj. now rewrite kron_fun_1_r.
  - cbn [kron]. change [[g 0 0]] with (tab2 1 1 g).
    now rewrite kron2_tab2 by lia.
  - cbn [kron]. now rewrite kron2_tab2 by lia.
Qed.

(** an elementwise map, on the level of matrices *)
Lemma amap_eval h a n f :
  0 < n -> sem2 a = tab2 n n f ->
  sem2 (amap h a) = tab2 n n (fun i j => h (f i j)).
Proof.
  intros Hn Ha. destruct a as [x|u|ma]; cbn [sem2] in *.
  - destruct (sem2_num _ _ Ha) as [-> ->]. reflexivity.
  - destruct (sem2_vec _ _ Ha) as [-> ->]. reflexivity.
  - subst ma. now rewrite amap_tab2.
Qed.

Lemma np_iadd_add a b c : np_iadd a b = Ok c -> np_add a b = Ok c.
Proof.
  unfold np_iadd. destruct a; [auto| |];
    (destruct (np_add _ b) as [r|e]; cbn [rbind]; [|discriminate];
     destruct (list_eq_dec Nat.eq_dec (shape r) _); [auto|discriminate]).
Qed.

Lemma np_iadd_shape a b c :
  np_iadd a b = Ok c -> (exists z, a = Num z) \/ shape c = shape a.
Proof.
  unfold np_iadd. destruct a as [z|u|m]; [left; eauto| |];
    (destruct (np_add _ b) as [r|e]; cbn [rbind]; [|discriminate];
     destruct (list_eq_dec Nat.eq_dec (shape r) _); [|discriminate];
     intros H; inversion H; subst; right; assumption).
Qed.

(** ** Closure of a family of matrices under the array operations *)

Section Closure.
Variable Q : nat -> (nat -> nat -> C) -> Prop.
Hypothesis HQ : closed Q.

Lemma Qa_pos n a : Qa Q n a -> 0 < n.
Proof. now intros [H _]. Qed.

Lemma Qa_mat n f : 0 < n -> Q n f -> Qa Q n (mat n n f).
Proof. intros Hn Hf. split; [assumption|]. exists f. now split. Qed.

Lemma Qa_num z : Q 1 (fun _ _ => z) -> Qa Q 1 (Num z).
Proof. intros Hz. split; [lia|]. exists (fun _ _ => z). now split. Qed.

Lemma Q_zero n : Q n (fun _ _ => C0).
Proof.
  apply (q_ext HQ) with (f := fun i j => (RtoC 0 * id_fun i j)%C).
  - intros. cring.
  - apply (q_scale HQ), (q_id HQ).
Qed.

Lemma Qa_identity n : 0 < n -> Qa Q n (identity n).
Proof. intros Hn. rewrite identity_mat. apply Qa_mat; [assumption|apply (q_id HQ)]. Qed.

Lemma Qa_kron n m a b : Qa Q n a -> Qa Q m b -> Qa Q (n * m) (kron a b).
Proof.
  intros (Hn & f & Ha & Hf) (Hm & g & Hb & Hg). split; [nia|].
  exists (kron_fun m m f g). split.
  - now apply kron_eval.
  - now apply (q_kron HQ).
Qed.

Lemma Qa_amap (h : C -> C) n a :
  (forall f, Q n f -> Q n (fun i j => h (f i j))) ->
  Qa Q n a -> Qa Q n (amap h a).
Proof.
  intros Hh (Hn & f & Ha & Hf). split; [assumption|].
  exists (fun i j => h (f i j)). split; [now apply amap_eval|now apply Hh].
Qed.

Lemma Qa_scale x n a : Qa Q n a -> Qa Q n (scale (RtoC x) a).
Proof. apply Qa_amap. intros f. apply (q_scale HQ). Qed.

Lemma Qa_divr x n a : Qa Q n a -> Qa Q n (divr a x).
Proof. apply Qa_amap. intros f. apply (q_divr HQ). Qed.

Lemma Qa_neg n a : Qa Q n a -> Qa Q n (neg a).
Proof. apply Qa_amap. intros f. apply (q_neg HQ). Qed.

(** addition and subtraction: the outcome is decided by the dimensions *)
Lemma Qa_add n m a b :
  Qa Q n a -> Qa Q m b ->
  match bdim n m with
  | Some r => exists c, np_add a b = Ok c /\ Qa Q r c
  | None => np_add a b = Raise ValueError
  end.
Proof.
  intros (Hn & f & Ha & Hf) (Hm & g & Hb & Hg).
  pose proof (@binop_eval Cadd a b n m f g Hn Hm Ha Hb) as H.
  destruct (bdim n m) as [r|] eqn:E; [|exact H].
  destruct H as (c & Hc & Hs). exists c. split; [exact Hc|].
  split.
  - unfold bdim in E. destruct (n =? m), (n =? 1), (m =? 1);
      inversion E; subst; assumption.
  - exists (bin_fun Cadd n n m m f g). split; [assumption|].
    now apply (q_add HQ).
Qed.

Lemma Qa_sub n m a b :
  Qa Q n a -> Qa Q m b ->
  match bdim n m with
  | Some r => exists c, np_sub a b = Ok c /\ Qa Q r c
  | None => np_sub a b = Raise ValueError
  end.
Proof.
  intros (Hn & f & Ha & Hf) (Hm & g & Hb & Hg).
  pose proof (@binop_eval Csub a b n m f g Hn Hm Ha Hb) as H.
  destruct (bdim n m) as [r|] eqn:E; [|exact H].
  destruct H as (c & Hc & Hs). exists c. split; [exact Hc|].
  split.
  - unfold bdim in E. destruct (n =? m), (n =? 1), (m =? 1);
      inversion E; subst; assumption.
  - exists (bin_fun Csub n n m m f g). split; [assumption|].
    now apply (q_sub HQ).
Qed.

(** whatever an addition returns is in the family, with the broadcast
    dimension *)
Lemma Qa_add_ok n m a b c :
  Qa Q n a -> Qa Q m b -> np_add a b = Ok c ->
  exists r, bdim n m = Some r /\ Qa Q r c.
Proof.
  intros Ha Hb Hc. pose proof (Qa_add Ha Hb) as H.
  destruct (bdim n m) as [r|]; [|congruence].
  destruct H as (c' & Hc' & Hq). exists r. split; [reflexivity|].
  congruence.
Qed.

Lemma Qa_sub_ok n m a b c :
  Qa Q n a -> Qa Q m b -> np_sub a b = Ok c ->
  exists r, bdim n m = Some r /\ Qa Q r c.
Proof.
  intros Ha Hb Hc. pose proof (Qa_sub Ha Hb) as H.
  destruct (bdim n m) as [r|]; [|congruence].
  destruct H as (c' & Hc' & Hq). exists r. split; [reflexivity|].
  congruence.
Qed.

Lemma Qa_iadd_ok n m a b c :
  Qa Q n a -> Qa Q m b -> np_iadd a b = Ok c ->
  exists r, bdim n m = Some r /\ Qa Q r c.
Proof. intros Ha Hb Hc. apply np_iadd_add in Hc. eauto using Qa_add_ok. Qed.

(** the operators of a spin and their combinations *)
Lemma Q_spin n k : k < 3 -> Q (n + 1) (spin_fun n k).
Proof.
  intros Hk.
  apply (q_ext HQ) with
    (f := lin_fun n (fun j => if j =? k then C1 else C0)).
  - intros i j _ _. unfold lin_fun. cbn [Csum].
    destruct k as [|[|[|k]]]; try lia; cbn [Nat.eqb]; cring.
  - apply (q_lin HQ). intros j _. unfold creal.
    destruct (j =? k); cring.
Qed.

Lemma Qa_spin n k : k < 3 -> Qa Q (n + 1) (item (spin_ops n) k).
Proof.
  intros Hk. split; [lia|]. exists (spin_fun n k). split.
  - now apply spin_ops_sem.
  - now apply Q_spin.
Qed.

Lemma Qa_lin n coef :
  (forall k, k < 3 -> creal (coef k)) ->
  Qa Q (n + 1) (mat (n + 1) (n + 1) (lin_fun n coef)).
Proof. intros H. apply Qa_mat; [lia|]. now apply (q_lin HQ). Qed.

(** *** Expansion into the host spaces *)

Lemma wf_neighbour_pos ne : wf_neighbour ne -> 0 < n_multH ne.
Proof. intros (H & _). lia. Qed.

Lemma Qa_expand_hosts ns n x :
  Forall wf_neighbour ns -> Qa Q n x ->
  Qa Q (expand_dim ns n) (expand_hosts ns x).
Proof.
  intros Hns. revert n x. induction Hns as [|ne ns Hne Hns IH]; intros n x Hx.
  - exact Hx.
  - cbn [expand_dim expand_hosts fold_left]. apply IH.
    apply Qa_kron; [assumption|].
    apply Qa_identity. now apply wf_neighbour_pos.
Qed.

Lemma Qa_expand_at_from ns k idx term n x ne :
  Forall wf_neighbour ns ->
  k <= idx -> nth_error ns (idx - k) = Some ne ->
  Qa Q (n_multH ne) term -> Qa Q n x ->
  Qa Q (expand_dim ns n)
    (fold_left (fun acc (p : nat * Neighbour) =>
                  let (inner_neigh_idx, inner_neigh) := p in
                  if inner_neigh_idx =? idx then kron acc term
                  else kron acc (identity (n_multH inner_neigh)))
       (combine (seq k (length ns)) ns) x).
Proof.
  intros Hns. revert k n x.
  induction Hns as [|ne' ns Hne' Hns IH]; intros k n x Hk Hnth Ht Hx.
  - destruct (idx - k); discriminate.
  - cbn [length seq combine fold_left expand_dim].
    destruct (Nat.eqb_spec k idx) as [->|Hne].
    + rewrite Nat.sub_diag in Hnth. cbn in Hnth. inversion Hnth; subst ne'.
      clear IH Hnth.
      assert (Hrest : forall l j y m, Forall wf_neighbour l -> idx < j ->
                Qa Q m y ->
                Qa Q (expand_dim l m)
                  (fold_left (fun acc (p : nat * Neighbour) =>
                     let (inner_neigh_idx, inner_neigh) := p in
                     if inner_neigh_idx =? idx then kron acc term
                     else kron acc (identity (n_multH inner_neigh)))
                   (combine (seq j (length l)) l) y)).
      { intros l j y m Hl. revert j y m.
        induction Hl as [|a l Ha Hl IHl]; intros j y m Hj Hy.
        - exact Hy.
        - cbn [length seq combine fold_left expand_dim].
          destruct (Nat.eqb_spec j idx); [lia|].
          apply IHl; [lia|]. apply Qa_kron; [assumption|].
          apply Qa_identity. now apply wf_neighbour_pos. }
      apply Hrest; [assumption|lia|]. now apply Qa_kron.
    + apply IH; [lia| | assumption|].
      * replace (idx - k) with (S (idx - S k)) in Hnth by lia. exact Hnth.
      * apply Qa_kron; [assumption|].
        apply Qa_identity. now apply wf_neighbour_pos.
Qed.

Lemma Qa_expand_at ns idx term n x ne :
  Forall wf_neighbour ns ->
  nth_error ns idx = Some ne ->
  Qa Q (n_multH ne) term -> Qa Q n x ->
  Qa Q (expand_dim ns n) (expand_at ns idx term x).
Proof.
  intros Hns Hnth Ht Hx. unfold expand_at, enumerate.
  apply Qa_expand_at_from with (ne := ne); auto; [lia|].
  now rewrite Nat.sub_0_r.
Qed.
End Closure.

(** ** Evaluation of the contractions and sums of the assembler *)

Lemma flatten_sem a : flatten a = concat (sem2 a).
Proof.
  destruct a; cbn [flatten sem2 concat]; try reflexivity.
  now rewrite app_nil_r.
Qed.

(** three arrays that read as [d] by [d] matrices, stacked and reshaped to
    3 by [d * d] *)
Lemma v3_gen (s : stack) d (G : nat -> nat -> nat -> C) :
  0 < d ->
  (forall k, k < 3 -> sem2 (item s k) = tab2 d d (G k)) ->
  reshape2 (flatten3 s) 3 (d * d) =
  Ok (mat 3 (d * d) (fun k t => G k (t / d) (t mod d))).
Proof.
  intros Hd Hs. unfold reshape2, flatten3.
  assert (Hl : forall k, k < 3 -> length (flatten (item s k)) = d * d).
  { intros k Hk. rewrite flatten_sem, (Hs k Hk).
    apply length_concat_rect, rect_tab2. }
  rewrite !length_app, !Hl by lia.
  replace (d * d + (d * d + d * d) =? 3 * (d * d)) with true
    by (symmetry; apply Nat.eqb_eq; lia).
  unfold mat. do 2 f_equal. apply tab2_ext. intros k t Hk Ht.
  rewrite (@get1_app3 _ _ _ (d * d)); auto.
  assert (E : forall k', k' < 3 ->
            get1 (flatten (item s k')) t = G k' (t / d) (t mod d)).
  { intros k' Hk'. rewrite flatten_sem, (Hs k' Hk').
    change (concat (tab2 d d (G k'))) with (flatten (mat d d (G k'))).
    now apply flatten_mat_nth. }
  destruct k as [|[|[|k]]]; try lia; now apply E.
Qed.

(** a coefficient vector contracted with such a 3 by [d * d] array and
    reshaped to [d] by [d] *)
Lemma dot3_eval d (G : nat -> nat -> nat -> C) (coef : list C) :
  0 < d -> length coef = 3 ->
  (a <- matmul (Arr1 coef) (mat 3 (d * d) (fun k t => G k (t / d) (t mod d))) ;;
   reshape2 (flatten a) d d) =
  Ok (mat d d (fun r c => Csum 3 (fun k => get1 coef k * G k r c)%C)).
Proof.
  intros Hd Hc. unfold mat, matmul.
  rewrite length_tab2, ncols_tab2, Hc by lia. cbn [Nat.eqb rbind flatten].
  unfold reshape2. rewrite length_tab1, Nat.eqb_refl.
  do 2 f_equal. apply tab2_ext. intros r c Hr Hc'.
  rewrite get1_tab1 by nia.
  apply Csum_ext. intros k Hk. rewrite get2_tab2 by (try lia; nia).
  destruct (@div_mod_row d r c Hc') as [-> ->]. reflexivity.
Qed.

Lemma rect_rows33 g : rect 3 3 (rows33 g).
Proof. split; [reflexivity|]. repeat constructor. Qed.

Lemma creal_RtoC x : creal (RtoC x).
Proof. apply Cconj_RtoC. Qed.

Lemma creal_0 : creal C0.
Proof. apply Cconj_0. Qed.

Lemma creal_mul a b : creal a -> creal b -> creal (a * b)%C.
Proof. unfold creal. intros Ha Hb. now rewrite Cconj_mul, Ha, Hb. Qed.

Lemma creal_add a b : creal a -> creal b -> creal (a + b)%C.
Proof. unfold creal. intros Ha Hb. now rewrite Cconj_add, Ha, Hb. Qed.

Lemma creal_Csum n f : (forall k, k < n -> creal (f k)) -> creal (Csum n f).
Proof.
  induction n as [|n IH]; intros H; cbn [Csum].
  - apply creal_0.
  - apply creal_add; [apply IH; auto|apply H; lia].
Qed.

Lemma get1_nil j : get1 [] j = C0.
Proof. now destruct j. Qed.

Lemma creal_of_vec3 v k : creal (get1 (of_vec3 v) k).
Proof.
  unfold of_vec3, get1. destruct k as [|[|[|k]]]; cbn [nth];
    try apply creal_RtoC. destruct k; apply creal_0.
Qed.

Lemma creal_rows33 g i j : creal (get2 (rows33 g) i j).
Proof.
  unfold rows33, get2.
  destruct i as [|[|[|i]]]; cbn [nth]; try apply creal_of_vec3.
  destruct i; unfold get1; destruct j; apply creal_0.
Qed.

(** [contract_S] on the parameters of a constructed system *)
Lemma contract_S_eval p (A : list (list C)) :
  wf_params p -> rect 3 3 A ->
  contract_S p (Arr2 A) =
  Ok (mat (spinS p + 1) (spinS p + 1) (lin_fun (spinS p) (get2 A 0)),
      mat (spinS p + 1) (spinS p + 1) (lin_fun (spinS p) (get2 A 1)),
      mat (spinS p + 1) (spinS p + 1) (lin_fun (spinS p) (get2 A 2))).
Proof.
  intros (HmS & _ & _ & Hv & _) HA. unfold contract_S.
  rewrite Hv, HmS. now apply contract_eval.
Qed.

(** Python's [sum] over three arrays that read as [d] by [d] matrices *)
Lemma py_sum3_eval d a0 a1 a2 (m0 m1 m2 : nat -> nat -> C) :
  0 < d ->
  sem2 a0 = tab2 d d m0 -> sem2 a1 = tab2 d d m1 -> sem2 a2 = tab2 d d m2 ->
  exists c, py_sum [Ok a0; Ok a1; Ok a2] = Ok c /\
            sem2 c = tab2 d d (fun i j => C0 + m0 i j + m1 i j + m2 i j)%C.
Proof.
  intros Hd H0 H1 H2. unfold py_sum. cbn [py_sum_from rbind].
  assert (Hz : sem2 (Num C0) = tab2 1 1 (fun _ _ => C0)) by reflexivity.
  pose proof (@binop_eval Cadd (Num C0) a0 1 d _ _ ltac:(lia) Hd Hz H0) as E0.
  rewrite bdim_1_l in E0. destruct E0 as (c0 & E0 & S0).
  unfold np_add at 1. rewrite E0. cbn [rbind].
  pose proof (@binop_eval Cadd c0 a1 d d _ _ Hd Hd S0 H1) as E1.
  rewrite bdim_refl in E1. destruct E1 as (c1 & E1 & S1).
  unfold np_add at 1. rewrite E1. cbn [rbind].
  pose proof (@binop_eval Cadd c1 a2 d d _ _ Hd Hd S1 H2) as E2.
  rewrite bdim_refl in E2. destruct E2 as (c2 & E2 & S2).
  unfold np_add at 1. rewrite E2. cbn [rbind].
  exists c2. split; [reflexivity|]. rewrite S2.
  apply tab2_ext. intros i j Hi Hj. unfold bin_fun, bidx. cbn [Nat.eqb].
  destruct (Nat.eqb_spec d 1); [|reflexivity].
  now replace i with 0 by lia; replace j with 0 by lia.
Qed.

(** [self.S[i] @ t] for a [d] by [d] matrix [t] *)
Lemma matmul_spin_eval n i (L : nat -> nat -> C) :
  i < 3 ->
  exists c, matmul (item (spin_ops n) i) (mat (n + 1) (n + 1) L) = Ok c /\
            sem2 c = tab2 (n + 1) (n + 1)
                       (fun r c => Csum (n + 1) (fun k => spin_fun n i r k * L k c)%C).
Proof.
  intros Hi. destruct (Nat.eq_dec n 0) as [->|Hn].
  - assert (E : item (spin_ops 0) i = Arr1 [C0]).
    { destruct i as [|[|[|i]]]; try lia; reflexivity. }
    rewrite E. eexists. split; [reflexivity|].
    cbn. now rewrite spin_fun_0.
  - rewrite spin_ops_rank2 by lia. unfold mat.
    rewrite matmul_tab2 by lia. eexists. split; reflexivity.
Qed.

(** the ground-state hyperfine term before its expansion into the host
    spaces *)
Lemma hyperfine_gs_core p :
  wf_params p ->
  exists x,
    (t <- contract_S p (of_mat33 (A_gs p)) ;;
     py_sum (map (fun i => matmul (item (S_ p) i) (item t i)) [0; 1; 2])) = Ok x /\
    sem2 x = tab2 (spinS p + 1) (spinS p + 1)
               (gs_fun (spinS p) (rows33 (A_gs p))).
Proof.
  intros Hp. change (of_mat33 (A_gs p)) with (Arr2 (rows33 (A_gs p))).
  rewrite (contract_S_eval Hp (rect_rows33 _)). cbn [rbind map item fst snd].
  change (fst (fst (S_ p))) with (item (S_ p) 0).
  change (snd (fst (S_ p))) with (item (S_ p) 1).
  change (snd (S_ p)) with (item (S_ p) 2).
  destruct Hp as (_ & _ & HS & _). rewrite HS.
  set (n := spinS p). set (A := rows33 (A_gs p)).
  destruct (@matmul_spin_eval n 0 (lin_fun n (get2 A 0))) as (c0 & E0 & S0); [lia|].
  destruct (@matmul_spin_eval n 1 (lin_fun n (get2 A 1))) as (c1 & E1 & S1); [lia|].
  destruct (@matmul_spin_eval n 2 (lin_fun n (get2 A 2))) as (c2 & E2 & S2); [lia|].
  rewrite E0, E1, E2.
  destruct (@py_sum3_eval (n + 1) c0 c1 c2 _ _ _ ltac:(lia) S0 S1 S2)
    as (c & Ec & Sc).
  exists c. split; [exact Ec|]. exact Sc.
Qed.

(** ** Loops with an invariant *)

Lemma for_each_inv {A S} (I : S -> Prop) (l : list A) body (s s' : S) :
  (forall a s0 s1, In a l -> I s0 -> body a s0 = Ok s1 -> I s1) ->
  I s -> for_each l body s = Ok s' -> I s'.
Proof.
  revert s. induction l as [|a l IH]; intros s Hb Hs Hr; cbn [for_each] in Hr.
  - now inversion Hr; subst.
  - destruct (body a s) as [s1|e] eqn:E; cbn [rbind] in Hr; [|discriminate].
    apply (IH s1); auto.
    + intros a0 s0 s2 Hin. apply Hb. now right.
    + apply (Hb a s s1); auto. now left.
Qed.

(** an invariant [I] that every pass of the body strengthens to [J] *)
Lemma for_each_inv2 {A S} (I J : S -> Prop) (l : list A) body (s s' : S) :
  l <> [] ->
  (forall a s0 s1, In a l -> I s0 -> body a s0 = Ok s1 -> J s1) ->
  (forall s0, J s0 -> I s0) ->
  I s -> for_each l body s = Ok s' -> J s'.
Proof.
  intros Hl Hb HJI Hs Hr. destruct l as [|a l]; [congruence|].
  cbn [for_each] in Hr.
  destruct (body a s) as [s1|e] eqn:E; cbn [rbind] in Hr; [|discriminate].
  apply (@for_each_inv A S J l body s1 s'); auto.
  - intros a0 s0 s2 Hin Hs0. apply Hb; [now right|now apply HJI].
  - apply (Hb a s s1); auto. now left.
Qed.

Lemma in_combine_seq {A} (l : list A) k i (x : A) :
  In (i, x) (combine (seq k (length l)) l) ->
  k <= i /\ nth_error l (i - k) = Some x.
Proof.
  revert k. induction l as [|a l IH]; intros k H; cbn in H; [contradiction|].
  destruct H as [H|H].
  - inversion H; subst. rewrite Nat.sub_diag. split; [lia|reflexivity].
  - apply IH in H. destruct H as [Hk Hn]. split; [lia|].
    replace (i - k) with (S (i - S k)) by lia. exact Hn.
Qed.

Lemma in_enumerate {A} (l : list A) i (x : A) :
  In (i, x) (enumerate l) -> nth_error l i = Some x.
Proof.
  intros H. apply in_combine_seq in H. destruct H as [_ H].
  now rewrite Nat.sub_0_r in H.
Qed.

(** ** The assembler keeps a closed family of matrices *)

Section Pipeline.
Variable Q : nat -> (nat -> nat -> C) -> Prop.
Hypothesis HQ : closed Q.

Lemma Q_add_same n f g :
  Q n f -> Q n g -> Q n (fun i j => f i j + g i j)%C.
Proof.
  intros Hf Hg.
  apply (q_ext HQ) with (f := bin_fun Cadd n n n n f g).
  - intros i j Hi Hj. unfold bin_fun, bidx.
    destruct (Nat.eqb_spec n 1); [|reflexivity].
    now replace i with 0 by lia; replace j with 0 by lia.
  - apply (q_add HQ); auto. apply bdim_refl.
Qed.

Lemma creal_RtoC_fst z : creal z -> z = RtoC (fst z).
Proof.
  unfold creal, Cconj, RtoC. destruct z as [x y]. cbn. intros H.
  inversion H as [Hy]. f_equal. lra.
Qed.

(** a real combination of three members of the family *)
Lemma Q_comb3 n (coef : nat -> C) (G : nat -> nat -> nat -> C) :
  (forall k, k < 3 -> creal (coef k)) ->
  (forall k, k < 3 -> Q n (G k)) ->
  Q n (fun r c => Csum 3 (fun k => coef k * G k r c)%C).
Proof.
  intros Hc HG. cbn [Csum].
  apply Q_add_same; [apply Q_add_same; [apply Q_add_same|]|].
  - apply (Q_zero HQ).
  - apply (q_ext HQ) with (f := fun r c => (RtoC (fst (coef 0)) * G 0 r c)%C).
    + intros. now rewrite <- (creal_RtoC_fst (Hc 0 ltac:(lia))).
    + apply (q_scale HQ), HG. lia.
  - apply (q_ext HQ) with (f := fun r c => (RtoC (fst (coef 1)) * G 1 r c)%C).
    + intros. now rewrite <- (creal_RtoC_fst (Hc 1 ltac:(lia))).
    + apply (q_scale HQ), HG. lia.
  - apply (q_ext HQ) with (f := fun r c => (RtoC (fst (coef 2)) * G 2 r c)%C).
    + intros. now rewrite <- (creal_RtoC_fst (Hc 2 ltac:(lia))).
    + apply (q_scale HQ), HG. lia.
Qed.

Lemma py_sum3_Qa n a0 a1 a2 :
  Qa Q n a0 -> Qa Q n a1 -> Qa Q n a2 ->
  exists c, py_sum [Ok a0; Ok a1; Ok a2] = Ok c /\ Qa Q n c.
Proof.
  intros (Hn & f0 & S0 & Q0) (_ & f1 & S1 & Q1) (_ & f2 & S2 & Q2).
  destruct (@py_sum3_eval n a0 a1 a2 f0 f1 f2 Hn S0 S1 S2) as (c & Ec & Sc).
  exists c. split; [exact Ec|]. split; [exact Hn|].
  eexists. split; [exact Sc|].
  repeat apply Q_add_same; auto. apply (Q_zero HQ).
Qed.

Lemma Qstack_smap (h : ndarray -> ndarray) n s :
  (forall a, Qa Q n a -> Qa Q n (h a)) -> Qstk Q n s -> Qstk Q n (smap h s).
Proof.
  intros Hh Hs k Hk. unfold smap.
  destruct k as [|[|[|k]]]; try lia; cbn [item fst snd]; apply Hh;
    [apply (Hs 0)|apply (Hs 1)|apply (Hs 2)]; lia.
Qed.

Lemma Qstack_spin n : Qstk Q (n + 1) (spin_ops n).
Proof. intros k Hk. now apply (Qa_spin HQ). Qed.

(** the stacked, reshaped form of a stack of the family, contracted with a
    real vector *)
Lemma Qstack_dot n s :
  Qstk Q n s ->
  exists v3,
    reshape2 (flatten3 s) 3 (n * n) = Ok v3 /\
    forall coef,
      length coef = 3 -> (forall k, creal (get1 coef k)) ->
      exists a, (x <- matmul (Arr1 coef) v3 ;; reshape2 (flatten x) n n) = Ok a /\
                Qa Q n a.
Proof.
  intros Hs.
  destruct (Hs 0 ltac:(lia)) as (Hn & f0 & S0 & Q0).
  destruct (Hs 1 ltac:(lia)) as (_ & f1 & S1 & Q1).
  destruct (Hs 2 ltac:(lia)) as (_ & f2 & S2 & Q2).
  set (G := fun k : nat => match k with 0 => f0 | 1 => f1 | _ => f2 end).
  assert (HG : forall k, k < 3 -> sem2 (item s k) = tab2 n n (G k)).
  { intros k Hk. destruct k as [|[|[|k]]]; try lia; assumption. }
  rewrite (v3_gen s G Hn HG). eexists. split; [reflexivity|].
  intros coef Hl Hc. rewrite (dot3_eval G coef Hn Hl).
  eexists. split; [reflexivity|]. apply (Qa_mat); [assumption|].
  apply Q_comb3; auto.
  intros k Hk. destruct k as [|[|[|k]]]; try lia; assumption.
Qed.

Section WithParams.
Variable p : Params.
Hypothesis Hp : wf_params p.

Local Abbreviation dS := (spinS p + 1).
Local Abbreviation dI := (spinI p + 1).

Lemma wf_neighbours : Forall wf_neighbour (neighbours p).
Proof. apply Hp. Qed.

Lemma Qstack_contract (A : list (list C)) :
  rect 3 3 A -> (forall i j, i < 3 -> j < 3 -> creal (get2 A i j)) ->
  exists t, contract_S p (Arr2 A) = Ok t /\ Qstk Q dS t.
Proof.
  intros HA Hc. rewrite (contract_S_eval Hp HA). eexists. split; [reflexivity|].
  intros k Hk. destruct k as [|[|[|k]]]; try lia; cbn [item fst snd];
    apply (Qa_lin HQ); intros; apply Hc; lia.
Qed.

Lemma hyperfine_es_Qa :
  exists a, hyperfine_es p = Ok a /\
            Qa Q (expand_dim (neighbours p) (dI * dS)) a.
Proof.
  unfold hyperfine_es. change (of_mat33 (A_es p)) with (Arr2 (rows33 (A_es p))).
  destruct (Qstack_contract (rect_rows33 (A_es p))
              (fun i j _ _ => creal_rows33 (A_es p) i j))
    as (t & Et & Ht).
  rewrite Et. cbn [rbind map].
  assert (HI : I_ p = spin_ops (spinI p)) by apply Hp. rewrite HI.
  destruct (@py_sum3_Qa (dI * dS)
              (kron (item (spin_ops (spinI p)) 0) (item t 0))
              (kron (item (spin_ops (spinI p)) 1) (item t 1))
              (kron (item (spin_ops (spinI p)) 2) (item t 2)))
    as (c & Ec & Hc);
    try (apply (Qa_kron HQ); [apply (Qa_spin HQ); lia|apply Ht; lia]).
  rewrite Ec. cbn [rbind]. eexists. split; [reflexivity|].
  apply (Qa_expand_hosts HQ); [apply wf_neighbours|exact Hc].
Qed.

Lemma hyperfine_gs_Qa :
  Q dS (gs_fun (spinS p) (rows33 (A_gs p))) ->
  exists a, hyperfine_gs p = Ok a /\ Qa Q (expand_dim (neighbours p) dS) a.
Proof.
  intros Hgs. unfold hyperfine_gs.
  destruct (hyperfine_gs_core Hp) as (x & Ex & Sx).
  destruct (contract_S p (of_mat33 (A_gs p))) as [t|e]; cbn [rbind] in *;
    [|discriminate].
  rewrite Ex. cbn [rbind]. eexists. split; [reflexivity|].
  apply (Qa_expand_hosts HQ); [apply wf_neighbours|].
  split; [lia|]. eexists. split; [exact Sx|exact Hgs].
Qed.


Local Abbreviation DD := (composite_dim p).

Lemma Qa1_num0 : Qa1 Q DD (Num C0).
Proof. left. apply (Qa_num). apply (Q_zero HQ). Qed.

Lemma Qa1_of_Qa a : Qa Q DD a -> Qa1 Q DD a.
Proof. now right. Qed.

Lemma bdim_some_inv n m r : bdim n m = Some r -> r = n \/ r = m.
Proof.
  unfold bdim. destruct (n =? m), (n =? 1), (m =? 1); intros H;
    inversion H; auto.
Qed.

Lemma Qa1_iadd a b c :
  Qa1 Q DD a -> Qa Q DD b -> np_iadd a b = Ok c -> Qa Q DD c.
Proof.
  intros [Ha|Ha] Hb Hc;
    destruct (Qa_iadd_ok HQ Ha Hb Hc) as (r & Hr & Hq).
  - rewrite bdim_1_l in Hr. now inversion Hr; subst.
  - rewrite bdim_refl in Hr. now inversion Hr; subst.
Qed.

Lemma Qa1_sub a b c :
  Qa1 Q DD a -> Qa1 Q DD b -> np_sub a b = Ok c -> Qa1 Q DD c.
Proof.
  intros [Ha|Ha] [Hb|Hb] Hc;
    destruct (Qa_sub_ok HQ Ha Hb Hc) as (r & Hr & Hq);
    rewrite ?bdim_1_l, ?bdim_1_r, ?bdim_refl in Hr; inversion Hr; subst;
    solve [now left | now right].
Qed.

Lemma Qa_sub_Qa1 a b c :
  Qa Q DD a -> Qa1 Q DD b -> np_sub a b = Ok c -> Qa Q DD c.
Proof.
  intros Ha [Hb|Hb] Hc;
    destruct (Qa_sub_ok HQ Ha Hb Hc) as (r & Hr & Hq);
    rewrite ?bdim_1_l, ?bdim_1_r, ?bdim_refl in Hr; inversion Hr; subst;
    assumption.
Qed.

Lemma Qa1_scale x a : Qa1 Q DD a -> Qa1 Q DD (scale (RtoC x) a).
Proof. intros [H|H]; [left|right]; now apply (Qa_scale HQ). Qed.

Lemma Qa1_divr x a : Qa1 Q DD a -> Qa1 Q DD (divr a x).
Proof. intros [H|H]; [left|right]; now apply (Qa_divr HQ). Qed.

Lemma shf_total_Qa1 a b c :
  Qa1 Q DD a -> Qa1 Q DD b -> shf_total a b = Ok c -> Qa1 Q DD c.
Proof.
  intros Ha Hb. unfold shf_total.
  destruct (np_sub a b) as [x|e] eqn:E; cbn [rbind]; [|discriminate].
  intros H. inversion H; subst.
  apply Qa1_divr, Qa1_scale. eauto using Qa1_sub.
Qed.

(** the composite-space embedding of an electron operator and of the
    operator of neighbour [idx] *)
Lemma Qa_embed_pair idx ne term x :
  nth_error (neighbours p) idx = Some ne ->
  Qa Q (n_multH ne) term -> Qa Q dS x ->
  Qa Q DD (expand_at (neighbours p) idx term (kron x (identity dI))).
Proof.
  intros Hn Ht Hx. apply (Qa_expand_at HQ) with (ne := ne); auto.
  - apply wf_neighbours.
  - apply (Qa_kron HQ); [assumption|]. apply (Qa_identity HQ). lia.
Qed.

Lemma mu_REI_Q g : exists t, mu_REI p g = Ok t /\ Qstk Q dS t.
Proof.
  unfold mu_REI.
  assert (E : scale (RtoC mu_b) (of_mat33 g) =
              Arr2 (tab2 3 3 (fun i j => RtoC mu_b * get2 (rows33 g) i j)%C))
    by reflexivity.
  rewrite E.
  destruct (@Qstack_contract
              (tab2 3 3 (fun i j => RtoC mu_b * get2 (rows33 g) i j)%C))
    as (t & Et & Ht).
  - apply rect_tab2.
  - intros i j Hi Hj. rewrite get2_tab2 by assumption.
    apply creal_mul; [apply creal_RtoC|apply creal_rows33].
  - rewrite Et. cbn [rbind]. eexists. split; [reflexivity|].
    apply Qstack_smap; [|exact Ht]. intros a. apply (Qa_neg HQ).
Qed.

Lemma mu_host_Q ne :
  wf_neighbour ne ->
  Qstk Q (n_multH ne)
    (smap (scale (RtoC (mu_n * n_g_n_host ne))) (n_H ne)).
Proof.
  intros (Hm & HH & _). rewrite Hm, HH.
  apply Qstack_smap; [|apply Qstack_spin]. intros a. apply (Qa_scale HQ).
Qed.


Ltac step H :=
  match type of H with
  | rbind ?r _ = Ok _ =>
      let E := fresh "E" in
      destruct r eqn:E; cbn [rbind] in H; [|discriminate H]
  end.

Lemma dot_ok_use n v3 coef x a :
  dot_ok Q n v3 -> real_vec3 coef ->
  matmul coef v3 = Ok x -> reshape2 (flatten x) n n = Ok a -> Qa Q n a.
Proof.
  intros Hd (u & -> & Hl & Hc) Hx Ha.
  destruct (Hd u Hl Hc) as (a' & Ea & Hq).
  rewrite Hx in Ea. cbn [rbind] in Ea. congruence.
Qed.

Lemma shf_neighbour_Qa mu_gs mu_es v3gs v3es idx ne acc acc' :
  Qstk Q dS mu_gs -> Qstk Q dS mu_es ->
  dot_ok Q dS v3gs -> dot_ok Q dS v3es ->
  nth_error (neighbours p) idx = Some ne ->
  (let '(fg, fe, sg, se) := acc in
   Qa1 Q DD fg /\ Qa1 Q DD fe /\ Qa1 Q DD sg /\ Qa1 Q DD se) ->
  shf_neighbour p mu_gs mu_es v3gs v3es (idx, ne) acc = Ok acc' ->
  (let '(fg, fe, sg, se) := acc' in
   Qa Q DD fg /\ Qa Q DD fe /\ Qa Q DD sg /\ Qa Q DD se).
Proof.
  intros Hmg Hme Hvg Hve Hnth Hacc H.
  destruct acc as [[[fg fe] sg] se]. destruct Hacc as (Hfg & Hfe & Hsg & Hse).
  assert (Hne : wf_neighbour ne).
  { pose proof wf_neighbours as Hns. rewrite Forall_forall in Hns.
    apply Hns. eapply nth_error_In; eauto. }
  assert (HmS : multS p = dS) by apply Hp.
  assert (HmI : multI p = dI) by apply Hp.
  unfold shf_neighbour in H. rewrite HmS, HmI in H.
  pose proof (mu_host_Q Hne) as Hmh.
  destruct (Qstack_dot Hmh) as (v3h & Ev & Hvh).
  rewrite Ev in H. cbn [rbind] in H.
  assert (Hreal : real_vec3 (n_disp_vector ne)) by apply Hne.
  step H. destruct a as [fg' fe'].
  assert (Hf : Qa Q DD fg' /\ Qa Q DD fe').
  { revert E.
    apply (@for_each_inv2 nat (ndarray * ndarray)
             (fun s => Qa1 Q DD (fst s) /\ Qa1 Q DD (snd s))
             (fun s => Qa Q DD (fst s) /\ Qa Q DD (snd s))).
    - discriminate.
    - intros i [g0 e0] [g1 e1] Hi [Hg0 He0] Hb. cbn [fst snd] in *.
      assert (Hi3 : i < 3) by (cbn in Hi; lia).
      step Hb. step Hb. inversion Hb; subst. split.
      + eapply Qa1_iadd; [exact Hg0| |exact E].
        apply (Qa_divr HQ). apply Qa_embed_pair with (ne := ne); auto.
      + eapply Qa1_iadd; [exact He0| |exact E0].
        apply (Qa_divr HQ). apply Qa_embed_pair with (ne := ne); auto.
    - intros s0 [? ?]. split; now right.
    - now split. }
  destruct Hf as [Hfg' Hfe'].
  do 6 step H.
  assert (Hdg : Qa Q dS a0) by exact (dot_ok_use Hvg Hreal E0 E1).
  assert (Hde : Qa Q dS a2) by exact (dot_ok_use Hve Hreal E2 E3).
  assert (Hdh : Qa Q (n_multH ne) a4)
    by exact (@dot_ok_use (n_multH ne) v3h _ _ _ Hvh Hreal E4 E5).
  do 2 step H. inversion H; subst.
  split; [assumption|]. split; [assumption|]. split.
  - eapply Qa1_iadd; [exact Hsg| |eassumption].
    apply (Qa_scale HQ). apply Qa_embed_pair with (ne := ne); auto.
  - eapply Qa1_iadd; [exact Hse| |eassumption].
    apply (Qa_scale HQ). apply Qa_embed_pair with (ne := ne); auto.
Qed.

Lemma superhyperfine_Qa1 sg se :
  superhyperfine p = Ok (sg, se) -> Qa1 Q DD sg /\ Qa1 Q DD se.
Proof.
  unfold superhyperfine. intros H.
  destruct (mu_REI_Q (g_gs p)) as (mg & Emg & Hmg).
  destruct (mu_REI_Q (g_es p)) as (me & Eme & Hme).
  rewrite Emg, Eme in H. cbn [rbind] in H.
  assert (HmS : multS p = dS) by apply Hp. rewrite HmS in H.
  destruct (Qstack_dot Hmg) as (vg & Evg & Hvg).
  destruct (Qstack_dot Hme) as (ve & Eve & Hve).
  rewrite Evg, Eve in H. cbn [rbind] in H.
  step H. destruct a as [[[fg fe] s1] s2].
  assert (Hacc : Qa1 Q DD fg /\ Qa1 Q DD fe /\ Qa1 Q DD s1 /\ Qa1 Q DD s2).
  { revert E.
    apply (@for_each_inv (nat * Neighbour) shf_acc
             (fun acc => let '(fg, fe, sg, se) := acc in
                Qa1 Q DD fg /\ Qa1 Q DD fe /\ Qa1 Q DD sg /\ Qa1 Q DD se)).
    - intros [idx ne] acc acc1 Hin Hacc Hb.
      apply in_enumerate in Hin.
      pose proof (@shf_neighbour_Qa mg me vg ve idx ne acc acc1
                    Hmg Hme Hvg Hve Hin Hacc Hb) as HJ.
      destruct acc1 as [[[a1 a2] a3] a4].
      destruct HJ as (? & ? & ? & ?).
      split; [now right|]. split; [now right|]. split; now right.
    - split; [apply Qa1_num0|]. split; [apply Qa1_num0|].
      split; apply Qa1_num0. }
  destruct Hacc as (Hfg & Hfe & Hs1 & Hs2).
  do 2 step H. inversion H; subst.
  split; [exact (shf_total_Qa1 Hfg Hs1 E0)|exact (shf_total_Qa1 Hfe Hs2 E1)].
Qed.

(** *** The Zeeman terms *)

Lemma real_vec3_scale x a : real_vec3 a -> real_vec3 (scale (RtoC x) a).
Proof.
  intros (u & -> & Hl & Hc). exists (map (Cmul (RtoC x)) u).
  split; [reflexivity|]. split; [now rewrite length_map|].
  intros k. unfold get1. destruct (Nat.lt_ge_cases k (length u)) as [Hk|Hk].
  - rewrite (nth_indep _ C0 (RtoC x * C0)%C) by now rewrite length_map.
    rewrite map_nth. apply creal_mul; [apply creal_RtoC|apply Hc].
  - rewrite nth_overflow by now rewrite length_map. apply creal_0.
Qed.

Lemma real_vec3_B_vec B t f : real_vec3 (B_vec_of B t f).
Proof.
  unfold B_vec_of. apply real_vec3_scale. eexists. split; [reflexivity|].
  split; [reflexivity|]. intros k. unfold get1.
  destruct k as [|[|[|k]]]; cbn [nth]; try apply creal_RtoC.
  destruct k; apply creal_0.
Qed.

Lemma real_vec3_matmul a g :
  real_vec3 a -> exists b, matmul a (of_mat33 g) = Ok b /\ real_vec3 b.
Proof.
  intros (u & -> & Hl & Hc). unfold of_mat33, matmul.
  change (length [of_vec3 (fst (fst g)); of_vec3 (snd (fst g)); of_vec3 (snd g)])
    with 3.
  rewrite Hl. cbn [Nat.eqb]. eexists. split; [reflexivity|].
  eexists. split; [reflexivity|]. split; [apply length_tab1|].
  intros k. destruct (Nat.lt_ge_cases k 3) as [Hk|Hk].
  - rewrite get1_tab1 by exact Hk. apply creal_Csum. intros j Hj.
    apply creal_mul; [apply Hc|apply (creal_rows33 g)].
  - unfold get1. rewrite nth_overflow by (rewrite length_tab1; exact Hk).
    apply creal_0.
Qed.

(** a real vector contracted with the stacked operators of a spin *)
Lemma Qa_lincomb n a x b :
  real_vec3 a ->
  matmul a (v3_of n) = Ok x -> reshape2 (flatten x) (n + 1) (n + 1) = Ok b ->
  Qa Q (n + 1) b.
Proof.
  intros (u & -> & Hl & Hc) Hx Hb.
  pose proof (lincomb_eval n u Hl) as E. rewrite Hx in E. cbn [rbind] in E.
  rewrite Hb in E. inversion E; subst. apply (Qa_lin HQ). intros; apply Hc.
Qed.

Lemma zeeman_el_Qa g B_vec a :
  real_vec3 B_vec -> zeeman_el p g B_vec = Ok a -> Qa Q dS a.
Proof.
  intros HB H. unfold zeeman_el in H.
  destruct (real_vec3_matmul g (real_vec3_scale beta_el HB)) as (b & Eb & Hb).
  rewrite Eb in H. cbn [rbind] in H.
  assert (HmS : multS p = dS) by apply Hp.
  assert (Hv : Sv3 p = v3_of (spinS p)) by apply Hp.
  rewrite HmS, Hv in H. step H. eapply Qa_lincomb; eauto.
Qed.

Lemma zeeman_n_rei_Qa B_vec a :
  real_vec3 B_vec -> zeeman_n_rei p B_vec = Ok a -> Qa Q dI a.
Proof.
  intros HB H. unfold zeeman_n_rei in H.
  assert (HmI : multI p = dI) by apply Hp.
  assert (Hv : Iv3 p = v3_of (spinI p)) by apply Hp.
  rewrite HmI, Hv in H. step H.
  eapply Qa_lincomb; [|exact E|exact H]. now apply real_vec3_scale.
Qed.

Lemma zeeman_host_Qa B_vec idx ne acc acc' :
  real_vec3 B_vec ->
  nth_error (neighbours p) idx = Some ne ->
  Qa1 Q DD acc ->
  zeeman_host p B_vec (idx, ne) acc = Ok acc' -> Qa Q DD acc'.
Proof.
  intros HB Hnth Hacc H. unfold zeeman_host in H.
  assert (Hne : wf_neighbour ne).
  { pose proof wf_neighbours as Hns. rewrite Forall_forall in Hns.
    apply Hns. eapply nth_error_In; eauto. }
  assert (HmS : multS p = dS) by apply Hp.
  assert (HmI : multI p = dI) by apply Hp.
  pose proof Hne as (Hm & _ & Hv & _). rewrite HmS, HmI, Hv in H.
  do 2 step H.
  assert (Ht : Qa Q (n_multH ne) a0).
  { rewrite Hm in E0 |- *. eapply Qa_lincomb; [|exact E|exact E0].
    now apply real_vec3_scale. }
  eapply Qa1_iadd; [exact Hacc| |exact H].
  apply (Qa_expand_at HQ) with (ne := ne); auto.
  - apply wf_neighbours.
  - apply (Qa_kron HQ); apply (Qa_identity HQ); lia.
Qed.

Lemma Ok_inj4 {A B C' D'} (a a' : A) (b b' : B) (c c' : C') (d0 d' : D') :
  Ok (a, b, c, d0) = Ok (a', b', c', d') ->
  a = a' /\ b = b' /\ c = c' /\ d0 = d'.
Proof. intros H. inversion H. auto. Qed.

Lemma zeeman_terms_Qa B t f zg ze zn zh :
  zeeman_terms p B t f = Ok (zg, ze, zn, zh) ->
  Qa Q DD zg /\ Qa Q DD ze /\ Qa Q DD zn /\ Qa1 Q DD zh.
Proof.
  intros H. unfold zeeman_terms in H.
  pose proof (real_vec3_B_vec B t f) as HB.
  assert (HmS : multS p = dS) by apply Hp.
  assert (HmI : multI p = dI) by apply Hp.
  do 3 step H. rewrite HmS, HmI in H. step H.
  apply Ok_inj4 in H. destruct H as (<- & <- & <- & <-).
  pose proof (zeeman_el_Qa _ HB E) as Hg.
  pose proof (zeeman_el_Qa _ HB E0) as He.
  pose proof (zeeman_n_rei_Qa HB E1) as Hn.
  split; [|split; [|split]].
  - apply (Qa_expand_hosts HQ); [apply wf_neighbours|].
    apply (Qa_kron HQ); [assumption|apply (Qa_identity HQ); lia].
  - apply (Qa_expand_hosts HQ); [apply wf_neighbours|].
    apply (Qa_kron HQ); [assumption|apply (Qa_identity HQ); lia].
  - apply (Qa_expand_hosts HQ); [apply wf_neighbours|].
    apply (Qa_kron HQ); [apply (Qa_identity HQ); lia|assumption].
  - revert E2.
    apply (@for_each_inv (nat * Neighbour) ndarray (Qa1 Q DD)).
    + intros [idx ne] acc acc1 Hin Hacc Hb. apply in_enumerate in Hin.
      right. eapply zeeman_host_Qa; eauto.
    + apply Qa1_num0.
Qed.

Lemma zeeman_sum_Qa zg zn zh z :
  Qa Q DD zg -> Qa Q DD zn -> Qa1 Q DD zh ->
  zeeman_sum zg zn zh = Ok z -> Qa Q DD z.
Proof.
  intros Hg Hn Hh H. unfold zeeman_sum in H. step H.
  eapply Qa_sub_Qa1; [|exact Hh|exact H].
  eapply Qa_sub_Qa1; [exact Hg|right; exact Hn|exact E].
Qed.
End WithParams.
End Pipeline.

(** ** The methods, case by case *)

Lemma update_zeeman_ham_cases B t f st :
  update_zeeman_ham B t f st =
  match zeeman_terms (params st) B t f with
  | Raise e => (Raise e, st)
  | Ok (zg, ze, zn, zh) =>
      match np_add (HHF_gs st) (H_SHF_gs st) with
      | Raise e => (Raise e, st)
      | Ok bg =>
          match np_add (HHF_es st) (H_SHF_es st) with
          | Raise e => (Raise e, set_H_gs bg st)
          | Ok be =>
              let st1 := set_H_es be (set_H_gs bg st) in
              match zeeman_sum zg zn zh with
              | Raise e => (Raise e, st1)
              | Ok z =>
                  match np_iadd bg z with
                  | Raise e => (Raise e, st1)
                  | Ok hg =>
                      let st2 := set_H_gs hg st1 in
                      match zeeman_sum ze zn zh with
                      | Raise e => (Raise e, st2)
                      | Ok z' =>
                          match np_iadd be z' with
                          | Raise e => (Raise e, st2)
                          | Ok he => (Ok tt, set_H_es he st2)
                          end
                      end
                  end
              end
          end
      end
  end.
Proof.
  unfold update_zeeman_ham, reset_ham, mbind, lift, attr, assign.
  destruct (zeeman_terms (params st) B t f) as [[[[zg ze] zn] zh]|e];
    [|reflexivity].
  destruct (np_add (HHF_gs st) (H_SHF_gs st)) as [bg|e]; [|reflexivity].
  cbn [HHF_es H_SHF_es set_H_gs].
  destruct (np_add (HHF_es st) (H_SHF_es st)) as [be|e]; [|reflexivity].
  cbn [H_gs H_es set_H_gs set_H_es].
  destruct (zeeman_sum zg zn zh) as [z|e]; [|reflexivity].
  destruct (np_iadd bg z) as [hg|e]; [|reflexivity].
  cbn [H_gs H_es set_H_gs set_H_es].
  destruct (zeeman_sum ze zn zh) as [z'|e]; [|reflexivity].
  destruct (np_iadd be z') as [he|e]; reflexivity.
Qed.

Ltac fields_in H :=
  cbn [params HHF_gs HHF_es H_SHF_gs H_SHF_es H_gs H_es
       E_gs eigvec_gs E_es eigvec_es
       set_HHF_gs set_HHF_es set_H_SHF_gs set_H_SHF_es set_H_gs set_H_es
       set_E_gs set_eigvec_gs set_E_es set_eigvec_es fst snd] in H.

Lemma assemble_ok p st :
  assemble (blank p) = (Ok tt, st) ->
  exists gs es sg se hg he,
    hyperfine_gs p = Ok gs /\ hyperfine_es p = Ok es /\
    superhyperfine p = Ok (sg, se) /\
    np_add gs sg = Ok hg /\ np_add es se = Ok he /\
    st = {| params := p;
            HHF_gs := gs; HHF_es := es; H_SHF_gs := sg; H_SHF_es := se;
            H_gs := hg; H_es := he;
            E_gs := []; eigvec_gs := unset; E_es := []; eigvec_es := unset |}.
Proof.
  unfold assemble, initialize_HHF, initialize_SHF, reset_ham,
    mbind, lift, attr, assign, blank.
  intros H. fields_in H.
  destruct (hyperfine_gs p) as [gs|e] eqn:E1; [|discriminate H].
  destruct (hyperfine_es p) as [es|e] eqn:E2; [|discriminate H].
  fields_in H.
  destruct (superhyperfine p) as [[sg se]|e] eqn:E3; [|discriminate H].
  fields_in H.
  destruct (np_add gs sg) as [hg|e] eqn:E4; [|discriminate H].
  fields_in H.
  destruct (np_add es se) as [he|e] eqn:E5; [|discriminate H].
  inversion H; subst. exists gs, es, sg, se, hg, he.
  repeat split; auto.
Qed.

(** ** Invariants of the assembled object *)

Lemma expand_dim_mono ns a b : a <= b -> expand_dim ns a <= expand_dim ns b.
Proof.
  revert a b. induction ns as [|ne ns IH]; intros a b Hab; cbn; [assumption|].
  apply IH. nia.
Qed.

Lemma expand_dim_pos ns a :
  Forall wf_neighbour ns -> 0 < a -> 0 < expand_dim ns a.
Proof.
  intros Hns. revert a. induction Hns as [|ne ns Hne Hns IH]; intros a Ha; cbn;
    [assumption|].
  apply IH. apply wf_neighbour_pos in Hne. nia.
Qed.

Section StateInvariants.
Variable Q : nat -> (nat -> nat -> C) -> Prop.
Hypothesis HQ : closed Q.

Lemma Qa_add_Qa1 D a b c :
  Qa Q D a -> Qa1 Q D b -> np_add a b = Ok c -> Qa Q D c.
Proof.
  intros Ha [Hb|Hb] Hc;
    destruct (Qa_add_ok HQ Ha Hb Hc) as (r & Hr & Hq);
    rewrite ?bdim_1_r, ?bdim_refl in Hr; inversion Hr; subst; assumption.
Qed.

Lemma Qa_add_le D n m a b c :
  n <= D -> m <= D -> Qa Q n a -> Qa Q m b -> np_add a b = Ok c ->
  exists r, r <= D /\ Qa Q r c.
Proof.
  intros Hn Hm Ha Hb Hc.
  destruct (Qa_add_ok HQ Ha Hb Hc) as (r & Hr & Hq).
  exists r. split; [|assumption].
  destruct (bdim_some_inv _ _ Hr); lia.
Qed.

Lemma composite_dim_pos p : wf_params p -> 0 < composite_dim p.
Proof.
  intros Hp. unfold composite_dim. apply expand_dim_pos; [apply Hp|]. nia.
Qed.

Lemma ground_dim_le p :
  expand_dim (neighbours p) (spinS p + 1) <= composite_dim p.
Proof. unfold composite_dim. apply expand_dim_mono. nia. Qed.

Lemma Qa1_le D a : 0 < D -> Qa1 Q D a -> exists m, m <= D /\ Qa Q m a.
Proof. intros HD [H|H]; [exists 1|exists D]; split; auto; lia. Qed.

Lemma assemble_excited_inv p st :
  wf_params p -> assemble (blank p) = (Ok tt, st) ->
  params st = p /\ excited_inv Q st.
Proof.
  intros Hp H. destruct (@assemble_ok p st H)
    as (gs & es & sg & se & hg & he & Egs & Ees & Eshf & Ehg & Ehe & ->).
  split; [reflexivity|]. unfold excited_inv. cbn [params HHF_es H_SHF_es H_es].
  destruct (hyperfine_es_Qa HQ Hp) as (es' & Ees' & Hes).
  rewrite Ees in Ees'. inversion Ees'; subst es'.
  rewrite Nat.mul_comm in Hes. fold (composite_dim p) in Hes.
  destruct (superhyperfine_Qa1 HQ Hp Eshf) as [Hsg Hse].
  split; [exact Hes|]. split; [exact Hse|].
  exact (Qa_add_Qa1 Hes Hse Ehe).
Qed.

Lemma assemble_ground_inv p st :
  wf_params p ->
  Q (spinS p + 1) (gs_fun (spinS p) (rows33 (A_gs p))) ->
  assemble (blank p) = (Ok tt, st) ->
  ground_inv Q st.
Proof.
  intros Hp Hgsf H. destruct (@assemble_ok p st H)
    as (gs & es & sg & se & hg & he & Egs & Ees & Eshf & Ehg & Ehe & ->).
  unfold ground_inv. cbn [params HHF_gs H_SHF_gs H_gs].
  destruct (hyperfine_gs_Qa HQ Hp Hgsf) as (gs' & Egs' & Hgs).
  rewrite Egs in Egs'. inversion Egs'; subst gs'.
  destruct (superhyperfine_Qa1 HQ Hp Eshf) as [Hsg Hse].
  split; [exact Hgs|]. split; [exact Hsg|].
  destruct (Qa1_le (composite_dim_pos Hp) Hsg) as (m & Hm & Hqm).
  exact (Qa_add_le (ground_dim_le p) Hm Hgs Hqm Ehg).
Qed.

(** a field update changes the two working Hamiltonians only *)
Lemma update_zeeman_ham_frame B t f st :
  let st' := snd (update_zeeman_ham B t f st) in
  params st' = params st /\
  HHF_gs st' = HHF_gs st /\ HHF_es st' = HHF_es st /\
  H_SHF_gs st' = H_SHF_gs st /\ H_SHF_es st' = H_SHF_es st /\
  E_gs st' = E_gs st /\ E_es st' = E_es st /\
  eigvec_gs st' = eigvec_gs st /\ eigvec_es st' = eigvec_es st.
Proof.
  rewrite update_zeeman_ham_cases.
  repeat match goal with
  | |- context [match ?r with Ok _ => _ | Raise _ => _ end] => destruct r
  | |- context [let '(_, _) := ?x in _] => destruct x
  end; cbn; repeat split; reflexivity.
Qed.

Lemma update_excited_inv B t f st :
  wf_params (params st) -> excited_inv Q st ->
  excited_inv Q (snd (update_zeeman_ham B t f st)).
Proof.
  intros Hp (Hes & Hse & He).
  destruct (update_zeeman_ham_frame B t f st) as (Ep & _ & Ees & _ & Ese & _).
  unfold excited_inv. rewrite Ep, Ees, Ese.
  split; [exact Hes|]. split; [exact Hse|].
  rewrite update_zeeman_ham_cases.
  destruct (zeeman_terms (params st) B t f) as [[[[zg ze] zn] zh]|e] eqn:Ez;
    [|exact He].
  destruct (@zeeman_terms_Qa Q HQ (params st) Hp B t f zg ze zn zh Ez) as (Hzg & Hze & Hzn & Hzh).
  destruct (np_add (HHF_gs st) (H_SHF_gs st)) as [bg|e]; [|exact He].
  destruct (np_add (HHF_es st) (H_SHF_es st)) as [be|e] eqn:Ebe; [|exact He].
  pose proof (Qa_add_Qa1 Hes Hse Ebe) as Hbe.
  cbn zeta.
  destruct (zeeman_sum zg zn zh) as [z|e]; [|exact Hbe].
  destruct (np_iadd bg z) as [hg|e]; [|exact Hbe].
  destruct (zeeman_sum ze zn zh) as [z'|e] eqn:Ez'; [|exact Hbe].
  pose proof (@zeeman_sum_Qa Q HQ (params st) ze zn zh z' Hze Hzn Hzh Ez') as Hz'.
  destruct (np_iadd be z') as [he|e] eqn:Ehe; [|exact Hbe].
  cbn [snd H_es set_H_es].
  exact (@Qa1_iadd Q HQ (params st) be z' he (or_intror Hbe) Hz' Ehe).
Qed.

Lemma update_ground_inv B t f st :
  wf_params (params st) -> ground_inv Q st ->
  ground_inv Q (snd (update_zeeman_ham B t f st)).
Proof.
  intros Hp (Hgs & Hsg & Hg).
  destruct (update_zeeman_ham_frame B t f st) as (Ep & Egs & _ & Esg & _).
  unfold ground_inv. rewrite Ep, Egs, Esg.
  split; [exact Hgs|]. split; [exact Hsg|].
  rewrite update_zeeman_ham_cases.
  destruct (zeeman_terms (params st) B t f) as [[[[zg ze] zn] zh]|e] eqn:Ez;
    [|exact Hg].
  destruct (@zeeman_terms_Qa Q HQ (params st) Hp B t f zg ze zn zh Ez) as (Hzg & Hze & Hzn & Hzh).
  destruct (np_add (HHF_gs st) (H_SHF_gs st)) as [bg|e] eqn:Ebg; [|exact Hg].
  destruct (Qa1_le (composite_dim_pos Hp) Hsg) as (m & Hm & Hqm).
  pose proof (Qa_add_le (ground_dim_le (params st)) Hm Hgs Hqm Ebg) as Hbg.
  destruct (np_add (HHF_es st) (H_SHF_es st)) as [be|e]; [|exact Hbg].
  cbn zeta.
  destruct (zeeman_sum zg zn zh) as [z|e] eqn:Ez1; [|exact Hbg].
  pose proof (@zeeman_sum_Qa Q HQ (params st) zg zn zh z Hzg Hzn Hzh Ez1) as Hz.
  destruct (np_iadd bg z) as [hg|e] eqn:Ehg; [|exact Hbg].
  assert (Hhg : exists n, n <= composite_dim (params st) /\ Qa Q n hg).
  { destruct Hbg as (r & Hr & Hqr). apply np_iadd_add in Ehg.
    exact (Qa_add_le Hr (Nat.le_refl _) Hqr Hz Ehg). }
  destruct (zeeman_sum ze zn zh) as [z'|e]; [|exact Hhg].
  destruct (np_iadd be z') as [he|e]; exact Hhg.
Qed.
End StateInvariants.

(** ** The Hermitian family *)

Lemma spin_fun_herm n k i j : spin_fun n k j i = Cconj (spin_fun n k i j).
Proof.
  destruct k as [|[|k]]; cbn [spin_fun].
  - rewrite !sx_entry_ladder. nat_tests; subst; try lia; cring.
  - rewrite !sy_entry_ladder. nat_tests; subst; try lia; cring.
  - unfold sz_entry. nat_tests; subst; try lia; cring.
Qed.

Lemma closed_herm_on : closed herm_on.
Proof.
  constructor; unfold herm_on.
  - intros n f g Hfg Hf i j Hi Hj. rewrite <- !Hfg by assumption. now apply Hf.
  - intros n i j _ _. unfold id_fun. rewrite (Nat.eqb_sym j i).
    destruct (i =? j); cring.
  - intros n m f g Hn Hm Hf Hg i j Hi Hj. unfold kron_fun.
    rewrite Cconj_mul, <- Hf, <- Hg; auto using Nat.mod_upper_bound;
      try (apply Nat.mod_upper_bound; lia);
      apply Nat.Div0.div_lt_upper_bound; lia.
  - intros n m r f g Hr Hf Hg i j Hi Hj. unfold bin_fun.
    destruct (bdim_bidx _ _ Hr Hi) as (? & ? & _).
    destruct (bdim_bidx _ _ Hr Hj) as (? & ? & _).
    rewrite Cconj_add, <- Hf, <- Hg; auto.
  - intros n m r f g Hr Hf Hg i j Hi Hj. unfold bin_fun.
    destruct (bdim_bidx _ _ Hr Hi) as (? & ? & _).
    destruct (bdim_bidx _ _ Hr Hj) as (? & ? & _).
    rewrite Cconj_sub, <- Hf, <- Hg; auto.
  - intros x n f Hf i j Hi Hj. rewrite Cconj_mul, Cconj_RtoC, <- Hf; auto.
  - intros x n f Hf i j Hi Hj. rewrite Hf by assumption. cring.
  - intros n f Hf i j Hi Hj. rewrite Hf by assumption. cring.
  - intros n coef Hc i j Hi Hj. unfold lin_fun.
    rewrite Csum_conj. apply Csum_ext. intros k Hk.
    rewrite Cconj_mul, (Hc k Hk), <- spin_fun_herm. reflexivity.
Qed.

Lemma closed_any_on : closed any_on.
Proof. constructor; unfold any_on; auto. Qed.

Lemma Csum_lin3 d (s t0 t1 t2 : nat -> C) (a0 a1 a2 : C) :
  Csum d (fun k => s k * (C0 + a0 * t0 k + a1 * t1 k + a2 * t2 k))%C =
  (a0 * Csum d (fun k => s k * t0 k) + a1 * Csum d (fun k => s k * t1 k) +
   a2 * Csum d (fun k => s k * t2 k))%C.
Proof.
  induction d as [|d IH]; cbn [Csum]; [cring|]. rewrite IH. cring.
Qed.

Lemma gs_term_direct n i0 (a0 a1 a2 : C) i j :
  Csum (n + 1) (fun k => spin_fun n i0 j k *
     (C0 + a0 * spin_fun n 0 k i + a1 * spin_fun n 1 k i
         + a2 * spin_fun n 2 k i))%C =
  (a0 * Csum (n + 1) (fun k => spin_fun n i0 j k * spin_fun n 0 k i) +
   a1 * Csum (n + 1) (fun k => spin_fun n i0 j k * spin_fun n 1 k i) +
   a2 * Csum (n + 1) (fun k => spin_fun n i0 j k * spin_fun n 2 k i))%C.
Proof. apply Csum_lin3. Qed.




(** ** The constructors build well-formed parameters *)

Lemma real_vec3_of_vec3 v : real_vec3 (Arr1 (of_vec3 v)).
Proof.
  eexists. split; [reflexivity|]. split; [reflexivity|]. apply creal_of_vec3.
Qed.

Lemma new_Neighbour_wf inp ne : new_Neighbour inp = Ok ne -> wf_neighbour ne.
Proof.
  destruct inp as [[[disp spinH] g] el]. unfold new_Neighbour.
  rewrite generate_spin_matrices_eq. cbn [rbind].
  rewrite v3_of_eq. cbn [rbind]. intros [= <-].
  unfold wf_neighbour.
  cbn [n_multH n_spinH n_H n_Hv3 n_disp_vector].
  repeat split; try reflexivity.
  exact (@real_vec3_scale (/ 10 ^ 10) _ (real_vec3_of_vec3 disp)).
Qed.

Lemma map_result_Forall {A B} (f : A -> result B) (P : B -> Prop) l l' :
  (forall a b, f a = Ok b -> P b) -> map_result f l = Ok l' -> Forall P l'.
Proof.
  intros Hf. revert l'. induction l as [|a l IH]; intros l' H; cbn in H.
  - inversion H. constructor.
  - destruct (f a) as [b|e] eqn:E; cbn [rbind] in H; [|discriminate].
    destruct (map_result f l) as [bs|e]; cbn [rbind] in H; [|discriminate].
    inversion H; subst. constructor; eauto.
Qed.

Lemma new_Params_wf spinS0 spinI0 g_gs0 g_es0 A_gs0 A_es0 g_n nl p :
  new_Params spinS0 spinI0 g_gs0 g_es0 A_gs0 A_es0 g_n nl = Ok p ->
  wf_params p /\ spinS p = spinS0 /\ spinI p = spinI0 /\
  A_gs p = A_gs0 /\ A_es p = A_es0 /\ g_gs p = g_gs0 /\ g_es p = g_es0.
Proof.
  unfold new_Params. rewrite !generate_spin_matrices_eq. cbn [rbind].
  rewrite !v3_of_eq. cbn [rbind].
  destruct (map_result new_Neighbour nl) as [ns|e] eqn:E; cbn [rbind];
    [|discriminate].
  intros [= <-]. unfold wf_params.
  cbn [multS multI spinS spinI S_ Sv3 I_ Iv3 neighbours A_gs A_es g_gs g_es].
  repeat split; try reflexivity.
  eapply map_result_Forall; [|exact E]. apply new_Neighbour_wf.
Qed.

Lemma assembled_inv spinS0 spinI0 g_gs0 g_es0 A_gs0 A_es0 g_n nl st :
  assembled spinS0 spinI0 g_gs0 g_es0 A_gs0 A_es0 g_n nl = Ok st ->
  wf_params (params st) /\ assemble (blank (params st)) = (Ok tt, st) /\
  spinS (params st) = spinS0 /\ spinI (params st) = spinI0 /\
  A_gs (params st) = A_gs0.
Proof.
  unfold assembled. intros H.
  destruct (new_Params spinS0 spinI0 g_gs0 g_es0 A_gs0 A_es0 g_n nl)
    as [p|e] eqn:Ep; cbn [rbind] in H; [|discriminate].
  destruct (new_Params_wf _ _ _ _ _ _ _ _ Ep) as (Hp & HS & HI & HA & _).
  destruct (assemble (blank p)) as [[[]|e] s] eqn:Ea; [|discriminate].
  inversion H; subst s.
  destruct (@assemble_excited_inv any_on closed_any_on p st Hp Ea) as [Epar _].
  rewrite Epar. split; [exact Hp|]. split; [exact Ea|]. auto.
Qed.

Lemma after_updates_cons b fields st :
  after_updates (b :: fields) st =
  after_updates fields
    (snd (update_zeeman_ham (fst (fst b)) (snd (fst b)) (snd b) st)).
Proof. reflexivity. Qed.

Lemma after_updates_params fields st :
  params (after_updates fields st) = params st.
Proof.
  revert st. induction fields as [|b fields IH]; intros st; [reflexivity|].
  rewrite after_updates_cons, IH.
  apply update_zeeman_ham_frame.
Qed.





(** ** The pairs of a manifold *)

Lemma flat_map_nil_tail {A} (F : nat -> list A) a k :
  (forall i, a <= i -> F i = []) -> flat_map F (seq a k) = [].
Proof.
  revert a. induction k as [|k IH]; intros a H; cbn [seq flat_map];
    [reflexivity|].
  rewrite (H a) by lia. rewrite IH; [reflexivity|].
  intros i Hi. apply H. lia.
Qed.

Lemma flat_map_seq_trunc {A} (F : nat -> list A) k m :
  (forall i, k <= i -> F i = []) -> k <= m ->
  flat_map F (seq 0 m) = flat_map F (seq 0 k).
Proof.
  intros H Hkm. replace m with (k + (m - k)) by lia.
  rewrite seq_app, flat_map_app. cbn [Nat.add].
  rewrite (flat_map_nil_tail F (m - k) H). apply app_nil_r.
Qed.

Lemma map_flat_map {A B D} (g : B -> D) (F : A -> list B) l :
  map g (flat_map F l) = flat_map (fun x => map g (F x)) l.
Proof.
  induction l as [|x l IH]; cbn [flat_map map]; [reflexivity|].
  now rewrite map_app, IH.
Qed.

Lemma pair_transitions_exact outer E :
  length E <= outer + 1 -> pair_transitions outer E = manifold_transitions E.
Proof.
  intros Hle. unfold pair_transitions, manifold_transitions, index_pairs.
  rewrite map_flat_map.
  assert (Hnil : forall i, length E - 1 <= i ->
            map (fun j => ((get1 E j - get1 E i)%C, (1, 1, 1)))
                (py_range (i + 1) (length E)) = []).
  { intros i Hi. unfold py_range.
    replace (length E - (i + 1)) with 0 by lia. reflexivity. }
  rewrite (flat_map_seq_trunc _ Hnil) by lia.
  rewrite <- (flat_map_seq_trunc _ Hnil (m := length E)) by lia.
  apply flat_map_ext. intros i. rewrite map_map. reflexivity.
Qed.

Lemma in_index_pairs n i j : In (i, j) (index_pairs n) <-> i < j < n.
Proof.
  unfold index_pairs. rewrite in_flat_map. split.
  - intros (k & Hk & Hin). apply in_map_iff in Hin.
    destruct Hin as (l & [= <- <-] & Hl). apply in_seq in Hk, Hl. lia.
  - intros H. exists i. split; [apply in_seq; lia|].
    apply in_map_iff. exists j. split; [reflexivity|]. apply in_seq. lia.
Qed.

Lemma NoDup_map_pair (i : nat) (l : list nat) :
  NoDup l -> NoDup (map (pair i) l).
Proof.
  induction 1 as [|x l Hx Hl IH]; cbn [map]; constructor; [|assumption].
  intros Hin. apply in_map_iff in Hin. destruct Hin as (y & [= ->] & Hy).
  contradiction.
Qed.

Lemma NoDup_rows (l : nat -> list nat) a k :
  (forall i, NoDup (l i)) ->
  NoDup (flat_map (fun i => map (pair i) (l i)) (seq a k)).
Proof.
  intros Hl. revert a. induction k as [|k IH]; intros a; cbn [seq flat_map];
    [constructor|].
  apply NoDup_app.
  - apply NoDup_map_pair, Hl.
  - apply IH.
  - intros [i j] Hin Hin'. apply in_map_iff in Hin.
    destruct Hin as (x & [= <- <-] & _).
    apply in_flat_map in Hin'. destruct Hin' as (i' & Hi' & Hin').
    apply in_map_iff in Hin'. destruct Hin' as (y & [= <- <-] & _).
    apply in_seq in Hi'. lia.
Qed.

Lemma NoDup_index_pairs n : NoDup (index_pairs n).
Proof. apply NoDup_rows. intros i. apply seq_NoDup. Qed.

Lemma length_rows n a k :
  a + k = n ->
  2 * length (flat_map (fun i => map (pair i) (seq (i + 1) (n - (i + 1))))
                (seq a k)) = k * (k - 1).
Proof.
  revert a. induction k as [|k IH]; intros a H; cbn [seq flat_map];
    [reflexivity|].
  rewrite length_app, length_map, length_seq.
  specialize (IH (S a) ltac:(lia)).
  replace (n - (a + 1)) with k by lia. nia.
Qed.

Lemma length_index_pairs n : 2 * length (index_pairs n) = n * (n - 1).
Proof. apply length_rows. reflexivity. Qed.

(** ** The lengths of the spectra *)

Lemma mbind_snd_inv {A B} (I : SpinSystem -> Prop) (m : M A) (k : A -> M B) :
  (forall s, I s -> I (snd (m s))) ->
  (forall x s, I s -> I (snd (k x s))) ->
  forall s, I s -> I (snd (mbind m k s)).
Proof.
  intros Hm Hk s Hs. unfold mbind. specialize (Hm s Hs).
  destruct (m s) as [[x|e] s']; cbn [snd] in *; auto.
Qed.

Lemma eig_length {diag : Diagonalizer} n a w v :
  diag_ok diag -> Qa any_on n a -> eig a = Ok (w, v) -> length w = n.
Proof.
  intros [Hd _] (_ & f & Hf & _) He.
  destruct (Hd a w v He) as (m & Hs & Hw).
  destruct a as [z|u|l]; cbn [shape] in Hs; try discriminate.
  cbn [sem2] in Hf. subst l. rewrite length_tab2 in Hs. congruence.
Qed.

Lemma calc_energies_cases {diag : Diagonalizer} st :
  calc_energies st =
  match eig (H_gs st) with
  | Raise e => (Raise e, st)
  | Ok (wg, vg) =>
      let st1 := set_E_gs (sorted wg) st in
      match take_columns vg (argsort wg) with
      | Raise e => (Raise e, st1)
      | Ok cg =>
          let st2 := set_eigvec_gs cg st1 in
          match eig (H_es st) with
          | Raise e => (Raise e, st2)
          | Ok (we, ve) =>
              let st3 := set_E_es (sorted we) st2 in
              match take_columns ve (argsort we) with
              | Raise e => (Raise e, st3)
              | Ok ce => (Ok tt, set_eigvec_es ce st3)
              end
          end
      end
  end.
Proof.
  unfold calc_energies, mbind, lift, attr, assign.
  destruct (eig (H_gs st)) as [[wg vg]|e]; [|reflexivity].
  destruct (take_columns vg (argsort wg)) as [cg|e]; [|reflexivity].
  cbn [H_es set_E_gs set_eigvec_gs].
  destruct (eig (H_es st)) as [[we ve]|e]; [|reflexivity].
  destruct (take_columns ve (argsort we)) as [ce|e]; reflexivity.
Qed.

Lemma state_inv_frame st st' :
  params st' = params st ->
  HHF_gs st' = HHF_gs st -> HHF_es st' = HHF_es st ->
  H_SHF_gs st' = H_SHF_gs st -> H_SHF_es st' = H_SHF_es st ->
  H_gs st' = H_gs st -> H_es st' = H_es st ->
  length (E_es st') = composite_dim (params st) ->
  length (E_gs st') <= composite_dim (params st) ->
  state_inv st -> state_inv st'.
Proof.
  intros Ep E1 E2 E3 E4 E5 E6 Le Lg (Hp & He & Hg & _ & _).
  unfold state_inv, excited_inv, ground_inv in *.
  rewrite Ep, E1, E2, E3, E4, E5, E6. auto.
Qed.

Ltac by_frame st :=
  cbn zeta; apply (@state_inv_frame st);
  cbn [snd params HHF_gs HHF_es H_SHF_gs H_SHF_es H_gs H_es E_gs E_es
       set_E_gs set_eigvec_gs set_E_es set_eigvec_es];
  auto.

Lemma calc_energies_inv {diag : Diagonalizer} st :
  diag_ok diag -> state_inv st -> state_inv (snd (calc_energies st)).
Proof.
  intros Hd Hi. pose proof Hi as (Hp & (_ & _ & He) & (_ & _ & n & Hn & Hg)
                                   & Le & Lg).
  rewrite calc_energies_cases.
  destruct (eig (H_gs st)) as [[wg vg]|e] eqn:Eg; [|exact Hi].
  pose proof (eig_length Hd Hg Eg) as Lwg.
  assert (Lsg : length (sorted wg) <= composite_dim (params st))
    by (rewrite (proj2 Hd); lia).
  destruct (take_columns vg (argsort wg)) as [cg|e];
    [|by_frame st].
  cbn zeta.
  destruct (eig (H_es st)) as [[we ve]|e] eqn:Ee;
    [|by_frame st].
  pose proof (eig_length Hd He Ee) as Lwe.
  assert (Lse : length (sorted we) = composite_dim (params st))
    by (rewrite (proj2 Hd); lia).
  destruct (take_columns ve (argsort we)) as [ce|e];
    by_frame st.
Qed.

Lemma update_zeeman_ham_inv B t f st :
  state_inv st -> state_inv (snd (update_zeeman_ham B t f st)).
Proof.
  intros (Hp & He & Hg & Le & Lg).
  destruct (update_zeeman_ham_frame B t f st)
    as (Ep & _ & _ & _ & _ & Eg & Ee & _).
  unfold state_inv. rewrite Ep, Eg, Ee.
  split; [exact Hp|].
  split; [exact (@update_excited_inv any_on closed_any_on B t f st Hp He)|].
  split; [exact (@update_ground_inv any_on closed_any_on B t f st Hp Hg)|].
  auto.
Qed.

Lemma initialize_HHF_inv st :
  state_inv st -> state_inv (snd (initialize_HHF st)).
Proof.
  intros Hi. pose proof Hi as (Hp & (_ & Hse & He) & (_ & Hsg & Hg) & Le & Lg).
  unfold initialize_HHF, mbind, lift, attr, assign.
  destruct (@hyperfine_gs_Qa any_on closed_any_on (params st) Hp I)
    as (gs & Egs & Hgs).
  destruct (@hyperfine_es_Qa any_on closed_any_on (params st) Hp)
    as (es & Ees & Hes).
  rewrite Egs. cbn [params set_HHF_gs]. rewrite Ees. cbn [snd].
  rewrite Nat.mul_comm in Hes. fold (composite_dim (params st)) in Hes.
  unfold state_inv, excited_inv, ground_inv.
  cbn [params HHF_gs HHF_es H_SHF_gs H_SHF_es H_gs H_es E_gs E_es
       set_HHF_gs set_HHF_es].
  auto 10.
Qed.

Lemma initialize_SHF_inv st :
  state_inv st -> state_inv (snd (initialize_SHF st)).
Proof.
  intros Hi. pose proof Hi as (Hp & (Hes & _ & He) & (Hgs & _ & Hg) & Le & Lg).
  unfold initialize_SHF, mbind, lift, attr, assign.
  destruct (superhyperfine (params st)) as [[sg se]|e] eqn:Es; [|exact Hi].
  destruct (@superhyperfine_Qa1 any_on closed_any_on (params st) Hp sg se Es)
    as [Hsg Hse].
  unfold state_inv, excited_inv, ground_inv.
  cbn [snd params HHF_gs HHF_es H_SHF_gs H_SHF_es H_gs H_es E_gs E_es
       set_H_SHF_gs set_H_SHF_es].
  auto 10.
Qed.

Lemma reset_ham_inv st : state_inv st -> state_inv (snd (reset_ham st)).
Proof.
  intros Hi. pose proof Hi as (Hp & (Hes & Hse & He) & (Hgs & Hsg & Hg)
                                   & Le & Lg).
  unfold reset_ham, mbind, lift, attr, assign.
  destruct (np_add (HHF_gs st) (H_SHF_gs st)) as [bg|e] eqn:Ebg; [|exact Hi].
  destruct (@Qa1_le any_on _ _ (composite_dim_pos Hp) Hsg) as (m & Hm & Hqm).
  pose proof (@Qa_add_le any_on closed_any_on _ _ _ _ _ _
                (ground_dim_le (params st)) Hm Hgs Hqm Ebg) as Hbg.
  cbn [HHF_es H_SHF_es set_H_gs].
  destruct (np_add (HHF_es st) (H_SHF_es st)) as [be|e] eqn:Ebe.
  - pose proof (@Qa_add_Qa1 any_on closed_any_on _ _ _ _ Hes Hse Ebe) as Hbe.
    unfold state_inv, excited_inv, ground_inv.
    cbn [snd params HHF_gs HHF_es H_SHF_gs H_SHF_es H_gs H_es E_gs E_es
         set_H_gs set_H_es].
    auto 10.
  - unfold state_inv, excited_inv, ground_inv.
    cbn [snd params HHF_gs HHF_es H_SHF_gs H_SHF_es H_gs H_es E_gs E_es
         set_H_gs set_H_es].
    auto 10.
Qed.

Lemma update_B_inv {diag : Diagonalizer} B t f st :
  diag_ok diag -> state_inv st -> state_inv (snd (update_B B t f st)).
Proof.
  intros Hd. unfold update_B. apply mbind_snd_inv.
  - intros s. apply update_zeeman_ham_inv.
  - intros _ s. now apply calc_energies_inv.
Qed.

Lemma update_if_given_inv {diag : Diagonalizer} B t f st :
  diag_ok diag -> state_inv st -> state_inv (snd (update_if_given B t f st)).
Proof.
  intros Hd Hi. unfold update_if_given.
  destruct B as [b|]; [|exact Hi]. destruct t as [t|]; [|exact Hi].
  destruct f as [f|]; [|exact Hi]. now apply update_B_inv.
Qed.

Lemma run_call_inv {diag : Diagonalizer} c st :
  diag_ok diag -> state_inv st -> state_inv (snd (run_call c st)).
Proof.
  intros Hd Hi. destruct c; cbn [run_call].
  - now apply initialize_HHF_inv.
  - now apply initialize_SHF_inv.
  - now apply reset_ham_inv.
  - now apply update_zeeman_ham_inv.
  - now apply update_B_inv.
  - now apply calc_energies_inv.
  - now apply update_if_given_inv.
Qed.

Lemma after_calls_inv {diag : Diagonalizer} cs st :
  diag_ok diag -> state_inv st -> state_inv (after_calls cs st).
Proof.
  intros Hd. revert st. induction cs as [|c cs IH]; intros st Hi;
    [exact Hi|].
  apply IH. now apply run_call_inv.
Qed.

Lemma new_SpinSystem_inv {diag : Diagonalizer}
  spinS0 spinI0 g_gs0 g_es0 A_gs0 A_es0 g_n nl st :
  diag_ok diag ->
  new_SpinSystem spinS0 spinI0 g_gs0 g_es0 A_gs0 A_es0 g_n nl = Ok st ->
  state_inv st.
Proof.
  intros Hd H. unfold new_SpinSystem in H.
  destruct (new_Params spinS0 spinI0 g_gs0 g_es0 A_gs0 A_es0 g_n nl)
    as [p|e] eqn:Ep; cbn [rbind] in H; [|discriminate].
  destruct (new_Params_wf _ _ _ _ _ _ _ _ Ep) as (Hp & _).
  unfold mbind at 1 in H.
  destruct (assemble (blank p)) as [[[]|e] s1] eqn:Ea; [|discriminate].
  destruct (@assemble_excited_inv any_on closed_any_on p s1 Hp Ea)
    as [Epar He].
  pose proof (@assemble_ground_inv any_on closed_any_on p s1 Hp I Ea) as Hg.
  rewrite calc_energies_cases in H. subst p.
  pose proof He as (_ & _ & He'). pose proof Hg as (_ & _ & n & Hn & Hg').
  destruct (eig (H_gs s1)) as [[wg vg]|e] eqn:Eg; [|discriminate].
  pose proof (eig_length Hd Hg' Eg) as Lwg.
  destruct (take_columns vg (argsort wg)) as [cg|e]; [|discriminate].
  cbn zeta in H.
  destruct (eig (H_es s1)) as [[we ve]|e] eqn:Ee; [|discriminate].
  pose proof (eig_length Hd He' Ee) as Lwe.
  destruct (take_columns ve (argsort we)) as [ce|e]; [|discriminate].
  injection H as <-.
  unfold state_inv, excited_inv, ground_inv in *.
  cbn [params HHF_gs HHF_es H_SHF_gs H_SHF_es H_gs H_es E_gs E_es
       set_E_gs set_eigvec_gs set_E_es set_eigvec_es].
  rewrite !(proj2 Hd).
  split; [exact Hp|]. split; [exact He|]. split; [exact Hg|]. lia.
Qed.

(** C6: on every object that the constructor returns, after any sequence
    of calls, [spin_transitions] returns, whenever its field update does,
    for each manifold exactly the entries of the pairs (i, j) with
    i < j below the length of that manifold's own spectrum, each pair once,
    with energy [E[j] - E[i]] and strength (1, 1, 1); a spectrum of
    length n gives n (n - 1) / 2 entries. *)
Theorem spin_transitions_enumerates_pairs {diag : Diagonalizer}
  (spinS0 spinI0 : nat) (g_gs0 g_es0 A_gs0 A_es0 : mat33) (g_n : R)
  (nl : list neighbour_input) (st0 : SpinSystem) (calls : list call)
  (B B_theta B_phi : option R) :
  diag_ok diag ->
  new_SpinSystem spinS0 spinI0 g_gs0 g_es0 A_gs0 A_es0 g_n nl = Ok st0 ->
  spin_transitions B B_theta B_phi (after_calls calls st0) =
    match update_if_given B B_theta B_phi (after_calls calls st0) with
    | (Ok _, st) =>
        (Ok [manifold_transitions (E_gs st); manifold_transitions (E_es st)],
         st)
    | (Raise e, st) => (Raise e, st)
    end /\
  (forall E : list C,
     manifold_transitions E = map (transition_of E) (index_pairs (length E)) /\
     2 * length (manifold_transitions E) = length E * (length E - 1)) /\
  (forall n, NoDup (index_pairs n) /\
             forall i j, In (i, j) (index_pairs n) <-> i < j < n).
Proof.
  intros Hd H0. split; [|split].
  - pose proof (after_calls_inv calls Hd (new_SpinSystem_inv _ _ _ _ _ _ _ _ Hd H0))
      as Hi.
    pose proof (update_if_given_inv B B_theta B_phi Hd Hi) as Hi'.
    unfold spin_transitions, mbind at 1.
    destruct (update_if_given B B_theta B_phi (after_calls calls st0))
      as [[[]|e] st] eqn:Eu; [|reflexivity].
    cbn [snd] in Hi'. destruct Hi' as (_ & _ & _ & Le & Lg).
    unfold mbind, attr, mret.
    rewrite !pair_transitions_exact by lia. reflexivity.
  - intros E. split; [reflexivity|].
    unfold manifold_transitions. rewrite length_map.
    apply length_index_pairs.
  - intros n. split; [apply NoDup_index_pairs|apply in_index_pairs].
Qed.

Lemma diagonal_reader_ok : diag_ok diagonal_reader.
Proof.
  split; [|reflexivity].
  intros a w v H. cbn [eig diagonal_reader] in H.
  destruct a as [z|u|m]; try discriminate.
  destruct (length m =? ncols m) eqn:E; [|discriminate].
  apply Nat.eqb_eq in E. injection H as <- _.
  exists (length m). cbn [shape]. rewrite <- E, length_tab1. auto.
Qed.

Lemma spin_transitions_enumerates_pairs_witness :
  diag_ok diagonal_reader /\
  @new_SpinSystem diagonal_reader 1 0 g_iso g_iso zero33 zero33 0 [] =
    Ok half_spin_system /\
  @spin_transitions diagonal_reader None None None
    (@after_calls diagonal_reader [call_update_B 1 0 0] half_spin_system) =
    match @update_if_given diagonal_reader None None None
            (@after_calls diagonal_reader [call_update_B 1 0 0]
               half_spin_system) with
    | (Ok _, st) =>
        (Ok [manifold_transitions (E_gs st); manifold_transitions (E_es st)],
         st)
    | (Raise e, st) => (Raise e, st)
    end.
Proof.
  pose proof (@spin_transitions_enumerates_pairs diagonal_reader
                1 0 g_iso g_iso zero33 zero33 0 [] half_spin_system
                [call_update_B 1 0 0] None None None
                diagonal_reader_ok half_spin_system_built) as H.
  split; [exact diagonal_reader_ok|].
  split; [exact half_spin_system_built|].
  exact (proj1 H).
Defined.

(** the outer loop of the ground-state manifold runs over
    [range(len(self.E_es))]: were the excited spectrum shorter than the
    ground one by two or more, pairs would be missing; the lengths of the
    spectra of a constructed object exclude this *)
Remark ground_loop_bound :
  length (pair_transitions 1 [C0; C1; C1]) = 2 /\
  length (manifold_transitions [C0; C1; C1]) = 3.
Proof. split; reflexivity. Qed.

(** ** Arrays of zeros *)


















(** ** The Zeeman terms at zero field *)

Tactic Notation "bind_in" hyp(H) "as" ident(x) ident(E) :=
  match type of H with
  | rbind ?r _ = Ok _ =>
      destruct r as [x|] eqn:E; cbn [rbind] in H; [|discriminate H]
  end.










(** ** Adding zeros in place *)

Lemma normal_tab2 r c f : normal (Arr2 (tab2 r c f)).
Proof.
  unfold normal. rewrite length_tab2. destruct r as [|r]; [reflexivity|].
  rewrite ncols_tab2 by lia. apply tab2_ext. intros i j Hi Hj.
  now apply get2_tab2.
Qed.

Lemma normal_amap h a : normal (amap h a).
Proof. destruct a; cbn [amap]; try exact I. apply normal_tab2. Qed.

Lemma normal_binop h a b c : binop h a b = Ok c -> normal c.
Proof.
  intros H. unfold binop in H.
  destruct a as [x|u|m], b as [y|v|n];
    try (injection H as <-;
         first [exact I|apply normal_amap|apply normal_tab2]).
  - unfold binop1 in H. destruct (bdim _ _); [|discriminate].
    injection H as <-. exact I.
  - unfold binop2 in H. do 2 (destruct (bdim _ _); [|discriminate]).
    injection H as <-. apply normal_tab2.
  - unfold binop2 in H. do 2 (destruct (bdim _ _); [|discriminate]).
    injection H as <-. apply normal_tab2.
  - unfold binop2 in H. do 2 (destruct (bdim _ _); [|discriminate]).
    injection H as <-. apply normal_tab2.
Qed.


Lemma is_arr_binop_r h a b c : is_arr b -> binop h a b = Ok c -> is_arr c.
Proof.
  intros Hb H. unfold binop in H.
  destruct a as [x|u|m], b as [y|v|n]; try contradiction;
    try (injection H as <-; exact I).
  - unfold binop1 in H. destruct (bdim _ _); [|discriminate].
    injection H as <-. exact I.
  - unfold binop2 in H. do 2 (destruct (bdim _ _); [|discriminate]).
    injection H as <-. exact I.
  - unfold binop2 in H. do 2 (destruct (bdim _ _); [|discriminate]).
    injection H as <-. exact I.
  - unfold binop2 in H. do 2 (destruct (bdim _ _); [|discriminate]).
    injection H as <-. exact I.
Qed.





(** ** The Zeeman terms are always computed *)

Lemma rank2_kron a b : rank2 a -> rank2 (kron a b).
Proof.
  destruct a as [x|u|m]; [contradiction|contradiction|].
  destruct b; intros _; exact I.
Qed.

Lemma rank2_expand_hosts ns x : rank2 x -> rank2 (expand_hosts ns x).
Proof.
  unfold expand_hosts. revert x.
  induction ns as [|ne ns IH]; intros x Hx; cbn [fold_left]; [exact Hx|].
  apply IH. now apply rank2_kron.
Qed.





Section ZeemanTotal.
Variable p : Params.
Hypothesis Hp : wf_params p.





End ZeemanTotal.

(** ** The cached baseline *)

Lemma is_arr_kron_l a b : is_arr a -> is_arr (kron a b).
Proof. destruct a, b; try contradiction; intros _; exact I. Qed.

Lemma is_arr_kron_r a b : is_arr b -> is_arr (kron a b).
Proof. destruct a, b; try contradiction; intros _; exact I. Qed.

Lemma is_arr_expand_hosts ns x : is_arr x -> is_arr (expand_hosts ns x).
Proof.
  unfold expand_hosts. revert x.
  induction ns as [|ne ns IH]; intros x Hx; cbn [fold_left]; [exact Hx|].
  apply IH. now apply is_arr_kron_l.
Qed.

Lemma is_arr_matmul_r a n c : matmul a (Arr2 n) = Ok c -> is_arr c.
Proof.
  destruct a as [x|u|m]; cbn [matmul]; try discriminate;
    match goal with
    | |- (if ?t then _ else _) = _ -> _ => destruct t; [|discriminate]
    end; intros [= <-]; exact I.
Qed.

Lemma contract_S_rank2 p A t :
  contract_S p A = Ok t -> exists m0 m1 m2, t = (Arr2 m0, Arr2 m1, Arr2 m2).
Proof.
  unfold contract_S. intros H. bind_in H as m E. unfold reshape3 in H.
  destruct (_ =? _); [|discriminate]. injection H as <-. eauto.
Qed.

Lemma py_sum3_is_arr r0 r1 r2 x :
  py_sum [r0; r1; r2] = Ok x -> (forall c, r2 = Ok c -> is_arr c) ->
  is_arr x.
Proof.
  unfold py_sum. cbn [py_sum_from]. intros H Hc.
  bind_in H as x0 E0. bind_in H as a0 F0.
  bind_in H as x1 E1. bind_in H as a1 F1.
  bind_in H as x2 E2. bind_in H as a2 F2. injection H as <-.
  eapply is_arr_binop_r; [|exact F2]. now apply Hc.
Qed.

Lemma hyperfine_gs_is_arr p gs : hyperfine_gs p = Ok gs -> is_arr gs.
Proof.
  unfold hyperfine_gs. intros H. bind_in H as t E. bind_in H as x F.
  injection H as <-. apply is_arr_expand_hosts.
  destruct (contract_S_rank2 _ _ E) as (m0 & m1 & m2 & ->).
  cbn [map] in F. eapply py_sum3_is_arr; [exact F|].
  intros c Hc. cbn [item snd] in Hc. eapply is_arr_matmul_r; exact Hc.
Qed.

Lemma hyperfine_es_is_arr p es : hyperfine_es p = Ok es -> is_arr es.
Proof.
  unfold hyperfine_es. intros H. bind_in H as t E. bind_in H as x F.
  injection H as <-. apply is_arr_expand_hosts.
  destruct (contract_S_rank2 _ _ E) as (m0 & m1 & m2 & ->).
  cbn [map] in F. eapply py_sum3_is_arr; [exact F|].
  intros c [= <-]. apply is_arr_kron_r. exact I.
Qed.













(** ** Optical transitions without strengths *)

Lemma for_each_ext {A S} (l : list A) (body body' : A -> S -> result S) s :
  (forall a s0, In a l -> body a s0 = body' a s0) ->
  for_each l body s = for_each l body' s.
Proof.
  revert s. induction l as [|a l IH]; intros s H; cbn [for_each];
    [reflexivity|].
  rewrite (H a s) by now left. destruct (body' a s); cbn [rbind];
    [|reflexivity].
  apply IH. intros x y Hin. apply H. now right.
Qed.

Lemma for_each_append {A B} (l : list A) (f : A -> B) (acc : list B) :
  for_each l (fun a acc0 => Ok (acc0 ++ [f a])) acc = Ok (acc ++ map f l).
Proof.
  revert acc. induction l as [|a l IH]; intros acc; cbn [for_each map rbind].
  - now rewrite app_nil_r.
  - rewrite IH, <- app_assoc. reflexivity.
Qed.

Lemma combine_seq_map (l : list C) k :
  combine (seq k (length l)) l =
  map (fun i => (i, get1 l (i - k))) (seq k (length l)).
Proof.
  revert k. induction l as [|a l IH]; intros k; [reflexivity|].
  cbn [length seq combine map]. rewrite Nat.sub_diag. f_equal.
  rewrite IH. apply map_ext_in. intros i Hi. apply in_seq in Hi.
  unfold get1. replace (i - k) with (S (i - S k)) by lia. reflexivity.
Qed.

Lemma enumerate_map (l : list C) :
  enumerate l = map (fun i => (i, get1 l i)) (seq 0 (length l)).
Proof.
  unfold enumerate. rewrite combine_seq_map. apply map_ext.
  intros i. now rewrite Nat.sub_0_r.
Qed.

Lemma list_prod_map {A B A' B'} (f : A -> A') (g : B -> B') l1 l2 :
  list_prod (map f l1) (map g l2) =
  map (fun ab => (f (fst ab), g (snd ab))) (list_prod l1 l2).
Proof.
  induction l1 as [|a l1 IH]; cbn [list_prod map]; [reflexivity|].
  rewrite map_app, IH, !map_map. reflexivity.
Qed.

Lemma nth_error_list_prod {A B} (l1 : list A) (l2 : list B) i j a b :
  nth_error l1 i = Some a -> nth_error l2 j = Some b ->
  nth_error (list_prod l1 l2) (i * length l2 + j) = Some (a, b).
Proof.
  revert i. induction l1 as [|x l1 IH]; intros i Hi Hj.
  - destruct i; discriminate.
  - cbn [list_prod]. destruct i as [|i]; cbn [nth_error] in Hi.
    + injection Hi as ->. cbn [Nat.mul Nat.add].
      rewrite nth_error_app1
        by (rewrite length_map; apply nth_error_Some; congruence).
      now rewrite nth_error_map, Hj.
    + rewrite nth_error_app2 by (rewrite length_map; lia).
      rewrite length_map.
      replace (S i * length l2 + j - length l2) with (i * length l2 + j)
        by lia.
      now apply IH.
Qed.

Lemma nth_error_seq0 n i : i < n -> nth_error (seq 0 n) i = Some i.
Proof.
  intros Hi. rewrite (nth_error_nth' _ 0) by now rewrite length_seq.
  now rewrite seq_nth.
Qed.

Lemma optical_list_nth Eg Ee g e :
  g < length Eg -> e < length Ee ->
  nth_error (optical_list Eg Ee) (g * length Ee + e) =
  Some (optical_entry Eg Ee (g, e)).
Proof.
  intros Hg He. unfold optical_list. rewrite nth_error_map.
  pose proof (@nth_error_list_prod nat nat (seq 0 (length Eg))
                (seq 0 (length Ee)) g e g e
                (nth_error_seq0 Hg) (nth_error_seq0 He)) as H.
  rewrite length_seq in H. rewrite H. reflexivity.
Qed.

(** X1: [optical_transitions] with [compute_strengths=False]: once the optional
    field update has returned, the result lists one entry for every pair of
    a ground and an excited level, so [len(E_gs) * len(E_es)] entries; the
    entry of the pair (g, e) stands at position [g * len(E_es) + e] and is
    [(E_es[e] - E_gs[g], None, (g, e))]; the object is not changed beyond
    the update. *)
Theorem optical_transitions_all_pairs {diag : Diagonalizer}
  (B B_theta B_phi : option R) (st : SpinSystem) :
  optical_transitions B B_theta B_phi false st =
    match update_if_given B B_theta B_phi st with
    | (Ok _, st') => (Ok (optical_list (E_gs st') (E_es st')), st')
    | (Raise e, st') => (Raise e, st')
    end /\
  (forall Eg Ee : list C,
     length (optical_list Eg Ee) = length Eg * length Ee /\
     forall g e, g < length Eg -> e < length Ee ->
       nth_error (optical_list Eg Ee) (g * length Ee + e) =
       Some ((get1 Ee e - get1 Eg g)%C, None, (g, e))).
Proof.
  split.
  - unfold optical_transitions, mbind at 1.
    destruct (update_if_given B B_theta B_phi st) as [[[]|e] st'];
      [|reflexivity].
    unfold mbind, attr, lift. f_equal.
    etransitivity.
    { apply for_each_ext with
        (body' := fun (ge : nat * C * (nat * C)) (acc : list optical) =>
                    Ok (acc ++ [((snd (snd ge) - snd (fst ge))%C,
                                 @None stack,
                                 (fst (fst ge), fst (snd ge)))])).
      intros [[g eg] [e ee]] acc _. reflexivity. }
    rewrite for_each_append. cbn [app]. f_equal.
    rewrite !enumerate_map, list_prod_map, map_map. unfold optical_list.
    apply map_ext. intros [g e]. reflexivity.
  - intros Eg Ee. split.
    + unfold optical_list. now rewrite length_map, length_prod, !length_seq.
    + intros g e Hg He. now apply optical_list_nth.
Qed.

(** ** The doublets of [superhyperfine_levels] *)

Lemma py_item_nth l i : i < length l -> py_item l i = Ok (get1 l i).
Proof.
  intros Hi. unfold py_item. now rewrite (nth_error_nth' _ C0).
Qed.

Lemma py_item_out l i : length l <= i -> py_item l i = Raise IndexError.
Proof.
  intros Hi. unfold py_item.
  now rewrite (proj2 (nth_error_None l i) Hi).
Qed.

Lemma doublet_relations low up :
  let '(lower, upper, diff) := doublet low up in
  (lower + upper)%C = C0 /\ (upper - lower)%C = diff /\
  lower = ((low - Cdivr (low + up) 2) * RtoC (10 ^ 6))%C /\
  upper = ((up - Cdivr (low + up) 2) * RtoC (10 ^ 6))%C.
Proof.
  unfold doublet. repeat split; apply C_eq;
    unfold Cadd, Csub, Cmul, Copp, Cdivr, C0, RtoC; cbn [fst snd]; field.
Qed.

Lemma energies_manifold {diag : Diagonalizer} state B B_theta B_phi st :
  field_given B B_theta B_phi = false ->
  energies state B B_theta B_phi st =
  (match manifold state st with
   | Some E => Ok E
   | None => Raise Exception
   end, st).
Proof.
  intros Hf. rewrite energies_after_update, (update_if_given_skip _ _ _ Hf).
  unfold mret, manifold. destruct (String.eqb state "gs"); [reflexivity|].
  destruct (String.eqb state "es"); reflexivity.
Qed.

Lemma py_item_neg_nth l k :
  0 < k -> k <= length l -> py_item_neg l k = Ok (get1 l (length l - k)).
Proof.
  intros Hk Hl. unfold py_item_neg.
  rewrite (proj2 (Nat.leb_le _ _) Hl). apply py_item_nth. lia.
Qed.

Lemma doublet_eq low up :
  (((low - Cdivr (low + up) 2) * RtoC (10 ^ 6))%C,
   ((up - Cdivr (low + up) 2) * RtoC (10 ^ 6))%C,
   ((up - low) * RtoC (10 ^ 6))%C) = doublet low up.
Proof.
  unfold doublet. repeat f_equal; apply C_eq;
    unfold Cadd, Csub, Cmul, Copp, Cdivr, C0, RtoC; cbn [fst snd]; field.
Qed.

(** X2: [superhyperfine_levels] when no field update is requested: a manifold
    selector other than "gs" and "es" raises the exception of [energies];
    a spectrum with fewer than two levels raises [IndexError]; otherwise
    the result holds, for the two lowest and for the two highest levels,
    the gap [diff = (up - low) * 10**6] and the two levels about their
    mean, which are [-diff / 2] and [diff / 2].  The object is left as it
    was. *)
Theorem superhyperfine_levels_doublets {diag : Diagonalizer}
  (state : string) (B B_theta B_phi : option R) (st : SpinSystem) :
  field_given B B_theta B_phi = false ->
  snd (superhyperfine_levels state B B_theta B_phi st) = st /\
  match manifold state st with
  | None =>
      fst (superhyperfine_levels state B B_theta B_phi st) = Raise Exception
  | Some E =>
      if length E <? 2 then
        fst (superhyperfine_levels state B B_theta B_phi st) =
        Raise IndexError
      else
        fst (superhyperfine_levels state B B_theta B_phi st) =
        Ok (let '(lower, upper, diff) := doublet (get1 E 0) (get1 E 1) in
            let '(lower2, upper2, diff2) :=
              doublet (get1 E (length E - 2)) (get1 E (length E - 1)) in
            (lower, upper, diff, lower2, upper2, diff2))
  end.
Proof.
  intros Hf. split; [now apply superhyperfine_levels_frame|].
  unfold superhyperfine_levels.
  rewrite (update_if_given_skip _ _ _ Hf).
  unfold mbind at 1. unfold mret at 1.
  pose proof (fun s => @energies_manifold diag state B B_theta B_phi s Hf)
    as Hen.
  unfold mbind, lift, mret. rewrite !Hen.
  destruct (manifold state st) as [E|]; [|reflexivity].
  destruct (Nat.ltb_spec (length E) 2) as [Hl|Hl].
  - destruct E as [|a [|b E]]; cbn [length] in Hl; try lia; reflexivity.
  - rewrite !py_item_nth by lia.
    rewrite ?Hen.
    rewrite !py_item_neg_nth by lia.
    cbn [fst]. f_equal.
    rewrite <- (doublet_eq (get1 E 0) (get1 E 1)).
    rewrite <- (doublet_eq (get1 E (length E - 2)) (get1 E (length E - 1))).
    reflexivity.
Qed.

Lemma superhyperfine_levels_doublets_witness :
  field_given (@None R) None None = false /\
  snd (@superhyperfine_levels diagonal_reader "es" None None None
         half_spin_system) = half_spin_system.
Proof.
  pose proof (@superhyperfine_levels_doublets diagonal_reader "es"
                None None None half_spin_system eq_refl) as H.
  destruct H as [H _].
  split; [reflexivity|exact H].
Defined.

(** ** The generated spin operators *)

Lemma hermitian_tab2 d f :
  (forall i j, i < d -> j < d -> f j i = Cconj (f i j)) ->
  hermitian (Arr2 (tab2 d d f)).
Proof.
  intros H. unfold hermitian, conj_transpose. rewrite length_tab2.
  destruct d as [|d]; [reflexivity|]. rewrite ncols_tab2 by lia.
  f_equal. apply tab2_ext. intros i j Hi Hj.
  rewrite get2_tab2 by assumption. rewrite (H i j) by assumption. cring.
Qed.

Lemma shape_tab2 r c f : 0 < r -> shape (Arr2 (tab2 r c f)) = [r; c].
Proof. intros Hr. cbn [shape]. now rewrite length_tab2, ncols_tab2. Qed.

(** X3: for every spin above 0, [generate_spin_matrices] returns three square
    arrays of [2 * spin + 1] rows, each equal to its conjugate transpose;
    [sz] is diagonal with the entries [spin, spin - 1, ..., -spin], and
    [sx] and [sy] vanish outside the two diagonals next to the main one. *)
Theorem spin_matrices_hermitian (two_s : nat) :
  0 < two_s ->
  exists sx sy sz,
    generate_spin_matrices two_s = Ok (sx, sy, sz) /\
    shape sx = [two_s + 1; two_s + 1] /\
    shape sy = [two_s + 1; two_s + 1] /\
    shape sz = [two_s + 1; two_s + 1] /\
    hermitian sx /\ hermitian sy /\ hermitian sz /\
    forall r c, r < two_s + 1 -> c < two_s + 1 ->
      entry sz r c = (if r =? c then RtoC (spin_of two_s - INR r) else C0) /\
      (c <> r + 1 -> r <> c + 1 -> entry sx r c = C0 /\ entry sy r c = C0).
Proof.
  intros Hs. exists (spin_x two_s), (spin_y two_s), (spin_z two_s).
  split; [now apply generate_spin_matrices_pos|].
  unfold spin_x, spin_y, spin_z. rewrite !shape_tab2 by lia.
  do 3 (split; [reflexivity|]).
  split; [apply hermitian_tab2; intros; apply (spin_fun_herm two_s 0)|].
  split; [apply hermitian_tab2; intros; apply (spin_fun_herm two_s 1)|].
  split; [apply hermitian_tab2; intros; apply (spin_fun_herm two_s 2)|].
  intros r c Hr Hc. cbn [entry]. rewrite !get2_tab2 by assumption.
  split; [reflexivity|]. intros H1 H2.
  now rewrite sx_entry_far, sy_entry_far.
Qed.

Lemma spin_matrices_hermitian_witness :
  0 < 1 /\
  exists sx sy sz,
    generate_spin_matrices 1 = Ok (sx, sy, sz) /\
    hermitian sx /\ hermitian sy /\ hermitian sz.
Proof.
  split; [lia|].
  destruct (@spin_matrices_hermitian 1 ltac:(lia))
    as (sx & sy & sz & E & _ & _ & _ & Hx & Hy & Hz & _).
  exists sx, sy, sz. auto.
Defined.

Lemma casimir_entry n i j :
  0 < n -> i < n + 1 -> j < n + 1 ->
  (Csum (n + 1) (fun k => sx_entry (spin_of n) i k * sx_entry (spin_of n) k j) +
   Csum (n + 1) (fun k => sy_entry (spin_of n) i k * sy_entry (spin_of n) k j) +
   Csum (n + 1) (fun k => sz_entry (spin_of n) i k * sz_entry (spin_of n) k j) =
   RtoC (spin_of n * (spin_of n + 1)) * id_fun i j)%C.
Proof.
  intros Hn Hi Hj.
  rewrite (@Csum_support2 _ _ (i + 1) (i - 1)); [|lia|].
  2:{ intros k Hk H1 H2. rewrite sx_entry_far by lia. cring. }
  rewrite (@Csum_support2 _ _ (i + 1) (i - 1)); [|lia|].
  2:{ intros k Hk H1 H2. rewrite sy_entry_far by lia. cring. }
  rewrite (@Csum_support1 _ _ i).
  2:{ intros k Hk H1. rewrite (proj2 (sz_entry_far (spin_of n) H1)). cring. }
  rewrite !sx_entry_ladder, !sy_entry_ladder. unfold sz_entry, id_fun.
  nat_tests; subst; try (cring; fail); finish_ladder n.
Qed.

(** X4: for every spin above 0 the generated operators satisfy
    [sx @ sx + sy @ sy + sz @ sz = spin * (spin + 1) * identity]. *)
Theorem spin_matrices_casimir (two_s : nat) :
  0 < two_s ->
  exists sx sy sz xx yy zz s1 s2,
    generate_spin_matrices two_s = Ok (sx, sy, sz) /\
    matmul sx sx = Ok xx /\ matmul sy sy = Ok yy /\ matmul sz sz = Ok zz /\
    np_add xx yy = Ok s1 /\ np_add s1 zz = Ok s2 /\
    s2 = scale (RtoC (spin_of two_s * (spin_of two_s + 1)))
               (identity (two_s + 1)).
Proof.
  intros Hs. exists (spin_x two_s), (spin_y two_s), (spin_z two_s).
  unfold spin_x, spin_y, spin_z. rewrite !matmul_tab2 by lia.
  do 5 eexists. split; [now apply generate_spin_matrices_pos|].
  do 3 (split; [reflexivity|]).
  split; [exact (binop2_tab2 Cadd _ _ _ _)|].
  split; [exact (binop2_tab2 Cadd _ _ _ _)|].
  unfold identity. rewrite scale_tab2. f_equal. apply tab2_ext.
  intros i j Hi Hj. now apply casimir_entry.
Qed.

Lemma spin_matrices_casimir_witness :
  0 < 2 /\
  exists sx sy sz, generate_spin_matrices 2 = Ok (sx, sy, sz).
Proof.
  split; [lia|].
  destruct (@spin_matrices_casimir 2 ltac:(lia))
    as (sx & sy & sz & _ & _ & _ & _ & _ & E & _).
  exists sx, sy, sz. exact E.
Defined.

(** ** Directions and rotations *)

Lemma Cabs_sq z : (Cabs z ^ 2 = fst z * fst z + snd z * snd z)%R.
Proof.
  unfold Cabs. cbn [pow]. rewrite Rmult_1_r. apply sqrt_sqrt. nra.
Qed.

Lemma norm_vec3 x y z :
  norm (Arr1 [RtoC x; RtoC y; RtoC z]) = sqrt (x * x + y * y + z * z).
Proof.
  unfold norm. cbn [flatten fold_right]. rewrite !Cabs_sq.
  unfold RtoC. cbn [fst snd]. f_equal. ring.
Qed.

Lemma unit_sum theta phi :
  ((sin theta * cos phi) * (sin theta * cos phi) +
   (sin theta * sin phi) * (sin theta * sin phi) +
   cos theta * cos theta = 1)%R.
Proof.
  pose proof (sin2_cos2 theta) as Ht. pose proof (sin2_cos2 phi) as Hp.
  unfold Rsqr in *. nra.
Qed.

(** X5: [unit_vector] has Euclidean length 1 for all angles; the field vector
    that [update_zeeman_ham] builds is [B] times it and has length [|B|]. *)
Theorem unit_vector_norm (B theta phi : R) :
  norm (unit_vector theta phi) = 1%R /\
  B_vec_of B theta phi = scale (RtoC B) (unit_vector theta phi) /\
  norm (B_vec_of B theta phi) = Rabs B.
Proof.
  split; [|split].
  - unfold unit_vector. rewrite norm_vec3, unit_sum. apply sqrt_1.
  - reflexivity.
  - unfold B_vec_of, scale. cbn [amap map].
    replace (RtoC B * RtoC (sin theta * cos phi))%C
      with (RtoC (B * (sin theta * cos phi))) by cring.
    replace (RtoC B * RtoC (sin theta * sin phi))%C
      with (RtoC (B * (sin theta * sin phi))) by cring.
    replace (RtoC B * RtoC (cos theta))%C
      with (RtoC (B * cos theta)) by cring.
    rewrite norm_vec3. rewrite <- sqrt_Rsqr_abs. f_equal.
    pose proof (unit_sum theta phi) as H. unfold Rsqr. nra.
Qed.

Ltac trig_vars a b c :=
  pose proof (sin2_cos2 a) as Ha; pose proof (sin2_cos2 b) as Hb;
  pose proof (sin2_cos2 c) as Hc; unfold Rsqr in Ha, Hb, Hc;
  set (sa := sin a) in *; set (ca := cos a) in *;
  set (sb := sin b) in *; set (cb := cos b) in *;
  set (sc := sin c) in *; set (cc := cos c) in *;
  clearbody sa ca sb cb sc cc.

(** splits an equation between two evaluated arrays into its entries *)
Ltac entrywise :=
  repeat match goal with
  | |- Ok _ = Ok _ => apply (f_equal Ok)
  | |- Arr2 _ = Arr2 _ => apply (f_equal Arr2)
  | |- _ :: _ = _ :: _ => apply (f_equal2 cons)
  | |- (_, _) = (_, _) => apply (f_equal2 pair)
  | |- @nil _ = @nil _ => reflexivity
  end.

(** X6: [rot] returns, for all angles, a 3 by 3 array that is orthogonal:
    [R @ R.T] and [R.T @ R] are the identity. *)
Theorem rot_orthogonal (a b c : R) :
  exists r,
    rot a b c = Ok r /\ shape r = [3; 3] /\
    matmul r (transpose r) = Ok (identity 3) /\
    matmul (transpose r) r = Ok (identity 3).
Proof.
  unfold rot. eval_arrays. eexists. split; [reflexivity|].
  split; [reflexivity|]. eval_arrays. trig_vars a b c.
  split; entrywise; nsatz.
Qed.

Lemma diag_conjugation_symmetric (r00 r01 r02 r10 r11 r12 r20 r21 r22 x y z : C) :
  exists m t,
    matmul (Arr2 [[r00; r01; r02]; [r10; r11; r12]; [r20; r21; r22]])
           (np_diag [x; y; z]) = Ok m /\
    matmul m (transpose
                (Arr2 [[r00; r01; r02]; [r10; r11; r12]; [r20; r21; r22]]))
      = Ok t /\
    transpose t = t.
Proof.
  do 2 eexists. eval_arrays. split; [reflexivity|].
  eval_arrays. split; [reflexivity|]. eval_arrays. entrywise; ring.
Qed.

(** X7: the tensors that the script builds as
    [rot(a, b, c) @ np.diag([x, y, z]) @ rot(a, b, c).T] are symmetric for
    all angles and all diagonal values. *)
Theorem rot_diag_symmetric (a b c x y z : R) :
  exists r m t,
    rot a b c = Ok r /\
    matmul r (np_diag [RtoC x; RtoC y; RtoC z]) = Ok m /\
    matmul m (transpose r) = Ok t /\
    transpose t = t.
Proof.
  unfold rot. eval_arrays.
  match goal with
  | |- exists r m t, Ok ?v = Ok r /\ _ =>
      match v with
      | Arr2 [[?r00; ?r01; ?r02]; [?r10; ?r11; ?r12]; [?r20; ?r21; ?r22]] =>
          destruct (diag_conjugation_symmetric r00 r01 r02 r10 r11 r12
                      r20 r21 r22 (RtoC x) (RtoC y) (RtoC z))
            as (m & t & Hm & Ht & Hs);
          exists v, m, t
      end
  end.
  split; [reflexivity|]. split; [exact Hm|]. split; [exact Ht|exact Hs].
Qed.

(** ** Transition strengths *)

Lemma Csum_swap n m (g : nat -> nat -> C) :
  Csum n (fun j => Csum m (fun k => g j k)) =
  Csum m (fun k => Csum n (fun j => g j k)).
Proof.
  induction n as [|n IH]; cbn [Csum].
  - symmetry. apply Csum_zero. reflexivity.
  - rewrite IH, <- Csum_add. reflexivity.
Qed.

Lemma Csum_mul_r n c f :
  Csum n (fun k => f k * c)%C = (Csum n f * c)%C.
Proof. induction n as [|n IH]; simpl; [cring|]. rewrite IH. cring. Qed.

Lemma overlap_conj D f u v :
  herm_on D f -> overlap D f u v = Cconj (overlap D f v u).
Proof.
  intros Hf. unfold overlap. rewrite Csum_conj.
  transitivity
    (Csum D (fun j => Csum D (fun k =>
       Cconj (get1 v k) * f k j * get1 u j)%C)).
  { apply Csum_ext. intros j _. now rewrite <- Csum_mul_r. }
  rewrite Csum_swap. apply Csum_ext. intros k Hk.
  rewrite Cconj_mul, Csum_conj, <- Csum_mul_r. apply Csum_ext. intros j Hj.
  rewrite Cconj_mul, Cconj_invol, <- (Hf j k) by assumption. cring.
Qed.

Lemma Cabs_conj z : Cabs (Cconj z) = Cabs z.
Proof. unfold Cabs, Cconj. cbn [fst snd]. f_equal. ring. Qed.

Lemma rank2_kron_arr a b : is_arr a -> rank2 b -> rank2 (kron a b).
Proof.
  destruct a as [x|u|m], b as [y|v|n]; try contradiction; intros _ _; exact I.
Qed.

Lemma rank2_amap h a : rank2 a -> rank2 (amap h a).
Proof. destruct a; try contradiction. intros _. exact I. Qed.

Lemma is_arr_spin_ops n k : is_arr (item (spin_ops n) k).
Proof.
  unfold spin_ops. destruct (n =? 0); destruct k as [|[|k]]; exact I.
Qed.

Lemma rank2_Qa_mat Q D a :
  rank2 a -> Qa Q D a -> exists f, a = mat D D f /\ Q D f.
Proof.
  destruct a as [x|u|m]; try contradiction.
  intros _ (_ & f & Hf & Hq). exists f. cbn [sem2] in Hf. now subst.
Qed.

Lemma big_S_mat p k :
  wf_params p -> k < 3 ->
  exists f, big_S p k = mat (composite_dim p) (composite_dim p) f /\
            herm_on (composite_dim p) f.
Proof.
  intros Hp Hk. apply rank2_Qa_mat.
  - unfold big_S. apply rank2_expand_hosts. unfold scale. apply rank2_amap.
    apply rank2_kron_arr; [|exact I].
    replace (S_ p) with (spin_ops (spinS p)) by (symmetry; apply Hp).
    apply is_arr_spin_ops.
  - unfold big_S, composite_dim.
    apply (Qa_expand_hosts closed_herm_on); [apply Hp|].
    apply (Qa_scale closed_herm_on).
    apply (Qa_kron closed_herm_on).
    + replace (S_ p) with (spin_ops (spinS p)) by (symmetry; apply Hp).
      now apply (Qa_spin closed_herm_on).
    + replace (multI p) with (spinI p + 1) by (symmetry; apply Hp).
      apply (Qa_identity closed_herm_on). lia.
Qed.

Lemma strength_eval D f u v :
  0 < D -> length u = D -> length v = D ->
  (a <- matmul (conjugate (Arr1 v)) (mat D D f) ;;
   b <- matmul a (Arr1 u) ;;
   Ok (abs2 b)) = Ok (Num (RtoC (Cabs (overlap D f u v) ^ 2))).
Proof.
  intros HD Hu Hv. unfold conjugate, mat. cbn [amap matmul].
  rewrite length_map, length_tab2, ncols_tab2, Hv, Nat.eqb_refl by assumption.
  cbn [rbind matmul]. rewrite length_tab1, Hu, Nat.eqb_refl.
  cbn [rbind abs2 amap]. do 5 f_equal. unfold overlap.
  apply Csum_ext. intros j Hj. rewrite get1_tab1 by assumption. f_equal.
  apply Csum_ext. intros k Hk. rewrite get2_tab2 by assumption. f_equal.
  unfold get1. rewrite (nth_indep _ C0 (Cconj C0)) by (rewrite length_map; lia).
  apply map_nth.
Qed.

Lemma transition_strength_eval p :
  wf_params p ->
  exists fx fy fz,
    herm_on (composite_dim p) fx /\ herm_on (composite_dim p) fy /\
    herm_on (composite_dim p) fz /\
    forall u' v', length u' = composite_dim p -> length v' = composite_dim p ->
      transition_strength p (Arr1 u') (Arr1 v') =
      Ok (Num (RtoC (Cabs (overlap (composite_dim p) fx u' v') ^ 2)),
          Num (RtoC (Cabs (overlap (composite_dim p) fy u' v') ^ 2)),
          Num (RtoC (Cabs (overlap (composite_dim p) fz u' v') ^ 2))).
Proof.
  intros Hp.
  destruct (@big_S_mat p 0 Hp ltac:(lia)) as (fx & Ex & Hx).
  destruct (@big_S_mat p 1 Hp ltac:(lia)) as (fy & Ey & Hy).
  destruct (@big_S_mat p 2 Hp ltac:(lia)) as (fz & Ez & Hz).
  exists fx, fy, fz. do 3 (split; [assumption|]).
  intros u' v' Hu' Hv'. unfold transition_strength.
  fold (big_S p 0). fold (big_S p 1). fold (big_S p 2).
  rewrite Ex, Ey, Ez.
  pose proof (composite_dim_pos Hp) as HD.
  rewrite !strength_eval by assumption. reflexivity.
Qed.

(** X8: [transition_strength] on the parameters of a constructed system and
    two vectors of the composite dimension returns three non-negative real
    numbers, and exchanging the initial and the final vector gives the same
    three numbers. *)
Theorem transition_strength_symmetric
  (spinS0 spinI0 : nat) (g_gs0 g_es0 A_gs0 A_es0 : mat33) (g_n : R)
  (nl : list neighbour_input) (p : Params) (initial final : list C) :
  new_Params spinS0 spinI0 g_gs0 g_es0 A_gs0 A_es0 g_n nl = Ok p ->
  length initial = composite_dim p -> length final = composite_dim p ->
  exists fx fy fz : R,
    transition_strength p (Arr1 initial) (Arr1 final) =
      Ok (Num (RtoC fx), Num (RtoC fy), Num (RtoC fz)) /\
    transition_strength p (Arr1 final) (Arr1 initial) =
      Ok (Num (RtoC fx), Num (RtoC fy), Num (RtoC fz)) /\
    (0 <= fx)%R /\ (0 <= fy)%R /\ (0 <= fz)%R.
Proof.
  intros Hnew Hu Hv.
  destruct (new_Params_wf _ _ _ _ _ _ _ _ Hnew) as (Hp & _).
  destruct (transition_strength_eval Hp)
    as (fx & fy & fz & Hx & Hy & Hz & E).
  do 3 eexists. split; [apply E; assumption|].
  split.
  - rewrite (E final initial) by assumption.
    rewrite (overlap_conj initial final Hx), (overlap_conj initial final Hy),
      (overlap_conj initial final Hz), !Cabs_conj. reflexivity.
  - repeat split; apply pow2_ge_0.
Qed.

Lemma transition_strength_symmetric_witness :
  new_Params 1 0 g_iso g_iso zero33 zero33 0 [] = Ok (params half_spin_system) /\
  length [C1; C0] = composite_dim (params half_spin_system) /\
  exists fx fy fz : R,
    transition_strength (params half_spin_system) (Arr1 [C1; C0])
      (Arr1 [C0; C1]) = Ok (Num (RtoC fx), Num (RtoC fy), Num (RtoC fz)).
Proof.
  assert (E : new_Params 1 0 g_iso g_iso zero33 zero33 0 [] =
              Ok (params half_spin_system)) by (eval_arrays; reflexivity).
  assert (L : length [C1; C0] = composite_dim (params half_spin_system))
    by reflexivity.
  assert (L' : length [C0; C1] = composite_dim (params half_spin_system))
    by reflexivity.
  destruct (@transition_strength_symmetric 1 0 g_iso g_iso zero33 zero33 0 []
              (params half_spin_system) [C1; C0] [C0; C1] E L L')
    as (fx & fy & fz & H & _).
  split; [exact E|]. split; [exact L|]. exists fx, fy, fz. exact H.
Defined.

(** ** Neighbours *)

Lemma sqrt_scale c s : (0 <= c)%R -> (0 <= s)%R ->
  sqrt (c * c * s) = (c * sqrt s)%R.
Proof.
  intros Hc Hs. rewrite sqrt_mult by nra. now rewrite sqrt_square.
Qed.

(** X9: [Neighbour.__init__] always returns; the stored distance is the
    Euclidean length of the displacement converted from Angstrom to metres,
    [R = 10**-10 * sqrt(x**2 + y**2 + z**2)], the multiplicity is
    [2 * spinH + 1], and the stacked operators are reshaped to [3] rows of
    [multH**2] entries. *)
Theorem neighbour_distance (x y z : R) (spinH : nat) (g_n_host : R)
  (element : string) :
  exists ne,
    new_Neighbour ((x, y, z), spinH, g_n_host, element) = Ok ne /\
    n_R ne = (/ 10 ^ 10 * sqrt (x * x + y * y + z * z))%R /\
    n_multH ne = spinH + 1 /\
    n_g_n_host ne = g_n_host /\ n_element ne = element /\
    generate_spin_matrices spinH = Ok (n_H ne) /\
    shape (n_Hv3 ne) = [3; (spinH + 1) * (spinH + 1)].
Proof.
  unfold new_Neighbour. rewrite generate_spin_matrices_eq. cbn [rbind].
  rewrite v3_of_eq. cbn [rbind]. eexists. split; [reflexivity|].
  cbn [n_R n_multH n_g_n_host n_element n_H n_Hv3].
  split; [|repeat split].
  - unfold scale, of_vec3. cbn [amap map fst snd].
    replace (RtoC (/ 10 ^ 10) * RtoC x)%C with (RtoC (/ 10 ^ 10 * x))
      by cring.
    replace (RtoC (/ 10 ^ 10) * RtoC y)%C with (RtoC (/ 10 ^ 10 * y))
      by cring.
    replace (RtoC (/ 10 ^ 10) * RtoC z)%C with (RtoC (/ 10 ^ 10 * z))
      by cring.
    rewrite norm_vec3.
    assert (Hc : (0 <= / 10 ^ 10)%R).
    { left. apply Rinv_0_lt_compat. apply pow_lt. lra. }
    rewrite <- sqrt_scale by (try assumption; nra). f_equal. ring.
  - unfold v3_of, mat. apply shape_tab2. lia.
Qed.

(** ** The cache of an object is never changed *)

Lemma coherent_frame p st st' :
  params st' = params st ->
  HHF_gs st' = HHF_gs st -> HHF_es st' = HHF_es st ->
  H_SHF_gs st' = H_SHF_gs st -> H_SHF_es st' = H_SHF_es st ->
  coherent p st -> coherent p st'.
Proof.
  unfold coherent. intros -> -> -> -> ->. auto.
Qed.

Ltac coherent_by st :=
  cbn zeta; apply (@coherent_frame _ st);
  cbn [snd params HHF_gs HHF_es H_SHF_gs H_SHF_es H_gs H_es E_gs E_es
       set_HHF_gs set_HHF_es set_H_SHF_gs set_H_SHF_es set_H_gs set_H_es
       set_E_gs set_eigvec_gs set_E_es set_eigvec_es];
  auto.

Lemma calc_energies_coherent {diag : Diagonalizer} p st :
  coherent p st -> coherent p (snd (calc_energies st)).
Proof.
  intros Hc. rewrite calc_energies_cases.
  destruct (eig (H_gs st)) as [[wg vg]|e]; [|exact Hc].
  destruct (take_columns vg (argsort wg)) as [cg|e]; [|coherent_by st].
  cbn zeta.
  destruct (eig (H_es st)) as [[we ve]|e]; [|coherent_by st].
  destruct (take_columns ve (argsort we)) as [ce|e]; coherent_by st.
Qed.

Lemma update_zeeman_ham_coherent B t f p st :
  coherent p st -> coherent p (snd (update_zeeman_ham B t f st)).
Proof.
  intros Hc.
  destruct (update_zeeman_ham_frame B t f st) as (E0 & E1 & E2 & E3 & E4 & _).
  now apply (@coherent_frame p st).
Qed.

Lemma reset_ham_coherent p st :
  coherent p st -> coherent p (snd (reset_ham st)).
Proof.
  intros Hc. unfold reset_ham, mbind, lift, attr, assign.
  destruct (np_add (HHF_gs st) (H_SHF_gs st)) as [bg|e]; [|exact Hc].
  cbn [HHF_es H_SHF_es set_H_gs].
  destruct (np_add (HHF_es st) (H_SHF_es st)) as [be|e]; coherent_by st.
Qed.

Lemma initialize_HHF_coherent p st :
  coherent p st ->
  coherent p (snd (initialize_HHF st)) /\
  HHF_gs (snd (initialize_HHF st)) = HHF_gs st /\
  HHF_es (snd (initialize_HHF st)) = HHF_es st.
Proof.
  intros Hc. pose proof Hc as (Ep & Eg & Ee & _).
  unfold initialize_HHF, mbind, lift, attr, assign.
  rewrite Ep, Eg. cbn [params set_HHF_gs]. rewrite ?Ep, Ee. cbn [snd].
  split; [coherent_by st|]. split; reflexivity.
Qed.

Lemma initialize_SHF_coherent p st :
  coherent p st ->
  coherent p (snd (initialize_SHF st)) /\
  H_SHF_gs (snd (initialize_SHF st)) = H_SHF_gs st /\
  H_SHF_es (snd (initialize_SHF st)) = H_SHF_es st.
Proof.
  intros Hc. pose proof Hc as (Ep & _ & _ & Es).
  unfold initialize_SHF, mbind, lift, attr, assign.
  rewrite Ep, Es. cbn [snd].
  split; [coherent_by st|]. split; reflexivity.
Qed.

Lemma run_call_coherent {diag : Diagonalizer} c p st :
  coherent p st -> coherent p (snd (run_call c st)).
Proof.
  intros Hc. destruct c; cbn [run_call].
  - now apply initialize_HHF_coherent.
  - now apply initialize_SHF_coherent.
  - now apply reset_ham_coherent.
  - now apply update_zeeman_ham_coherent.
  - unfold update_B. apply mbind_snd_inv; [| |exact Hc].
    + intros s. apply update_zeeman_ham_coherent.
    + intros _ s. apply calc_energies_coherent.
  - now apply calc_energies_coherent.
  - unfold update_if_given.
    destruct B as [b|]; [|exact Hc]. destruct B_theta as [t|]; [|exact Hc].
    destruct B_phi as [f|]; [|exact Hc].
    unfold update_B. apply mbind_snd_inv; [| |exact Hc].
    + intros s. apply update_zeeman_ham_coherent.
    + intros _ s. apply calc_energies_coherent.
Qed.

Lemma after_calls_coherent {diag : Diagonalizer} cs p st :
  coherent p st -> coherent p (after_calls cs st).
Proof.
  revert st. induction cs as [|c cs IH]; intros st Hc; [exact Hc|].
  apply IH. now apply run_call_coherent.
Qed.

Lemma new_SpinSystem_parts {diag : Diagonalizer}
  spinS0 spinI0 g_gs0 g_es0 A_gs0 A_es0 g_n nl st :
  new_SpinSystem spinS0 spinI0 g_gs0 g_es0 A_gs0 A_es0 g_n nl = Ok st ->
  exists p st1,
    new_Params spinS0 spinI0 g_gs0 g_es0 A_gs0 A_es0 g_n nl = Ok p /\
    assemble (blank p) = (Ok tt, st1) /\
    calc_energies st1 = (Ok tt, st).
Proof.
  intros H. unfold new_SpinSystem in H.
  destruct (new_Params spinS0 spinI0 g_gs0 g_es0 A_gs0 A_es0 g_n nl)
    as [p|e]; cbn [rbind] in H; [|discriminate].
  unfold mbind at 1 in H.
  destruct (assemble (blank p)) as [[[]|e] s1] eqn:Ea; [|discriminate].
  destruct (calc_energies s1) as [[[]|e] s2] eqn:Ec; [|discriminate].
  injection H as <-. exists p, s1. auto.
Qed.

Lemma new_SpinSystem_coherent {diag : Diagonalizer}
  spinS0 spinI0 g_gs0 g_es0 A_gs0 A_es0 g_n nl st :
  new_SpinSystem spinS0 spinI0 g_gs0 g_es0 A_gs0 A_es0 g_n nl = Ok st ->
  new_Params spinS0 spinI0 g_gs0 g_es0 A_gs0 A_es0 g_n nl = Ok (params st) /\
  coherent (params st) st.
Proof.
  intros H. destruct (new_SpinSystem_parts _ _ _ _ _ _ _ _ H)
    as (p & st1 & Ep & Ea & Ec).
  assert (Hc1 : coherent p st1).
  { destruct (@assemble_ok p st1 Ea)
      as (gs & es & sg & se & hg & he & Egs & Ees & Es & _ & _ & ->).
    unfold coherent. cbn [params HHF_gs HHF_es H_SHF_gs H_SHF_es]. auto. }
  pose proof (calc_energies_coherent Hc1) as Hc. rewrite Ec in Hc.
  cbn [snd] in Hc. pose proof Hc as (Epar & _). rewrite Epar. auto.
Qed.

(** X10: on an object that the constructor returned, no sequence of calls
    changes the parameters or the four cached terms, and the cached terms
    are what [initialize_HHF] and [initialize_SHF] compute from the
    parameters. *)
Theorem cache_never_changes {diag : Diagonalizer}
  (spinS0 spinI0 : nat) (g_gs0 g_es0 A_gs0 A_es0 : mat33) (g_n : R)
  (nl : list neighbour_input) (st0 : SpinSystem) (calls : list call) :
  new_SpinSystem spinS0 spinI0 g_gs0 g_es0 A_gs0 A_es0 g_n nl = Ok st0 ->
  params (after_calls calls st0) = params st0 /\
  HHF_gs (after_calls calls st0) = HHF_gs st0 /\
  HHF_es (after_calls calls st0) = HHF_es st0 /\
  H_SHF_gs (after_calls calls st0) = H_SHF_gs st0 /\
  H_SHF_es (after_calls calls st0) = H_SHF_es st0 /\
  hyperfine_gs (params st0) = Ok (HHF_gs st0) /\
  hyperfine_es (params st0) = Ok (HHF_es st0) /\
  superhyperfine (params st0) = Ok (H_SHF_gs st0, H_SHF_es st0).
Proof.
  intros H. destruct (new_SpinSystem_coherent _ _ _ _ _ _ _ _ H) as (_ & Hc).
  pose proof (after_calls_coherent calls Hc) as (Ep & Eg & Ee & Es).
  pose proof Hc as (_ & Eg0 & Ee0 & Es0).
  rewrite Eg0 in Eg. rewrite Ee0 in Ee. rewrite Es0 in Es.
  injection Eg as Eg. injection Ee as Ee. injection Es as Es1 Es2.
  auto 10.
Qed.

Lemma cache_never_changes_witness :
  @new_SpinSystem diagonal_reader 1 0 g_iso g_iso zero33 zero33 0 [] =
    Ok half_spin_system /\
  HHF_es (@after_calls diagonal_reader
            [call_update_B 1 0 0; call_initialize_HHF; call_reset_ham]
            half_spin_system) = HHF_es half_spin_system.
Proof.
  destruct (@cache_never_changes diagonal_reader 1 0 g_iso g_iso zero33
              zero33 0 [] half_spin_system
              [call_update_B 1 0 0; call_initialize_HHF; call_reset_ham]
              half_spin_system_built) as (_ & _ & H & _).
  split; [exact half_spin_system_built|exact H].
Defined.

(** ** The dimension of the spectra *)

Lemma expand_dim_inputs nl ns x :
  map_result new_Neighbour nl = Ok ns ->
  expand_dim ns x =
  fold_left (fun d (inp : neighbour_input) => d * (snd (fst (fst inp)) + 1))
            nl x.
Proof.
  revert ns x. induction nl as [|inp nl IH]; intros ns x H; cbn in H.
  - injection H as <-. reflexivity.
  - destruct (new_Neighbour inp) as [ne|e] eqn:E; cbn [rbind] in H;
      [|discriminate].
    destruct (map_result new_Neighbour nl) as [ns'|e]; cbn [rbind] in H;
      [|discriminate].
    injection H as <-. cbn [expand_dim fold_left].
    fold (expand_dim ns' (x * n_multH ne)). rewrite (IH ns' _ eq_refl).
    f_equal. f_equal.
    destruct inp as [[[disp spinH] g] el]. unfold new_Neighbour in E.
    rewrite generate_spin_matrices_eq in E. cbn [rbind] in E.
    rewrite v3_of_eq in E. cbn [rbind] in E. injection E as <-.
    reflexivity.
Qed.

Lemma new_Params_dim spinS0 spinI0 g_gs0 g_es0 A_gs0 A_es0 g_n nl p :
  new_Params spinS0 spinI0 g_gs0 g_es0 A_gs0 A_es0 g_n nl = Ok p ->
  composite_dim p = total_dim spinS0 spinI0 nl.
Proof.
  unfold new_Params. rewrite !generate_spin_matrices_eq. cbn [rbind].
  rewrite !v3_of_eq. cbn [rbind].
  destruct (map_result new_Neighbour nl) as [ns|e] eqn:E; cbn [rbind];
    [|discriminate].
  intros [= <-]. unfold composite_dim, total_dim.
  cbn [neighbours spinS spinI]. now apply expand_dim_inputs.
Qed.

(** X11: on an object that the constructor returned, after any sequence of
    calls, the excited spectrum has exactly as many levels as the composite
    space has dimensions, the product of all the multiplicities, and the
    ground spectrum has at most as many. *)
Theorem spectra_lengths {diag : Diagonalizer}
  (spinS0 spinI0 : nat) (g_gs0 g_es0 A_gs0 A_es0 : mat33) (g_n : R)
  (nl : list neighbour_input) (st0 : SpinSystem) (calls : list call) :
  diag_ok diag ->
  new_SpinSystem spinS0 spinI0 g_gs0 g_es0 A_gs0 A_es0 g_n nl = Ok st0 ->
  length (E_es (after_calls calls st0)) = total_dim spinS0 spinI0 nl /\
  length (E_gs (after_calls calls st0)) <= total_dim spinS0 spinI0 nl /\
  0 < total_dim spinS0 spinI0 nl.
Proof.
  intros Hd H.
  pose proof (after_calls_inv calls Hd
                (new_SpinSystem_inv _ _ _ _ _ _ _ _ Hd H))
    as (Hp & _ & _ & Le & Lg).
  destruct (new_SpinSystem_coherent _ _ _ _ _ _ _ _ H) as (Ep & Hc).
  pose proof (after_calls_coherent calls Hc) as (Epar & _).
  rewrite Epar in Le, Lg, Hp. rewrite (new_Params_dim _ _ _ _ _ _ _ _ Ep) in Le, Lg.
  split; [exact Le|]. split; [exact Lg|].
  rewrite <- (new_Params_dim _ _ _ _ _ _ _ _ Ep). now apply composite_dim_pos.
Qed.

Lemma spectra_lengths_witness :
  diag_ok diagonal_reader /\
  @new_SpinSystem diagonal_reader 1 0 g_iso g_iso zero33 zero33 0 [] =
    Ok half_spin_system /\
  length (E_es (@after_calls diagonal_reader [call_update_B 1 0 0]
                  half_spin_system)) = total_dim 1 0 [].
Proof.
  destruct (@spectra_lengths diagonal_reader 1 0 g_iso g_iso zero33 zero33 0
              [] half_spin_system [call_update_B 1 0 0]
              diagonal_reader_ok half_spin_system_built) as (H & _).
  split; [exact diagonal_reader_ok|].
  split; [exact half_spin_system_built|exact H].
Defined.

(** ** A system without neighbours *)

Lemma np_add_zero_r a : is_arr a -> normal a -> np_add a (Num C0) = Ok a.
Proof.
  intros Ha Hn. destruct a as [x|u|m]; [contradiction| |];
    unfold np_add, binop; cbn [amap]; do 2 f_equal.
  - transitivity (map (fun x : C => x) u); [|apply map_id].
    apply map_ext. intros. apply Cadd_0_r.
  - cbn [normal] in Hn.
    transitivity (tab2 (length m) (ncols m) (get2 m)); [|exact Hn].
    apply tab2_ext. intros. apply Cadd_0_r.
Qed.

Lemma py_sum3_normal r0 r1 r2 x : py_sum [r0; r1; r2] = Ok x -> normal x.
Proof.
  unfold py_sum. cbn [py_sum_from]. intros H.
  bind_in H as x0 E0. bind_in H as a0 F0.
  bind_in H as x1 E1. bind_in H as a1 F1.
  bind_in H as x2 E2. bind_in H as a2 F2. injection H as <-.
  eapply normal_binop. exact F2.
Qed.

Lemma shf_total_zero : shf_total (Num C0) (Num C0) = Ok (Num C0).
Proof.
  unfold shf_total, np_sub, binop. cbn [rbind]. unfold divr, scale.
  cbn [amap]. do 2 f_equal. apply C_eq;
    unfold Cadd, Csub, Cmul, Cdivr, C0, RtoC; cbn [fst snd];
    unfold Rdiv; ring.
Qed.

Lemma superhyperfine_no_neighbours p :
  wf_params p -> neighbours p = [] ->
  superhyperfine p = Ok (Num C0, Num C0).
Proof.
  intros Hp Hn. unfold superhyperfine.
  destruct (@mu_REI_Q any_on closed_any_on p Hp (g_gs p)) as (mg & -> & Hg).
  destruct (@mu_REI_Q any_on closed_any_on p Hp (g_es p)) as (me & -> & He).
  cbn [rbind].
  assert (HmS : multS p = spinS p + 1) by apply Hp. rewrite HmS.
  destruct (Qstack_dot closed_any_on Hg) as (vg & -> & _).
  destruct (Qstack_dot closed_any_on He) as (ve & -> & _).
  cbn [rbind]. rewrite Hn. cbn [enumerate length seq combine for_each rbind].
  rewrite shf_total_zero. reflexivity.
Qed.

Lemma assembled_no_neighbours
  (spinS0 spinI0 : nat) (g_gs0 g_es0 A_gs0 A_es0 : mat33) (g_n : R) :
  exists st,
    assembled spinS0 spinI0 g_gs0 g_es0 A_gs0 A_es0 g_n [] = Ok st /\
    H_SHF_gs st = Num C0 /\ H_SHF_es st = Num C0 /\
    H_gs st = HHF_gs st /\ H_es st = HHF_es st /\
    hyperfine_gs (params st) = Ok (HHF_gs st) /\
    hyperfine_es (params st) = Ok (HHF_es st) /\
    neighbours (params st) = [].
Proof.
  unfold assembled.
  destruct (new_Params spinS0 spinI0 g_gs0 g_es0 A_gs0 A_es0 g_n [])
    as [p|e] eqn:Ep.
  2:{ unfold new_Params in Ep.
      rewrite !generate_spin_matrices_eq in Ep. cbn [rbind] in Ep.
      rewrite !v3_of_eq in Ep. discriminate Ep. }
  destruct (new_Params_wf _ _ _ _ _ _ _ _ Ep) as (Hp & _).
  assert (Hn : neighbours p = []).
  { unfold new_Params in Ep.
    rewrite !generate_spin_matrices_eq in Ep. cbn [rbind] in Ep.
    rewrite !v3_of_eq in Ep. cbn [rbind map_result] in Ep.
    injection Ep as <-. reflexivity. }
  cbn [rbind].
  destruct (@hyperfine_gs_Qa any_on closed_any_on p Hp I) as (gs & Egs & _).
  destruct (@hyperfine_es_Qa any_on closed_any_on p Hp) as (es & Ees & _).
  pose proof (hyperfine_gs_is_arr _ Egs) as Ag.
  pose proof (hyperfine_es_is_arr _ Ees) as Ae.
  assert (Ng : normal gs).
  { unfold hyperfine_gs in Egs. rewrite Hn in Egs.
    bind_in Egs as t E. bind_in Egs as x F. injection Egs as <-.
    cbn [map] in F. exact (py_sum3_normal _ _ _ F). }
  assert (Ne : normal es).
  { unfold hyperfine_es in Ees. rewrite Hn in Ees.
    bind_in Ees as t E. bind_in Ees as x F. injection Ees as <-.
    cbn [map] in F. exact (py_sum3_normal _ _ _ F). }
  unfold assemble, initialize_HHF, initialize_SHF, reset_ham,
    mbind, lift, attr, assign, blank.
  cbn [params]. rewrite Egs. cbn [params set_HHF_gs]. rewrite Ees.
  cbn [params set_HHF_gs set_HHF_es].
  rewrite (superhyperfine_no_neighbours Hp Hn).
  cbn [params HHF_gs HHF_es H_SHF_gs H_SHF_es
       set_HHF_gs set_HHF_es set_H_SHF_gs set_H_SHF_es].
  rewrite (@np_add_zero_r gs Ag Ng).
  cbn [params HHF_gs HHF_es H_SHF_gs H_SHF_es
       set_HHF_gs set_HHF_es set_H_SHF_gs set_H_SHF_es set_H_gs].
  rewrite (@np_add_zero_r es Ae Ne).
  eexists. split; [reflexivity|].
  cbn [params HHF_gs HHF_es H_SHF_gs H_SHF_es H_gs H_es
       set_HHF_gs set_HHF_es set_H_SHF_gs set_H_SHF_es set_H_gs set_H_es].
  auto 10.
Qed.

(** X12: with an empty [neighbours_list] the assembler always returns: the two
    superhyperfine terms are the number 0 and each working Hamiltonian
    equals the hyperfine term of its manifold. *)
Theorem no_neighbours_baseline
  (spinS0 spinI0 : nat) (g_gs0 g_es0 A_gs0 A_es0 : mat33) (g_n : R) :
  exists st,
    assembled spinS0 spinI0 g_gs0 g_es0 A_gs0 A_es0 g_n [] = Ok st /\
    H_SHF_gs st = Num C0 /\ H_SHF_es st = Num C0 /\
    H_gs st = HHF_gs st /\ H_es st = HHF_es st /\
    hyperfine_gs (params st) = Ok (HHF_gs st) /\
    hyperfine_es (params st) = Ok (HHF_es st).
Proof.
  destruct (assembled_no_neighbours spinS0 spinI0 g_gs0 g_es0 A_gs0 A_es0 g_n)
    as (st & H0 & H1 & H2 & H3 & H4 & H5 & H6 & _).
  exists st. auto 10.
Qed.

(** ** When a field update returns *)


Lemma rank2_binop_r h a b c : rank2 b -> binop h a b = Ok c -> rank2 c.
Proof.
  intros Hb H. unfold binop in H.
  destruct b as [y|v|n]; try contradiction. destruct a as [x|u|m].
  - injection H as <-. exact I.
  - unfold binop2 in H. do 2 (destruct (bdim _ _); [|discriminate]).
    injection H as <-. exact I.
  - unfold binop2 in H. do 2 (destruct (bdim _ _); [|discriminate]).
    injection H as <-. exact I.
Qed.


Lemma py_sum3_rank2 r0 r1 r2 x :
  py_sum [r0; r1; r2] = Ok x -> (forall c, r2 = Ok c -> rank2 c) ->
  rank2 x.
Proof.
  unfold py_sum. cbn [py_sum_from]. intros H Hc.
  bind_in H as x0 E0. bind_in H as a0 F0.
  bind_in H as x1 E1. bind_in H as a1 F1.
  bind_in H as x2 E2. bind_in H as a2 F2. injection H as <-.
  eapply rank2_binop_r; [|exact F2]. now apply Hc.
Qed.

Lemma rank2_hyperfine_gs p gs :
  wf_params p -> 0 < spinS p -> hyperfine_gs p = Ok gs -> rank2 gs.
Proof.
  intros Hp Hs H. unfold hyperfine_gs in H.
  bind_in H as t E. bind_in H as x F. injection H as <-.
  apply rank2_expand_hosts.
  destruct (contract_S_rank2 _ _ E) as (m0 & m1 & m2 & ->).
  cbn [map] in F. eapply py_sum3_rank2; [exact F|].
  intros c Hc. cbn [item snd] in Hc.
  replace (S_ p) with (spin_ops (spinS p)) in Hc by (symmetry; apply Hp).
  unfold spin_ops in Hc. destruct (Nat.eqb_spec (spinS p) 0); [lia|].
  cbn [snd spin_z matmul] in Hc.
  destruct (_ =? _); [|discriminate]. injection Hc as <-. exact I.
Qed.












(** ** Electron spin 0 without neighbours *)

Lemma py_sum3_rank1 r0 r1 r2 x :
  py_sum [r0; r1; r2] = Ok x ->
  (forall c, r0 = Ok c -> exists u, c = Arr1 u) ->
  (forall c, r1 = Ok c -> exists u, c = Arr1 u) ->
  (forall c, r2 = Ok c -> exists u, c = Arr1 u) ->
  exists u, x = Arr1 u.
Proof.
  unfold py_sum. cbn [py_sum_from]. intros H H0 H1 H2.
  bind_in H as x0 E0. bind_in H as a0 F0.
  bind_in H as x1 E1. bind_in H as a1 F1.
  bind_in H as x2 E2. bind_in H as a2 F2. injection H as <-.
  destruct (H0 _ eq_refl) as (u0 & ->). destruct (H1 _ eq_refl) as (u1 & ->).
  destruct (H2 _ eq_refl) as (u2 & ->).
  unfold np_add, binop in F0. injection F0 as <-. cbn [amap] in F1.
  unfold np_add, binop, binop1 in F1.
  destruct (bdim _ _); [|discriminate]. injection F1 as <-.
  unfold np_add, binop, binop1 in F2.
  destruct (bdim _ _); [|discriminate]. injection F2 as <-. eauto.
Qed.

Lemma matmul_vec_rank1 u m c :
  matmul (Arr1 u) (Arr2 m) = Ok c -> exists v, c = Arr1 v.
Proof.
  cbn [matmul]. destruct (_ =? _); [|discriminate]. intros [= <-]. eauto.
Qed.

Lemma rank1_hyperfine_gs p gs :
  wf_params p -> spinS p = 0 -> neighbours p = [] ->
  hyperfine_gs p = Ok gs -> exists u, gs = Arr1 u.
Proof.
  intros Hp Hs Hn H. unfold hyperfine_gs in H. rewrite Hn in H.
  bind_in H as t E. bind_in H as x F. injection H as <-.
  destruct (contract_S_rank2 _ _ E) as (m0 & m1 & m2 & ->).
  replace (S_ p) with (spin_ops (spinS p)) in F by (symmetry; apply Hp).
  rewrite Hs in F. cbn [map item fst snd spin_ops Nat.eqb] in F.
  cbn [expand_hosts fold_left].
  eapply py_sum3_rank1; [exact F| | |]; intros c Hc;
    eapply matmul_vec_rank1; exact Hc.
Qed.

(** X14: with electron spin 0 and no neighbours the constructor never returns:
    the ground Hamiltonian it assembles is an array of rank 1, which
    [np.linalg.eig] refuses. *)
Theorem spin0_constructor_raises {diag : Diagonalizer}
  (spinI0 : nat) (g_gs0 g_es0 A_gs0 A_es0 : mat33) (g_n : R) :
  diag_ok diag ->
  exists e,
    new_SpinSystem 0 spinI0 g_gs0 g_es0 A_gs0 A_es0 g_n [] = Raise e.
Proof.
  intros Hd.
  destruct (assembled_no_neighbours 0 spinI0 g_gs0 g_es0 A_gs0 A_es0 g_n)
    as (st & Ea & _ & _ & Hg & _ & Egs & _ & Hn).
  destruct (assembled_inv _ _ _ _ _ _ _ _ Ea) as (Hp & Hasm & HS & _).
  destruct (rank1_hyperfine_gs Hp HS Hn Egs) as (u & Eu).
  unfold assembled in Ea. unfold new_SpinSystem.
  destruct (new_Params 0 spinI0 g_gs0 g_es0 A_gs0 A_es0 g_n [])
    as [p|e]; cbn [rbind] in *; [|discriminate].
  unfold mbind at 1.
  destruct (assemble (blank p)) as [[[]|e] s]; [|discriminate].
  injection Ea as ->. rewrite calc_energies_cases, Hg, Eu.
  destruct (eig (Arr1 u)) as [[w v]|e] eqn:Ee; [|eauto].
  destruct (proj1 Hd _ _ _ Ee) as (n & Hsh & _). discriminate Hsh.
Qed.

Lemma spin0_constructor_raises_witness :
  diag_ok diagonal_reader /\
  exists e,
    @new_SpinSystem diagonal_reader 0 0 g_iso g_iso zero33 zero33 0 [] =
    Raise e.
Proof.
  split; [exact diagonal_reader_ok|].
  exact (@spin0_constructor_raises diagonal_reader 0 g_iso g_iso zero33 zero33
           0 diagonal_reader_ok).
Defined.

(** ** An isotropic ground tensor *)

Lemma gs_fun_isotropic n (a : R) i j :
  0 < n -> i < n + 1 -> j < n + 1 ->
  gs_fun n (rows33 ((a, 0, 0), (0, a, 0), (0, 0, a))%R) i j =
  (RtoC (a * (spin_of n * (spin_of n + 1))) * id_fun i j)%C.
Proof.
  intros Hn Hi Hj. unfold gs_fun, lin_fun. cbn [Csum].
  rewrite !gs_term_direct.
  pose proof (casimir_entry Hn Hi Hj) as Hc. cbn [spin_fun].
  cbn [rows33 of_vec3 get2 get1 nth fst snd].
  set (X := Csum (n + 1) (fun k => sx_entry (spin_of n) i k *
                                   sx_entry (spin_of n) k j)%C) in *.
  set (Y := Csum (n + 1) (fun k => sy_entry (spin_of n) i k *
                                   sy_entry (spin_of n) k j)%C) in *.
  set (Z := Csum (n + 1) (fun k => sz_entry (spin_of n) i k *
                                   sz_entry (spin_of n) k j)%C) in *.
  replace (RtoC (a * (spin_of n * (spin_of n + 1))) * id_fun i j)%C
    with (RtoC a * (X + Y + Z))%C
    by (rewrite Hc; cring).
  cring.
Qed.

(** X15: with no neighbours, an electron spin above 0 and the isotropic ground
    tensor [A_gs = a * identity], the ground Hamiltonian that the assembler
    stores is [a * spin * (spin + 1) * identity]: the term
    [sum(S[i] @ (A_gs S)[i])] is then [a * (Sx Sx + Sy Sy + Sz Sz)]. *)
Theorem isotropic_ground_term
  (spinS0 spinI0 : nat) (a : R) (g_gs0 g_es0 A_es0 : mat33) (g_n : R) :
  0 < spinS0 ->
  exists st,
    assembled spinS0 spinI0 g_gs0 g_es0
      ((a, 0, 0), (0, a, 0), (0, 0, a))%R A_es0 g_n [] = Ok st /\
    H_gs st =
    scale (RtoC (a * (spin_of spinS0 * (spin_of spinS0 + 1))))
          (identity (spinS0 + 1)).
Proof.
  intros Hs.
  destruct (assembled_no_neighbours spinS0 spinI0 g_gs0 g_es0
              ((a, 0, 0), (0, a, 0), (0, 0, a))%R A_es0 g_n)
    as (st & Ea & _ & _ & Hg & _ & Egs & _ & Hn).
  exists st. split; [exact Ea|].
  destruct (assembled_inv _ _ _ _ _ _ _ _ Ea) as (Hp & _ & HS & _ & HA).
  assert (Hs' : 0 < spinS (params st)) by now rewrite HS.
  pose proof (rank2_hyperfine_gs Hp Hs' Egs) as Hr.
  rewrite Hg.
  destruct (hyperfine_gs_core Hp) as (x & Ex & Sx).
  unfold hyperfine_gs in Egs.
  destruct (contract_S (params st) (of_mat33 (A_gs (params st)))) as [t|e];
    cbn [rbind] in *; [|discriminate].
  rewrite Ex in Egs. cbn [rbind] in Egs. rewrite Hn in Egs.
  cbn [expand_hosts fold_left] in Egs. injection Egs as Egs.
  rewrite <- Egs in *. destruct x as [z|u|m]; try contradiction.
  cbn [sem2] in Sx. rewrite Sx, HS, HA. unfold identity.
  rewrite scale_tab2. f_equal. apply tab2_ext. intros i j Hi Hj.
  now apply gs_fun_isotropic.
Qed.

Lemma isotropic_ground_term_witness :
  0 < 1 /\
  exists st,
    assembled 1 0 g_iso g_iso ((3, 0, 0), (0, 3, 0), (0, 0, 3))%R zero33 0 []
      = Ok st.
Proof.
  split; [lia|].
  destruct (@isotropic_ground_term 1 0 3 g_iso g_iso zero33 0 ltac:(lia))
    as (st & E & _).
  exists st. exact E.
Defined.


